(** * WmClient: the connection-and-correlation layer of the GlazeWM IPC client

    A shallow embedding of [class WmClient] of [dist/index.js]: the pending
    request table, the per-request response listeners, the event
    subscriptions, and the connect / disconnect life cycle.

    The JavaScript run time is single threaded: every piece of work is
    either a call of the public API or the delivery of one notification
    (a socket event or a timer).  The embedding is therefore a step function
    over an explicit world: the fields of the client object, the heap of
    WebSocket objects with their "message" listeners, the heap of handler
    arrays, the armed timers, and the chronological list of the effects the
    code performs (promise callbacks called, user callbacks called, frames
    sent, console output).

    User callbacks run synchronously inside the client and may call it
    back; a callback is modelled by the calls it makes on the client and by
    whether it throws.  Handler arrays are shared objects: what
    [unsubscribe] splices is the array a running [forEach] reads.

    [subscribeMany], which is suspended at an [await] between two
    subscriptions, is embedded apart from the other methods, with the calls
    other code makes meanwhile; so is the function [checkGlazeWMRunning].

    The socket is the one of the library [ws].  Two of its calls throw,
    and both throws are embedded: the constructor, for a port that no URL
    can carry, and [send], while the socket is still connecting.  Each
    socket therefore carries its ready state.

    Outside the embedding: what the awaiting caller does once a promise is
    settled (the log records the calls of [resolve] and [reject]), and the
    two test functions [testDirectWebSocketConnection] and
    [testIPCConnection]. *)

From Stdlib Require Import ZArith Lia Ascii.
From stdpp Require Import base list strings pretty numbers.

#[local] Set Warnings "-register-all".
#[local] Open Scope string_scope.
#[local] Open Scope list_scope.

(** ** JavaScript values that come out of [JSON.parse] *)

(** [JObj] keeps the members in the order they were defined; as in
    [JSON.parse], a later member with the same name overrides an earlier
    one (see [obj_get]).  Numbers are restricted to integers: the code only
    ever tests a number for being zero or prints it. *)
Inductive json :=
| JNull
| JBool (b : bool)
| JNum (z : Z)
| JStr (s : string)
| JArr (elems : list json)
| JObj (members : list (string * json)).

(** A JavaScript value is a [json] or [undefined], written [None]. *)
Definition jsval := option json.

(** ToBoolean. *)
Definition truthy (v : jsval) : bool :=
  match v with
  | None => false
  | Some JNull => false
  | Some (JBool b) => b
  | Some (JNum z) => negb (Z.eqb z 0)
  | Some (JStr s) => negb (String.eqb s "")
  | Some (JArr _) => true
  | Some (JObj _) => true
  end.

(** [a || b]. *)
Definition js_or (a b : jsval) : jsval := if truthy a then a else b.

(** The value a member list gives to [k]: the last definition wins. *)
Fixpoint obj_get (k : string) (ms : list (string * json)) : jsval :=
  match ms with
  | [] => None
  | (k', v) :: ms' =>
      match obj_get k ms' with
      | Some v' => Some v'
      | None => if String.eqb k' k then Some v else None
      end
  end.

(** [o[k] = v] on a member list: an existing member keeps its place and
    takes the new value, a new member goes last. *)
Definition obj_set (k : string) (v : json) (ms : list (string * json))
  : list (string * json) :=
  match obj_get k ms with
  | Some _ => map (fun kv => if String.eqb kv.1 k then (kv.1, v) else kv) ms
  | None => ms ++ [(k, v)]
  end.

(** [v.k] for a value [v] that is neither [null] nor [undefined], and a
    name [k] that is not a built-in property of arrays and strings
    ("length", an index).  The code reads [success], [data], [error],
    [type], [monitors], [workspaces], [windows] and [focused] only. *)
Definition prop (k : string) (v : json) : jsval :=
  match v with
  | JObj ms => obj_get k ms
  | _ => None
  end.

(** Completion of an expression that may throw. *)
Inductive completion (A : Type) :=
| Normal (a : A)
| Throw.
Arguments Normal {A} a.
Arguments Throw {A}.

(** [v.k] for any value: reading a property of [null] or [undefined]
    throws a TypeError. *)
Definition member (k : string) (v : jsval) : completion jsval :=
  match v with
  | None | Some JNull => Throw
  | Some o => Normal (prop k o)
  end.

(** The own enumerable properties an object spread [...v] copies. *)
Definition own_props (v : json) : list (string * json) :=
  match v with
  | JObj ms => ms
  | JArr l => imap (fun i x => (pretty i, x)) l
  | JStr s =>
      imap (fun i c => (pretty i, JStr (String c EmptyString)))
           (String.list_ascii_of_string s)
  | _ => []
  end.

(** [{...base, ...v}] on member lists. *)
Definition spread (base : list (string * json)) (v : json)
  : list (string * json) :=
  fold_left (fun o kv => obj_set kv.1 kv.2 o) (own_props v) base.

(** [String(v)], the conversion [new Error(v)] applies to its argument,
    for the values the server puts into [error]: strings, integers that a
    double holds exactly (up to 2^53 in absolute value), booleans, [null],
    and arrays and objects that define no member [toString] of their
    own. *)
Fixpoint js_to_string (v : json) : string :=
  match v with
  | JNull => "null"
  | JBool true => "true"
  | JBool false => "false"
  | JNum z => pretty z
  | JStr s => s
  | JArr l =>
      (fix join (l : list json) : string :=
         match l with
         | [] => ""
         | x :: r =>
             (match x with JNull => "" | _ => js_to_string x end)
             +:+ (match r with [] => "" | _ => "," +:+ join r end)
         end) l
  | JObj _ => "[object Object]"
  end.

(** ** [Map]: keys in insertion order *)

Module JsMap.
Section Ops.
Context {K V : Type} `{EqDecision K}.

Fixpoint get (k : K) (m : list (K * V)) : option V :=
  match m with
  | [] => None
  | (k', v) :: m' => if decide (k' = k) then Some v else get k m'
  end.

Definition has (k : K) (m : list (K * V)) : bool :=
  match get k m with Some _ => true | None => false end.

(** [m.set(k, v)]: an existing key keeps its position. *)
Fixpoint set (k : K) (v : V) (m : list (K * V)) : list (K * V) :=
  match m with
  | [] => [(k, v)]
  | (k', v') :: m' =>
      if decide (k' = k) then (k, v) :: m' else (k', v') :: set k v m'
  end.

Fixpoint delete (k : K) (m : list (K * V)) : list (K * V) :=
  match m with
  | [] => []
  | (k', v) :: m' =>
      if decide (k' = k) then delete k m' else (k', v) :: delete k m'
  end.

Definition clear (m : list (K * V)) : list (K * V) := [].

End Ops.
End JsMap.

(** ** A decoder for the JSON fragment the protocol uses

    [JSON.parse] belongs to the run time, and the client is verified for an
    arbitrary decoder (see [Section Client]).  The decoder below is the
    instance the concrete scenarios run with.  It reads [null], [true],
    [false], integers, strings without escapes, arrays and objects; on
    other text it answers [None], like a syntax error. *)

Definition dquote : ascii := ascii_of_nat 34.

(** The text [s] between double quotes. *)
Definition quoted (s : string) : string :=
  String dquote (s +:+ String dquote EmptyString).

Definition is_space (c : ascii) : bool :=
  (Ascii.eqb c " " || Ascii.eqb c (ascii_of_nat 10)
   || Ascii.eqb c (ascii_of_nat 13) || Ascii.eqb c (ascii_of_nat 9))%bool.

Fixpoint skip_space (cs : list ascii) : list ascii :=
  match cs with
  | c :: r => if is_space c then skip_space r else cs
  | [] => []
  end.

Definition digit_of (c : ascii) : option Z :=
  let n := nat_of_ascii c in
  if (48 <=? n)%nat && (n <=? 57)%nat then Some (Z.of_nat (n - 48)) else None.

Fixpoint read_digits (acc : Z) (cs : list ascii) : Z * list ascii :=
  match cs with
  | c :: r =>
      match digit_of c with
      | Some d => read_digits (10 * acc + d) r
      | None => (acc, cs)
      end
  | [] => (acc, [])
  end.

Fixpoint read_string (acc : string) (cs : list ascii)
  : option (string * list ascii) :=
  match cs with
  | [] => None
  | c :: r =>
      if Ascii.eqb c dquote then Some (acc, r)
      else if Ascii.eqb c (ascii_of_nat 92) then None
      else read_string (acc +:+ String c EmptyString) r
  end.

Definition read_literal (lit : string) (v : json) (cs : list ascii)
  : option (json * list ascii) :=
  let l := String.list_ascii_of_string lit in
  if bool_decide (take (length l) cs = l)
  then Some (v, drop (length l) cs) else None.

Fixpoint read_value (fuel : nat) (cs : list ascii) {struct fuel}
  : option (json * list ascii) :=
  match fuel with
  | O => None
  | S fuel =>
      match skip_space cs with
      | [] => None
      | c :: r =>
          if Ascii.eqb c dquote then
            match read_string "" r with
            | Some (s, r') => Some (JStr s, r')
            | None => None
            end
          else if Ascii.eqb c "[" then
            match skip_space r with
            | "]"%char :: r' => Some (JArr [], r')
            | r' => read_elems fuel [] r'
            end
          else if Ascii.eqb c "{" then
            match skip_space r with
            | "}"%char :: r' => Some (JObj [], r')
            | r' => read_members fuel [] r'
            end
          else if Ascii.eqb c "-" then
            match r with
            | d :: _ =>
                match digit_of d with
                | Some _ => let '(z, r') := read_digits 0 r in Some (JNum (- z), r')
                | None => None
                end
            | [] => None
            end
          else if bool_decide (is_Some (digit_of c)) then
            let '(z, r') := read_digits 0 (c :: r) in Some (JNum z, r')
          else if Ascii.eqb c "n" then read_literal "null" JNull (c :: r)
          else if Ascii.eqb c "t" then read_literal "true" (JBool true) (c :: r)
          else if Ascii.eqb c "f" then read_literal "false" (JBool false) (c :: r)
          else None
      end
  end
with read_elems (fuel : nat) (acc : list json) (cs : list ascii) {struct fuel}
  : option (json * list ascii) :=
  match fuel with
  | O => None
  | S fuel =>
      match read_value fuel cs with
      | Some (v, r) =>
          match skip_space r with
          | ","%char :: r' => read_elems fuel (acc ++ [v]) r'
          | "]"%char :: r' => Some (JArr (acc ++ [v]), r')
          | _ => None
          end
      | None => None
      end
  end
with read_members (fuel : nat) (acc : list (string * json)) (cs : list ascii)
  {struct fuel} : option (json * list ascii) :=
  match fuel with
  | O => None
  | S fuel =>
      match skip_space cs with
      | q :: r =>
          if Ascii.eqb q dquote then
            match read_string "" r with
            | Some (k, r1) =>
                match skip_space r1 with
                | ":"%char :: r2 =>
                    match read_value fuel r2 with
                    | Some (v, r3) =>
                        match skip_space r3 with
                        | ","%char :: r4 => read_members fuel (acc ++ [(k, v)]) r4
                        | "}"%char :: r4 => Some (JObj (acc ++ [(k, v)]), r4)
                        | _ => None
                        end
                    | None => None
                    end
                | _ => None
                end
            | None => None
            end
          else None
      | [] => None
      end
  end.

Definition decode (text : string) : option json :=
  let cs := String.list_ascii_of_string text in
  match read_value (S (length cs)) cs with
  | Some (v, rest) => match skip_space rest with [] => Some v | _ => None end
  | None => None
  end.

(** ** The objects of the program *)

(** WebSocket objects and handler arrays live in heaps and are named by
    their index; user callbacks are named by an identity ([===] on
    functions). *)
Abbreviation sock := nat (only parsing).
Abbreviation aref := nat (only parsing).
Abbreviation hid := nat (only parsing).

(** The two kinds of "message" listeners the client attaches to a socket:
    the arrow function of [connect] that calls [handleMessage], and the
    [handleResponse] closure of the request [requestId]. *)
Inductive listener :=
| HandleMessage
| HandleResponse (requestId : nat).

#[global] Instance listener_eq_dec : EqDecision listener.
Proof. solve_decision. Defined.

(** The state of a socket, as the [ws] library keeps it. *)
Inductive ReadyState :=
| CONNECTING
| OPEN
| CLOSING
| CLOSED.

#[global] Instance ReadyState_eq_dec : EqDecision ReadyState.
Proof. solve_decision. Defined.

(** A socket: the port of its URL, its state, and its "message"
    listeners in the order they were added. *)
Record WebSocket := {
  url_port : Z;
  readyState : ReadyState;
  message_listeners : list listener
}.

(** An entry of [pendingRequests].  [resolve] and [reject] name the promise
    they settle, [timeout] is the timer handle. *)
Record PendingRequest := {
  resolve : nat;
  reject : nat;
  timeout : nat
}.

Record WmClientOptions := {
  port : Z;
  opt_timeout : Z;
  autoConnect : bool
}.

Record WmClient := {
  options : WmClientOptions;
  ws : option sock;
  connected : bool;
  messageId : nat;
  pendingRequests : list (nat * PendingRequest);
  connectHandlers : list hid;
  disconnectHandlers : list hid;
  errorHandlers : list hid;
  eventSubscriptions : list (string * aref)
}.

(** What a user callback is called with. *)
Inductive harg :=
| NoArg
| EventArg (event : json)
| ErrorArg (message : string).

(** What the code does to the outside, in the order it does it.  [Console]
    keeps the level and the leading text of the call.  [Send s text] is a
    call [send(text)] on the socket [s] that returns: an open socket
    transmits the frame, a socket that is closing or closed drops it.
    [CloseSocket s] is the call [close()]. *)
Inductive effect :=
| Resolve (id : nat) (value : jsval)
| Reject (id : nat) (message : string)
| ConnectResolve (s : sock)
| ConnectReject (s : sock) (message : string)
| Invoke (h : hid) (a : harg)
| Send (s : sock) (text : string)
| CloseSocket (s : sock)
| Console (level : string) (text : string).

(** [timers] holds the armed request timers: the handle is the request
    identifier, the value is the command text the closure captured.
    [connectTimers] holds the armed connection timers, one per socket. *)
Record World := {
  this : WmClient;
  sockets : list WebSocket;
  arrays : list (list hid);
  timers : list (nat * string);
  connectTimers : list sock;
  log : list effect
}.

(** The public methods of the class. *)
Inductive call :=
| OnConnect (handler : hid)
| OnDisconnect (handler : hid)
| OnError (handler : hid)
| Connect
| Disconnect
| IsConnected
| Subscribe (eventType : string) (handler : hid)
| Unsubscribe (eventType : string) (handler : hid)
| UnsubscribeAll
| QueryMonitors
| QueryWorkspaces
| QueryWindows
| QueryFocused
| RunCommand (command : string) (subject : option string).

(** What a call hands back: nothing, a boolean, or a promise that is
    already settled or waits for a request or a connection. *)
Inductive result :=
| Void
| Boolean (b : bool)
| Fulfilled
| Rejected (message : string)
| AwaitsResponse (requestId : nat)
| AwaitsConnection (s : sock).

(** A user callback, seen from the client: the calls it makes on the
    client while it runs, and whether it ends by throwing. *)
Record behaviour := {
  calls : list call;
  throws : bool
}.

(** What the run time delivers, one at a time: a call of the API, an
    event of a socket, a timer, or the rejection of the promise of the
    constructor's [connect()]. *)
Inductive input :=
| Api (c : call)
| SocketOpen (s : sock)
| SocketMessage (s : sock) (data : string) (now : Z)
| SocketError (s : sock) (message : string)
| SocketClose (s : sock)
| RequestTimer (handle : nat)
| ConnectTimer (s : sock)
| AutoConnectFailed (message : string).

(** ** Field updates *)

Definition with_ws (v : option sock) (c : WmClient) : WmClient :=
  {| options := options c; ws := v; connected := connected c;
     messageId := messageId c; pendingRequests := pendingRequests c;
     connectHandlers := connectHandlers c;
     disconnectHandlers := disconnectHandlers c;
     errorHandlers := errorHandlers c;
     eventSubscriptions := eventSubscriptions c |}.

Definition with_connected (v : bool) (c : WmClient) : WmClient :=
  {| options := options c; ws := ws c; connected := v;
     messageId := messageId c; pendingRequests := pendingRequests c;
     connectHandlers := connectHandlers c;
     disconnectHandlers := disconnectHandlers c;
     errorHandlers := errorHandlers c;
     eventSubscriptions := eventSubscriptions c |}.

Definition with_messageId (v : nat) (c : WmClient) : WmClient :=
  {| options := options c; ws := ws c; connected := connected c;
     messageId := v; pendingRequests := pendingRequests c;
     connectHandlers := connectHandlers c;
     disconnectHandlers := disconnectHandlers c;
     errorHandlers := errorHandlers c;
     eventSubscriptions := eventSubscriptions c |}.

Definition with_pendingRequests (v : list (nat * PendingRequest))
  (c : WmClient) : WmClient :=
  {| options := options c; ws := ws c; connected := connected c;
     messageId := messageId c; pendingRequests := v;
     connectHandlers := connectHandlers c;
     disconnectHandlers := disconnectHandlers c;
     errorHandlers := errorHandlers c;
     eventSubscriptions := eventSubscriptions c |}.

Definition with_connectHandlers (v : list hid) (c : WmClient) : WmClient :=
  {| options := options c; ws := ws c; connected := connected c;
     messageId := messageId c; pendingRequests := pendingRequests c;
     connectHandlers := v;
     disconnectHandlers := disconnectHandlers c;
     errorHandlers := errorHandlers c;
     eventSubscriptions := eventSubscriptions c |}.

Definition with_disconnectHandlers (v : list hid) (c : WmClient) : WmClient :=
  {| options := options c; ws := ws c; connected := connected c;
     messageId := messageId c; pendingRequests := pendingRequests c;
     connectHandlers := connectHandlers c;
     disconnectHandlers := v;
     errorHandlers := errorHandlers c;
     eventSubscriptions := eventSubscriptions c |}.

Definition with_errorHandlers (v : list hid) (c : WmClient) : WmClient :=
  {| options := options c; ws := ws c; connected := connected c;
     messageId := messageId c; pendingRequests := pendingRequests c;
     connectHandlers := connectHandlers c;
     disconnectHandlers := disconnectHandlers c;
     errorHandlers := v;
     eventSubscriptions := eventSubscriptions c |}.

Definition with_eventSubscriptions (v : list (string * aref))
  (c : WmClient) : WmClient :=
  {| options := options c; ws := ws c; connected := connected c;
     messageId := messageId c; pendingRequests := pendingRequests c;
     connectHandlers := connectHandlers c;
     disconnectHandlers := disconnectHandlers c;
     errorHandlers := errorHandlers c;
     eventSubscriptions := v |}.

Definition with_this (v : WmClient) (w : World) : World :=
  {| this := v; sockets := sockets w; arrays := arrays w;
     timers := timers w; connectTimers := connectTimers w; log := log w |}.

Definition with_sockets (v : list WebSocket) (w : World) : World :=
  {| this := this w; sockets := v; arrays := arrays w;
     timers := timers w; connectTimers := connectTimers w; log := log w |}.

Definition with_arrays (v : list (list hid)) (w : World) : World :=
  {| this := this w; sockets := sockets w; arrays := v;
     timers := timers w; connectTimers := connectTimers w; log := log w |}.

Definition with_timers (v : list (nat * string)) (w : World) : World :=
  {| this := this w; sockets := sockets w; arrays := arrays w;
     timers := v; connectTimers := connectTimers w; log := log w |}.

Definition with_connectTimers (v : list sock) (w : World) : World :=
  {| this := this w; sockets := sockets w; arrays := arrays w;
     timers := timers w; connectTimers := v; log := log w |}.

(** Perform one effect. *)
Definition out (e : effect) (w : World) : World :=
  {| this := this w; sockets := sockets w; arrays := arrays w;
     timers := timers w; connectTimers := connectTimers w;
     log := log w ++ [e] |}.

(** ** The run time: timers and event emitters *)

Definition clearTimeout (handle : nat) (w : World) : World :=
  with_timers (JsMap.delete handle (timers w)) w.

Fixpoint remove_first (x : listener) (l : list listener) : list listener :=
  match l with
  | [] => []
  | y :: r => if decide (y = x) then r else y :: remove_first x r
  end.

(** [emitter.off(name, x)] removes the most recently added instance of
    [x]; [emitter.on(name, x)] adds [x] last. *)
Definition remove_listener (x : listener) (l : list listener) : list listener :=
  reverse (remove_first x (reverse l)).

Definition off (s : sock) (x : listener) (w : World) : World :=
  with_sockets
    (alter (fun k => {| url_port := url_port k;
                        readyState := readyState k;
                        message_listeners :=
                          remove_listener x (message_listeners k) |})
           s (sockets w)) w.

Definition on (s : sock) (x : listener) (w : World) : World :=
  with_sockets
    (alter (fun k => {| url_port := url_port k;
                        readyState := readyState k;
                        message_listeners := message_listeners k ++ [x] |})
           s (sockets w)) w.

(** The library moves the socket [s] to another state. *)
Definition with_readyState (g : ReadyState -> ReadyState) (s : sock) (w : World)
  : World :=
  with_sockets
    (alter (fun k => {| url_port := url_port k;
                        readyState := g (readyState k);
                        message_listeners := message_listeners k |})
           s (sockets w)) w.

(** [new WebSocket("ws://localhost:" + port)] throws when the text is not
    a URL, which is the case exactly when the port is outside 0..65535;
    [invalid_url] is the message of what it throws. *)
Definition valid_port (p : Z) : bool := (0 <=? p)%Z && (p <=? 65535)%Z.

Definition invalid_url (p : Z) : string :=
  "Invalid URL: ws://localhost:" +:+ pretty p.

(** [socket.close()]: a socket that is not closed yet is closing from now
    on; its "close" event comes later. *)
Definition closing (st : ReadyState) : ReadyState :=
  match st with CLOSED => CLOSED | _ => CLOSING end.

Definition ws_close (s : sock) (w : World) : World :=
  out (CloseSocket s) (with_readyState closing s w).

(** [socket.send(data)] throws while the socket is still connecting, and
    only then. *)
Definition not_open : string :=
  "WebSocket is not open: readyState 0 (CONNECTING)".

Definition send_throws (s : sock) (w : World) : bool :=
  match sockets w !! s with
  | Some k => bool_decide (readyState k = CONNECTING)
  | None => false
  end.

(** ** The methods of [WmClient] that call no user code *)

Definition onConnect (handler : hid) (w : World) : World :=
  with_this
    (with_connectHandlers (connectHandlers (this w) ++ [handler]) (this w)) w.

Definition onDisconnect (handler : hid) (w : World) : World :=
  with_this
    (with_disconnectHandlers (disconnectHandlers (this w) ++ [handler])
       (this w)) w.

Definition onError (handler : hid) (w : World) : World :=
  with_this
    (with_errorHandlers (errorHandlers (this w) ++ [handler]) (this w)) w.

(** [connect()]: returns at once when already connected; otherwise creates
    the socket, attaches its listeners and arms the connection timer.  The
    "open", "error" and "close" listeners are [socketOpen], [socketError]
    and [socketClose] below.  When the constructor of the socket throws,
    nothing is assigned to [this.ws], no timer is armed, and the promise is
    rejected with what was thrown. *)
Definition connect (w : World) : World * result :=
  if connected (this w) && bool_decide (is_Some (ws (this w)))
  then (w, Fulfilled)
  else
    let s := length (sockets w) in
    let p := port (options (this w)) in
    let w1 := out (Console "log"
                     ("Connecting to GlazeWM IPC on port " +:+ pretty p +:+ "..."))
                  w in
    if valid_port p then
      let w2 := with_sockets
                  (sockets w1 ++
                     [{| url_port := p; readyState := CONNECTING;
                         message_listeners := [HandleMessage] |}])
                  w1 in
      let w3 := with_this (with_ws (Some s) (this w2)) w2 in
      (with_connectTimers (connectTimers w3 ++ [s]) w3, AwaitsConnection s)
    else (w1, Rejected (invalid_url p)).

(** [cleanupPendingRequests()]. *)
Definition cleanupPendingRequests (w : World) : World :=
  let w1 :=
    fold_left
      (fun w entry =>
         out (Reject (reject entry.2) "Connection closed")
             (clearTimeout (timeout entry.2) w))
      (pendingRequests (this w)) w in
  with_this
    (with_pendingRequests (JsMap.clear (pendingRequests (this w1))) (this w1))
    w1.

(** [disconnect()]. *)
Definition disconnect (w : World) : World :=
  let w1 :=
    match ws (this w) with
    | Some s =>
        let w' := ws_close s w in
        with_this (with_connected false (with_ws None (this w'))) w'
    | None => w
    end in
  cleanupPendingRequests w1.

Definition isConnected (w : World) : bool := connected (this w).

(** [subscribe(eventType, handler)]. *)
Definition subscribe (eventType : string) (handler : hid) (w : World) : World :=
  let w1 :=
    if JsMap.has eventType (eventSubscriptions (this w)) then w
    else
      let r := length (arrays w) in
      let w' := with_arrays (arrays w ++ [[]]) w in
      with_this
        (with_eventSubscriptions
           (JsMap.set eventType r (eventSubscriptions (this w'))) (this w'))
        w' in
  match JsMap.get eventType (eventSubscriptions (this w1)) with
  | Some r => with_arrays (alter (fun l => l ++ [handler]) r (arrays w1)) w1
  | None => w1
  end.

(** [handlers.indexOf(handler)]. *)
Fixpoint indexOf (handler : hid) (handlers : list hid) : option nat :=
  match handlers with
  | [] => None
  | h :: r =>
      if decide (h = handler) then Some 0
      else match indexOf handler r with Some i => Some (S i) | None => None end
  end.

(** [unsubscribe(eventType, handler)]: [splice(index, 1)] on the array the
    map holds for [eventType]. *)
Definition unsubscribe (eventType : string) (handler : hid) (w : World) : World :=
  match JsMap.get eventType (eventSubscriptions (this w)) with
  | Some r =>
      match arrays w !! r with
      | Some handlers =>
          match indexOf handler handlers with
          | Some index =>
              with_arrays (<[r := delete index handlers]> (arrays w)) w
          | None => w
          end
      | None => w
      end
  | None => w
  end.

(** [unsubscribeAll()]. *)
Definition unsubscribeAll (w : World) : World :=
  with_this
    (with_eventSubscriptions (JsMap.clear (eventSubscriptions (this w)))
       (this w)) w.

(** [sendRequest(command)], up to the point where the promise is handed
    back.  The executor of the promise runs at once: it takes the next
    identifier, arms the timer, stores the entry, attaches
    [handleResponse] and sends the text.  When [send] throws, the throw
    leaves the executor: the promise machinery calls [reject] with what was
    thrown, and the entry, the timer and the handler stay as they are. *)
Definition sendRequest (command : string) (w : World) : World * result :=
  match ws (this w) with
  | Some s =>
      if connected (this w) then
        let requestId := messageId (this w) in
        let w1 := with_this (with_messageId (S requestId) (this w)) w in
        let w2 := with_timers (JsMap.set requestId command (timers w1)) w1 in
        let w3 :=
          with_this
            (with_pendingRequests
               (JsMap.set requestId
                  {| resolve := requestId; reject := requestId;
                     timeout := requestId |}
                  (pendingRequests (this w2))) (this w2)) w2 in
        let w4 := on s (HandleResponse requestId) w3 in
        let w5 := out (Console "log" "Sending IPC command:") w4 in
        if send_throws s w5
        then (out (Reject requestId not_open) w5, Rejected not_open)
        else (out (Send s command) w5, AwaitsResponse requestId)
      else (w, Rejected "Not connected to GlazeWM IPC")
  | None => (w, Rejected "Not connected to GlazeWM IPC")
  end.

Definition queryMonitors (w : World) : World * result :=
  sendRequest "query monitors" w.

Definition queryWorkspaces (w : World) : World * result :=
  sendRequest "query workspaces" w.

Definition queryWindows (w : World) : World * result :=
  sendRequest "query windows" w.

Definition queryFocused (w : World) : World * result :=
  sendRequest "query focused" w.

(** The command text of [runCommand]: [subject] is tested for truth. *)
Definition command_text (command : string) (subject : option string) : string :=
  match subject with
  | Some id =>
      if String.eqb id "" then "command " +:+ command
      else "command --id " +:+ id +:+ " " +:+ command
  | None => "command " +:+ command
  end.

Definition runCommand (command : string) (subject : option string)
  (w : World) : World * result :=
  sendRequest (command_text command subject) w.

(** What a query hands to its caller once its request is resolved with
    [response]: [response.k || response]. *)
Definition unwrap (k : string) (response : jsval) : completion jsval :=
  match member k response with
  | Normal v => Normal (js_or v response)
  | Throw => Throw
  end.

(** One call of a public method.  [subscribeMany], which suspends at an
    [await] between two subscriptions, is not among them. *)
Definition api (c : call) (w : World) : World * result :=
  match c with
  | OnConnect h => (onConnect h w, Void)
  | OnDisconnect h => (onDisconnect h w, Void)
  | OnError h => (onError h w, Void)
  | Connect => connect w
  | Disconnect => (disconnect w, Void)
  | IsConnected => (w, Boolean (isConnected w))
  | Subscribe k h => (subscribe k h w, Fulfilled)
  | Unsubscribe k h => (unsubscribe k h w, Void)
  | UnsubscribeAll => (unsubscribeAll w, Void)
  | QueryMonitors => queryMonitors w
  | QueryWorkspaces => queryWorkspaces w
  | QueryWindows => queryWindows w
  | QueryFocused => queryFocused w
  | RunCommand command subject => runCommand command subject w
  end.

(** The command a request-issuing call sends. *)
Definition request_command (c : call) : option string :=
  match c with
  | QueryMonitors => Some "query monitors"
  | QueryWorkspaces => Some "query workspaces"
  | QueryWindows => Some "query windows"
  | QueryFocused => Some "query focused"
  | RunCommand command subject => Some (command_text command subject)
  | _ => None
  end.

(** [new WmClient(options)]: the defaults, then the automatic connection
    unless it is switched off by the option or by the environment.  The
    [catch] the constructor chains to [connect()] runs later, when that
    promise is rejected: it is [autoConnectFailed] below. *)
Definition WmClient_new (given_port given_timeout : option Z)
  (given_autoConnect : option bool) (env_disable : option string) : World :=
  let or_default (v : option Z) (d : Z) : Z :=
    match v with Some z => if Z.eqb z 0 then d else z | None => d end in
  let disableAutoConnect :=
    match env_disable with
    | Some e => String.eqb e "true" || String.eqb e "1"
    | None => false
    end in
  let auto :=
    match given_autoConnect with Some false => false | _ => true end
    && negb disableAutoConnect in
  let w :=
    {| this :=
         {| options := {| port := or_default given_port 6123%Z;
                          opt_timeout := or_default given_timeout 10000%Z;
                          autoConnect := auto |};
            ws := None; connected := false; messageId := 0;
            pendingRequests := []; connectHandlers := [];
            disconnectHandlers := []; errorHandlers := [];
            eventSubscriptions := [] |};
       sockets := []; arrays := []; timers := []; connectTimers := [];
       log := [] |} in
  if auto then (connect w).1 else w.

(** ** Scenarios

    The data of the concrete runs at the end of the file: a client built
    with a timeout of 50 ms and no automatic connection, sample user
    callbacks, and sample frames. *)

Module Scenario.

Definition fresh : World := WmClient_new None (Some 50%Z) (Some false) None.

(** Callbacks that return without touching the client. *)
Definition quiet (h : hid) (a : harg) : behaviour :=
  {| calls := []; throws := false |}.

(** Handler 1 listens once: it unsubscribes itself when it is called. *)
Definition one_shot (h : hid) (a : harg) : behaviour :=
  if decide (h = 1)
  then {| calls := [Unsubscribe "focus_changed" 1]; throws := false |}
  else {| calls := []; throws := false |}.

(** Handler 1 disconnects the client when it is called. *)
Definition leaver (h : hid) (a : harg) : behaviour :=
  if decide (h = 1)
  then {| calls := [Disconnect]; throws := false |}
  else {| calls := []; throws := false |}.

(** Handler 1 throws. *)
Definition faulty (h : hid) (a : harg) : behaviour :=
  {| calls := []; throws := bool_decide (h = 1) |}.

(** The client connects and the socket opens. *)
Definition live : list input := [Api Connect; SocketOpen 0].

(** Then [queryMonitors()] is called: request 0 is outstanding. *)
Definition one_request : list input := live ++ [Api QueryMonitors].

(** Two handlers subscribe to "focus_changed". *)
Definition two_subscribers : list input :=
  live ++ [Api (Subscribe "focus_changed" 1); Api (Subscribe "focus_changed" 2)].

(** [{"success":true,"data":1}] *)
Definition success_frame : string :=
  "{" +:+ quoted "success" +:+ ":true," +:+ quoted "data" +:+ ":1}".

(** [{"success":false,"error":<text>}] *)
Definition failure_frame (text : string) : string :=
  "{" +:+ quoted "success" +:+ ":false," +:+ quoted "error" +:+ ":"
  +:+ quoted text +:+ "}".

(** [{"type":"focus_changed","data":<payload>}] *)
Definition event_frame (payload : string) : string :=
  "{" +:+ quoted "type" +:+ ":" +:+ quoted "focus_changed" +:+ ","
  +:+ quoted "data" +:+ ":" +:+ payload +:+ "}".

(** [{"type":5,"timestamp":6,"id":7}] *)
Definition payload_with_type : string :=
  "{" +:+ quoted "type" +:+ ":5," +:+ quoted "timestamp" +:+ ":6,"
  +:+ quoted "id" +:+ ":7}".

(** Two requests wait for their responses. *)
Definition two_requests : list input :=
  live ++ [Api QueryMonitors; Api QueryWorkspaces].

(** Handlers 1 and 2 are registered with [onConnect], 3 with [onError] and
    4 with [onDisconnect], and the client connects. *)
Definition observed : list input :=
  [Api (OnConnect 1); Api (OnConnect 2); Api (OnError 3);
   Api (OnDisconnect 4); Api Connect].

End Scenario.

(** The text [emitEvent] logs with the exception of a handler. *)
Definition handler_error (kind : string) : string :=
  "Error in event handler for " +:+ kind +:+ ":".

(** ** [checkGlazeWMRunning]

    The function runs [tasklist] through [execSync] and looks for the
    process name in what it prints.  The outcome of [execSync] is an input
    here: [Some result] is the text it returned, [None] an exception
    (thrown by it or by the import before it). *)

(** [hay.includes(needle)]. *)
Fixpoint includes (needle hay : string) : bool :=
  String.prefix needle hay
  || match hay with
     | EmptyString => false
     | String _ rest => includes needle rest
     end.

(** The value of the promise, and what is written to the console. *)
Definition checkGlazeWMRunning (execSync : option string) : bool * list effect :=
  match execSync with
  | Some result => (includes "glazewm.exe" result, [])
  | None => (true, [Console "warn" "Could not check if GlazeWM is running:"])
  end.

(** ** The parts that run the decoder or user code *)

Section Client.

(** [JSON.parse]: [None] is a thrown SyntaxError. *)
Variable JSON_parse : string -> option json.

(** The user callbacks. *)
Variable body : hid -> harg -> behaviour.

Definition run_calls (cs : list call) (w : World) : World :=
  fold_left (fun w c => (api c w).1) cs w.

(** [try { handler(a) } catch (error) { console.error(tag, error) }]. *)
Definition invoke (tag : string) (h : hid) (a : harg) (w : World) : World :=
  let w1 := run_calls (calls (body h a)) (out (Invoke h a) w) in
  if throws (body h a) then out (Console "error" tag) w1 else w1.

(** [handlers.forEach(...)] over [connectHandlers], [disconnectHandlers]
    or [errorHandlers].  These arrays only ever grow at the end and
    [forEach] fixes its bound when it starts, so it visits the elements the
    array had at that moment. *)
Definition forEach_observers (tag : string) (hs : list hid) (a : harg)
  (w : World) : World :=
  fold_left (fun w h => invoke tag h a w) hs w.

(** [handlers.forEach(...)] over the array [r] of an event kind, which
    [unsubscribe] may splice while the loop runs: the bound [n] is fixed at
    the start, and at each index [k] the loop reads the array as it is
    then, skipping an index the array no longer has. *)
Fixpoint forEach_live (n k : nat) (r : aref) (tag : string) (a : harg)
  (w : World) : World :=
  match n with
  | O => w
  | S n' =>
      match arrays w !! r ≫= (fun handlers => handlers !! k) with
      | Some h => forEach_live n' (S k) r tag a (invoke tag h a w)
      | None => forEach_live n' (S k) r tag a w
      end
  end.

(** The object [{ type: wmEventType, timestamp: Date.now(), ...data }]. *)
Definition make_event (wmEventType : json) (now : Z) (data : json) : json :=
  JObj (spread [("type", wmEventType); ("timestamp", JNum now)] data).

(** [emitEvent(eventType, data)].  The keys of [eventSubscriptions] are
    strings, so an [eventType] that is not a string finds no array. *)
Definition emitEvent (eventType : json) (data : json) (now : Z) (w : World)
  : World :=
  match eventType with
  | JStr kind =>
      match JsMap.get kind (eventSubscriptions (this w)) with
      | Some r =>
          match arrays w !! r with
          | Some handlers =>
              if (0 <? length handlers)%nat then
                forEach_live (length handlers) 0 r (handler_error kind)
                  (EventArg (make_event eventType now data)) w
              else w
          | None => w
          end
      | None => w
      end
  | _ => w
  end.

(** [handleMessage(data)]: [message.type && message.data] decides. *)
Definition handleMessage (data : string) (now : Z) (w : World) : World :=
  match JSON_parse data with
  | Some JNull => out (Console "error" "Failed to parse message:") w
  | Some message =>
      if truthy (prop "type" message) && truthy (prop "data" message) then
        match prop "type" message, prop "data" message with
        | Some type, Some payload => emitEvent type payload now w
        | _, _ => w
        end
      else out (Console "log" "IPC message:") w
  | None => out (Console "error" "Failed to parse message:") w
  end.

(** [if (this.ws) this.ws.off("message", handleResponse)]. *)
Definition detach (requestId : nat) (w : World) : World :=
  match ws (this w) with
  | Some s => off s (HandleResponse requestId) w
  | None => w
  end.

(** [const pending = this.pendingRequests.get(requestId);
     if (pending) { clearTimeout(pending.timeout);
                    this.pendingRequests.delete(requestId) }]. *)
Definition forget (requestId : nat) (w : World) : World :=
  match JsMap.get requestId (pendingRequests (this w)) with
  | Some pending =>
      let w1 := clearTimeout (timeout pending) w in
      with_this
        (with_pendingRequests
           (JsMap.delete requestId (pendingRequests (this w1))) (this w1)) w1
  | None => w
  end.

(** The message of [new Error(v)]. *)
Definition error_message (v : jsval) : string :=
  match v with Some x => js_to_string x | None => "" end.

(** The [catch] block of [handleResponse]. *)
Definition handleResponse_catch (requestId : nat) (data : string) (w : World)
  : World :=
  let w1 := out (Console "error" "Failed to parse response:") w in
  out (Resolve requestId (Some (JStr data))) (forget requestId (detach requestId w1)).

(** The closure [handleResponse] of the request [requestId].  Reading
    [response.success] of [null] throws inside the [try], after the handler
    was detached and the entry deleted. *)
Definition handleResponse (requestId : nat) (data : string) (w : World) : World :=
  match JSON_parse data with
  | Some response =>
      let w1 := out (Console "log" "Received IPC response:") w in
      let w2 := forget requestId (detach requestId w1) in
      match member "success" (Some response) with
      | Normal success =>
          if truthy success then out (Resolve requestId (prop "data" response)) w2
          else
            out (Reject requestId
                   (error_message
                      (js_or (prop "error" response) (Some (JStr "Command failed")))))
                w2
      | Throw => handleResponse_catch requestId data w2
      end
  | None => handleResponse_catch requestId data w
  end.

(** The callback of the request timer. *)
Definition requestTimeout (requestId : nat) (command : string) (w : World)
  : World :=
  let w1 := detach requestId w in
  let w2 :=
    with_this
      (with_pendingRequests
         (JsMap.delete requestId (pendingRequests (this w1))) (this w1)) w1 in
  out (Reject requestId
         ("Request timeout after " +:+ pretty (opt_timeout (options (this w2)))
          +:+ "ms: " +:+ command)) w2.

(** The listeners [connect] attaches to the socket [s]. *)
Definition socketOpen (s : sock) (w : World) : World :=
  let w1 := out (Console "log" "Connected to GlazeWM IPC") w in
  let w2 := with_this (with_connected true (this w1)) w1 in
  let w3 := forEach_observers "Error in connect handler:"
              (connectHandlers (this w2)) NoArg w2 in
  out (ConnectResolve s) w3.

Definition socketError (s : sock) (message : string) (w : World) : World :=
  let w1 := out (Console "error" "WebSocket error:") w in
  let w2 := forEach_observers "Error in error handler:"
              (errorHandlers (this w1)) (ErrorArg message) w1 in
  out (ConnectReject s ("Failed to connect to GlazeWM IPC: " +:+ message)) w2.

Definition socketClose (s : sock) (w : World) : World :=
  let w1 := out (Console "log" "WebSocket connection closed") w in
  let w2 := with_this (with_connected false (this w1)) w1 in
  let w3 := forEach_observers "Error in disconnect handler:"
              (disconnectHandlers (this w2)) NoArg w2 in
  cleanupPendingRequests w3.

Definition connection_timeout : string :=
  "Connection timeout - Make sure GlazeWM is running and IPC is enabled".

(** The callback of the connection timer of the socket [s]. *)
Definition connectTimeout (s : sock) (w : World) : World :=
  if connected (this w) then w
  else
    let w1 := forEach_observers "Error in error handler:"
                (errorHandlers (this w)) (ErrorArg connection_timeout) w in
    out (ConnectReject s connection_timeout) w1.

(** [emit("message", data)] on a socket: the listeners attached when the
    emission starts are called in order, also those detached meanwhile. *)
Definition socketMessage (listeners : list listener) (data : string) (now : Z)
  (w : World) : World :=
  fold_left
    (fun w l =>
       match l with
       | HandleMessage => handleMessage data now w
       | HandleResponse requestId => handleResponse requestId data w
       end)
    listeners w.

(** [this.connect().catch(...)] of the constructor: what runs when the
    promise of the automatic connection is rejected. *)
Definition autoConnectFailed (message : string) (w : World) : World :=
  out (Console "warn"
         "Auto-connection failed, will connect manually when needed:") w.

(** One delivery.  A notification for a socket that does not exist, or of
    a timer that is not armed, cannot happen and changes nothing.  The
    library sets the state of the socket before it emits "open", "error"
    or "close": open, closing, closed. *)
Definition step (i : input) (w : World) : World :=
  match i with
  | Api c => (api c w).1
  | SocketOpen s =>
      match sockets w !! s with
      | Some _ => socketOpen s (with_readyState (fun _ => OPEN) s w)
      | None => w
      end
  | SocketMessage s data now =>
      match sockets w !! s with
      | Some k => socketMessage (message_listeners k) data now w
      | None => w
      end
  | SocketError s message =>
      match sockets w !! s with
      | Some _ => socketError s message (with_readyState (fun _ => CLOSING) s w)
      | None => w
      end
  | SocketClose s =>
      match sockets w !! s with
      | Some _ => socketClose s (with_readyState (fun _ => CLOSED) s w)
      | None => w
      end
  | RequestTimer handle =>
      match JsMap.get handle (timers w) with
      | Some command => requestTimeout handle command (clearTimeout handle w)
      | None => w
      end
  | ConnectTimer s =>
      if bool_decide (s ∈ connectTimers w) then
        connectTimeout s
          (with_connectTimers (filter (fun t => t ≠ s) (connectTimers w)) w)
      else w
  | AutoConnectFailed message => autoConnectFailed message w
  end.

Definition run (inputs : list input) (w : World) : World :=
  fold_left (fun w i => step i w) inputs w.

(** [subscribeMany(eventTypes, handler)].  The first subscription is made
    inside the call; at each [await] the function is suspended, and it
    makes the next subscription when the run time resumes it.  Other code
    runs while it is suspended: [others] gives, for each [await] in turn,
    the calls that code makes on the client (none once the list is
    exhausted).  The array [eventTypes] is taken not to change meanwhile. *)
Fixpoint subscribeMany (eventTypes : list string) (handler : hid)
  (others : list (list call)) (w : World) : World :=
  match eventTypes with
  | [] => w
  | eventType :: rest =>
      let w1 := subscribe eventType handler w in
      subscribeMany rest handler (tail others) (run_calls (hd [] others) w1)
  end.

(** ** Observations *)

(** The effects performed on the way from [w] to [w']. *)
Definition performed (w w' : World) : list effect :=
  drop (length (log w)) (log w').

(** A user callback being called, or its exception being logged. *)
Definition is_delivery (e : effect) : bool :=
  match e with
  | Invoke _ _ => true
  | Console level _ => String.eqb level "error"
  | _ => false
  end.

(** A callback of the promise of the request [id] being called. *)
Definition settles (id : nat) (e : effect) : bool :=
  match e with
  | Resolve i _ | Reject i _ => Nat.eqb i id
  | _ => false
  end.

Definition is_unsubscribe (c : call) : bool :=
  match c with Unsubscribe _ _ => true | _ => false end.

(** What one guarded call of the handler [h] shows. *)
Definition delivery (tag : string) (a : harg) (h : hid) : list effect :=
  Invoke h a :: (if throws (body h a) then [Console "error" tag] else []).

(** The array the client holds for an event kind. *)
Definition subscribers (kind : string) (w : World) : option (list hid) :=
  JsMap.get kind (eventSubscriptions (this w)) ≫= (fun r => arrays w !! r).

(** Exactly one request is outstanding: [id] is the only entry of the
    table, and the live socket [s] carries the listener of [connect] and
    the response handler of [id]. *)
Definition sole_request (s : sock) (id : nat) (w : World) : Prop :=
  ws (this w) = Some s /\
  (exists k, sockets w !! s = Some k /\
             message_listeners k = [HandleMessage; HandleResponse id]) /\
  pendingRequests (this w)
  = [(id, {| resolve := id; reject := id; timeout := id |})].

(** A decoded object that [handleMessage] takes for an event. *)
Definition is_event (members : list (string * json)) : bool :=
  truthy (obj_get "type" members) && truthy (obj_get "data" members).

(** A frame that [handleMessage] forwards to [emitEvent]. *)
Definition is_event_frame (data : string) : bool :=
  match JSON_parse data with
  | Some (JObj members) => is_event members
  | _ => false
  end.

(** The handler [h] has an entry in the array of [kind]. *)
Definition subscribed (kind : string) (h : hid) (w : World) : Prop :=
  exists handlers, subscribers kind w = Some handlers /\ h ∈ handlers.

(** No handler of the list unsubscribes anything while it handles [a]. *)
Definition no_unsubscribe (a : harg) (handlers : list hid) : Prop :=
  forall h c, h ∈ handlers -> c ∈ calls (body h a) -> is_unsubscribe c = false.

(** An effect that calls no callback of a request. *)
Definition passive (e : effect) : bool :=
  match e with Resolve _ _ | Reject _ _ => false | _ => true end.

(** From [w] to [w'] the options stay, identifiers are only taken, and
    the timer of a request that was already issued in [w] is either still
    armed with the text it had or cleared. *)
Definition timer_frame (id : nat) (w w' : World) : Prop :=
  options (this w') = options (this w) /\
  messageId (this w) <= messageId (this w') /\
  (id < messageId (this w) ->
   forall cmd, JsMap.get id (timers w') = Some cmd ->
               JsMap.get id (timers w) = Some cmd).

(** The request [id] can no longer be called back: no socket carries its
    response handler, its timer is not armed, and no entry of the table
    rejects its promise. *)
Definition retired (id : nat) (w : World) : Prop :=
  (forall s k, sockets w !! s = Some k ->
               HandleResponse id ∉ message_listeners k) /\
  JsMap.get id (timers w) = None /\
  (forall entry, entry ∈ pendingRequests (this w) -> reject entry.2 ≠ id).

(** From [w] to [w'] a request that was retired in [w] stays retired and
    none of its callbacks is called. *)
Definition silent (id : nat) (w w' : World) : Prop :=
  messageId (this w) <= messageId (this w') /\
  (id < messageId (this w) -> retired id w ->
   retired id w' /\
   exists l, log w' = log w ++ l /\ List.filter (settles id) l = []).

(** The table and the timers agree: the keys of the table are distinct
    identifiers already issued, every entry is the one [sendRequest]
    stored under its key, and an armed timer has its entry. *)
Definition table_ok (w : World) : Prop :=
  NoDup (pendingRequests (this w)).*1 /\
  (forall entry, entry ∈ pendingRequests (this w) ->
     entry.2 = {| resolve := entry.1; reject := entry.1; timeout := entry.1 |} /\
     entry.1 < messageId (this w)) /\
  (forall id cmd, JsMap.get id (timers w) = Some cmd ->
                  is_Some (JsMap.get id (pendingRequests (this w)))).

(** Every socket carries each listener once, and response handlers of
    issued requests only. *)
Definition listeners_ok (w : World) : Prop :=
  forall s k, sockets w !! s = Some k ->
    NoDup (message_listeners k) /\
    forall id, HandleResponse id ∈ message_listeners k ->
               id < messageId (this w).

Definition coherent (w : World) : Prop := table_ok w /\ listeners_ok w.

(** What holds between two deliveries: besides [coherent], the response
    handler of a request whose timer is armed sits on the socket the client
    holds, and requests are pending only while the client is connected. *)
Definition consistent (w : World) : Prop :=
  coherent w /\
  (forall s k id, sockets w !! s = Some k ->
     HandleResponse id ∈ message_listeners k ->
     is_Some (JsMap.get id (timers w)) -> ws (this w) = Some s) /\
  (pendingRequests (this w) ≠ [] ->
   connected (this w) = true /\ is_Some (ws (this w))).

(** [w'] differs from [w] only in what the invariants do not read. *)
Definition same_core (w w' : World) : Prop :=
  messageId (this w') = messageId (this w) /\
  pendingRequests (this w') = pendingRequests (this w) /\
  sockets w' = sockets w /\ timers w' = timers w.

(** [P] passes from [w] to [w']. *)
Definition preserves (P : World -> Prop) (w w' : World) : Prop := P w -> P w'.

(** What holds while the "close" listener runs the disconnect handlers,
    between marking the client disconnected and the cleanup. *)
Definition closed (w : World) : Prop :=
  coherent w /\ connected (this w) = false.

(** A request that is in the table has its timer armed; an identifier
    not yet issued has not been called back. *)
Definition tidy (w : World) : Prop :=
  (forall id, is_Some (JsMap.get id (pendingRequests (this w))) ->
     is_Some (JsMap.get id (timers w))) /\
  (forall id, messageId (this w) <= id -> List.filter (settles id) (log w) = []).

(** The request [id], if it is in the table, has not been called back. *)
Definition unsettled (id : nat) (w : World) : Prop :=
  is_Some (JsMap.get id (pendingRequests (this w))) ->
  List.filter (settles id) (log w) = [].

(** From [w] to [w'] identifiers are only taken, and a request already
    issued in [w] that was [unsettled] there is [unsettled] still. *)
Definition undisturbed (id : nat) (w w' : World) : Prop :=
  messageId (this w) <= messageId (this w') /\
  (id < messageId (this w) -> unsettled id w -> unsettled id w').

(** [tidy] next to [coherent], once [m0] identifiers have been issued. *)
Definition tidy_from (m0 : nat) (w : World) : Prop :=
  coherent w /\ tidy w /\ m0 <= messageId (this w).

(** The socket the client holds exists. *)
Definition socket_held (w : World) : Prop :=
  forall s, ws (this w) = Some s -> is_Some (sockets w !! s).

(** The response handler of every request in the table is attached to the
    socket the client holds. *)
Definition attached (w : World) : Prop :=
  forall id, is_Some (JsMap.get id (pendingRequests (this w))) ->
    exists s k, ws (this w) = Some s /\ sockets w !! s = Some k /\
                HandleResponse id ∈ message_listeners k.

(** The call [handleResponse] ends with, for the request [id] and the
    frame [data]: one of the two callbacks of the request. *)
Definition outcome (id : nat) (data : string) : effect :=
  match JSON_parse data with
  | Some response =>
      match member "success" (Some response) with
      | Normal success =>
          if truthy success then Resolve id (prop "data" response)
          else Reject id
                 (error_message
                    (js_or (prop "error" response) (Some (JStr "Command failed"))))
      | Throw => Resolve id (Some (JStr data))
      end
  | None => Resolve id (Some (JStr data))
  end.

(** [consistent], and the response handlers of the pending requests are
    where the next frame of the connection finds them. *)
Definition linked (w : World) : Prop :=
  consistent w /\ socket_held w /\ attached w.

(** A call that removes no subscription. *)
Definition keeps_subscriptions (c : call) : bool :=
  match c with Unsubscribe _ _ | UnsubscribeAll => false | _ => true end.

(** Every array the subscription map refers to is in the heap. *)
Definition arrays_ok (w : World) : Prop :=
  forall kind r, JsMap.get kind (eventSubscriptions (this w)) = Some r ->
                 is_Some (arrays w !! r).

(** * Properties *)

(** ** Maps and objects *)

Lemma get_set_eq {K V} `{EqDecision K} (k : K) (v : V) m :
  JsMap.get k (JsMap.set k v m) = Some v.
Proof.
  induction m as [|[k' v'] m IH]; simpl.
  - by rewrite decide_True.
  - destruct (decide (k' = k)) as [->|Hne]; simpl.
    + by rewrite decide_True.
    + by rewrite decide_False.
Qed.

Lemma get_set_ne {K V} `{EqDecision K} (k k' : K) (v : V) m :
  k ≠ k' -> JsMap.get k' (JsMap.set k v m) = JsMap.get k' m.
Proof.
  intros Hne. induction m as [|[k0 v0] m IH]; simpl.
  - by rewrite decide_False.
  - destruct (decide (k0 = k)) as [->|Hk0]; simpl.
    + by rewrite !decide_False.
    + destruct (decide (k0 = k')); [done | apply IH].
Qed.

Lemma get_delete_eq {K V} `{EqDecision K} (k : K) (m : list (K * V)) :
  JsMap.get k (JsMap.delete k m) = None.
Proof.
  induction m as [|[k' v'] m IH]; simpl; [done|].
  destruct (decide (k' = k)); simpl; [done|].
  by rewrite decide_False.
Qed.

Lemma get_delete_ne {K V} `{EqDecision K} (k k' : K) (m : list (K * V)) :
  k ≠ k' -> JsMap.get k' (JsMap.delete k m) = JsMap.get k' m.
Proof.
  intros Hne. induction m as [|[k0 v0] m IH]; simpl; [done|].
  destruct (decide (k0 = k)) as [->|Hk0]; simpl.
  - by rewrite decide_False.
  - destruct (decide (k0 = k')); [done | apply IH].
Qed.

Lemma get_delete_None {K V} `{EqDecision K} (k k' : K) (m : list (K * V)) :
  JsMap.get k' m = None -> JsMap.get k' (JsMap.delete k m) = None.
Proof.
  intros Hm. destruct (decide (k = k')) as [->|Hne].
  - apply get_delete_eq.
  - by rewrite get_delete_ne.
Qed.

Lemma obj_get_snoc k k0 v0 ms :
  obj_get k (ms ++ [(k0, v0)])
  = if String.eqb k0 k then Some v0 else obj_get k ms.
Proof.
  induction ms as [|[k1 v1] ms IH]; simpl; [done|].
  rewrite IH. by destruct (String.eqb k0 k).
Qed.

Lemma obj_get_replace k k' v ms :
  obj_get k'
    (map (fun kv : string * json =>
            if String.eqb kv.1 k then (kv.1, v) else kv) ms)
  = if String.eqb k k'
    then match obj_get k ms with Some _ => Some v | None => None end
    else obj_get k' ms.
Proof.
  induction ms as [|[k1 v1] ms IH]; simpl.
  - by destruct (String.eqb k k').
  - destruct (String.eqb k1 k) eqn:Hk1; simpl; rewrite IH;
      destruct (String.eqb k k') eqn:Hkk.
    + apply String.eqb_eq in Hkk as <-. rewrite Hk1.
      by destruct (obj_get k ms).
    + apply String.eqb_eq in Hk1 as ->. by rewrite Hkk.
    + apply String.eqb_eq in Hkk as <-. rewrite Hk1.
      by destruct (obj_get k ms).
    + done.
Qed.

Lemma obj_get_set k k' v ms :
  obj_get k' (obj_set k v ms)
  = if String.eqb k k' then Some v else obj_get k' ms.
Proof.
  unfold obj_set. destruct (obj_get k ms) eqn:Hk.
  - by rewrite obj_get_replace, Hk.
  - by rewrite obj_get_snoc.
Qed.

Lemma obj_get_spread k base props :
  obj_get k
    (fold_left (fun o (kv : string * json) => obj_set kv.1 kv.2 o) props base)
  = match obj_get k props with Some v => Some v | None => obj_get k base end.
Proof.
  induction props as [|[k0 v0] props IH] using rev_ind; simpl; [done|].
  rewrite fold_left_app. simpl. rewrite obj_get_set, obj_get_snoc, IH.
  by destruct (String.eqb k0 k).
Qed.

(** ** The effects of the methods *)

Lemma performed_app w w' l : log w' = log w ++ l -> performed w w' = l.
Proof. intros Hl. unfold performed. rewrite Hl. apply drop_app_length. Qed.

Lemma log_out e w : log (out e w) = log w ++ [e].
Proof. done. Qed.

(** The loop of [cleanupPendingRequests]: one rejection per entry, in the
    order of the table, and the timers of the entries are cleared. *)
Lemma cleanup_loop entries w :
  let w1 :=
    fold_left
      (fun w (entry : nat * PendingRequest) =>
         out (Reject (reject entry.2) "Connection closed")
             (clearTimeout (timeout entry.2) w)) entries w in
  this w1 = this w /\ sockets w1 = sockets w /\ arrays w1 = arrays w /\
  connectTimers w1 = connectTimers w /\
  timers w1
  = fold_left (fun t (entry : nat * PendingRequest) =>
                 JsMap.delete (timeout entry.2) t) entries (timers w) /\
  log w1
  = log w ++ map (fun entry : nat * PendingRequest =>
                    Reject (reject entry.2) "Connection closed") entries.
Proof.
  revert w. induction entries as [|e entries IH]; intros w; simpl.
  - by rewrite app_nil_r.
  - destruct (IH (out (Reject (reject e.2) "Connection closed")
                      (clearTimeout (timeout e.2) w)))
      as (-> & -> & -> & -> & -> & ->).
    simpl. by rewrite <- app_assoc.
Qed.

Lemma timers_cleared (entries : list (nat * PendingRequest))
  (t : list (nat * string)) e :
  e ∈ entries ->
  JsMap.get (timeout e.2)
    (fold_left (fun t (entry : nat * PendingRequest) =>
                  JsMap.delete (timeout entry.2) t) entries t) = None.
Proof.
  assert (Hkeep : forall (l : list (nat * PendingRequest))
                    (t : list (nat * string)) k,
             JsMap.get k t = None ->
             JsMap.get k (fold_left (fun t (entry : nat * PendingRequest) =>
                                       JsMap.delete (timeout entry.2) t) l t)
             = None).
  { induction l as [|x l IH]; intros t' k Hk; simpl; [done|].
    apply IH. by apply get_delete_None. }
  revert t. induction entries as [|x entries IH]; intros t He.
  - by apply elem_of_nil in He.
  - apply elem_of_cons in He as [->|He]; simpl.
    + apply Hkeep, get_delete_eq.
    + by apply IH.
Qed.

Lemma disconnect_idle w :
  ws (this w) = None -> pendingRequests (this w) = [] -> disconnect w = w.
Proof.
  intros Hws Hp. unfold disconnect, cleanupPendingRequests.
  rewrite Hws, Hp. simpl.
  destruct w as [c ? ? ? ? ?]. destruct c. simpl in *. by subst.
Qed.

(** C2: [disconnect()] rejects every pending request, each once and with
    "Connection closed", clears their timers and leaves the table empty;
    this holds whatever the connection state is (so also when the client
    is already disconnected), and a second [disconnect()] changes
    nothing. *)
Theorem disconnect_rejects_every_pending_request (w : World) :
  log (disconnect w)
  = log w
    ++ match ws (this w) with Some s => [CloseSocket s] | None => [] end
    ++ map (fun entry : nat * PendingRequest =>
              Reject (reject entry.2) "Connection closed")
           (pendingRequests (this w)) /\
  pendingRequests (this (disconnect w)) = [] /\
  (forall entry, entry ∈ pendingRequests (this w) ->
     JsMap.get (timeout entry.2) (timers (disconnect w)) = None) /\
  ws (this (disconnect w)) = None /\
  disconnect (disconnect w) = disconnect w.
Proof.
  assert (Hshape : exists w1,
             disconnect w = cleanupPendingRequests w1 /\
             pendingRequests (this w1) = pendingRequests (this w) /\
             timers w1 = timers w /\ ws (this w1) = None /\
             log w1 = log w ++ match ws (this w) with
                               | Some s => [CloseSocket s]
                               | None => []
                               end).
  { unfold disconnect. destruct (ws (this w)) as [s|] eqn:Hws.
    - eexists. split; [reflexivity|]. by simpl.
    - exists w. by rewrite app_nil_r. }
  destruct Hshape as (w1 & -> & Hp & Ht & Hws & Hl).
  unfold cleanupPendingRequests.
  destruct (cleanup_loop (pendingRequests (this w1)) w1)
    as (Hthis & _ & _ & _ & Htimers & Hlog).
  repeat split.
  - simpl. by rewrite Hlog, Hl, Hp, <- app_assoc.
  - intros entry He. simpl. rewrite Htimers, Hp. by apply timers_cleared.
  - simpl. by rewrite Hthis.
  - apply disconnect_idle; simpl; [by rewrite Hthis | done].
Qed.

(** C9: a request issued while the connection is not live is refused with
    "Not connected to GlazeWM IPC", and nothing at all changes: no frame is
    sent, no entry is stored, no identifier is consumed. *)
Theorem request_refused_when_not_connected (c : call) (w : World) :
  is_Some (request_command c) ->
  ws (this w) = None \/ connected (this w) = false ->
  api c w = (w, Rejected "Not connected to GlazeWM IPC").
Proof.
  intros [cmd Hc] Hdead.
  assert (Hsend : forall command,
             sendRequest command w = (w, Rejected "Not connected to GlazeWM IPC")).
  { intros command. unfold sendRequest.
    destruct Hdead as [-> | ->]; [done|]. by destruct (ws (this w)). }
  destruct c; simpl in Hc; try discriminate; simpl;
    unfold queryMonitors, queryWorkspaces, queryWindows, queryFocused,
      runCommand; apply Hsend.
Qed.

Lemma sendRequest_registers command w w1 id :
  sendRequest command w = (w1, AwaitsResponse id) ->
  id = messageId (this w) /\
  messageId (this w1) = S id /\
  options (this w1) = options (this w) /\
  JsMap.get id (timers w1) = Some command /\
  JsMap.get id (pendingRequests (this w1))
  = Some {| resolve := id; reject := id; timeout := id |} /\
  log w1 = log w ++ [Console "log" "Sending IPC command:"]
           ++ match ws (this w) with Some s => [Send s command] | None => [] end.
Proof.
  unfold sendRequest. destruct (ws (this w)) as [s|]; [|done].
  destruct (connected (this w)); [|done].
  destruct (send_throws s _); [done|].
  intros [= <- <-]. simpl. split; [done|].
  rewrite !get_set_eq. repeat split. by rewrite <- app_assoc.
Qed.

Lemma api_request c cmd w :
  request_command c = Some cmd -> api c w = sendRequest cmd w.
Proof. destruct c; simpl; intros [= <-]; done. Qed.

(** What [queryMonitors()] hands to its caller when the request is
    resolved: the member [monitors] when it is truthy, else the response. *)
Lemma unwrap_member k members v :
  obj_get k members = Some v ->
  unwrap k (Some (JObj members))
  = Normal (if truthy (Some v) then Some v else Some (JObj members)).
Proof. intros Hk. unfold unwrap, js_or. simpl. by rewrite Hk. Qed.

(** ** Frames *)

Lemma handleMessage_object data now w members :
  JSON_parse data = Some (JObj members) ->
  handleMessage data now w
  = if is_event members then
      match obj_get "type" members, obj_get "data" members with
      | Some type, Some payload => emitEvent type payload now w
      | _, _ => w
      end
    else out (Console "log" "IPC message:") w.
Proof. intros Hp. unfold handleMessage. by rewrite Hp. Qed.

Lemma forget_sole id pending w :
  pendingRequests (this w) = [(id, pending)] ->
  pendingRequests (this (forget id w)) = [] /\
  timers (forget id w) = JsMap.delete (timeout pending) (timers w) /\
  log (forget id w) = log w /\ sockets (forget id w) = sockets w.
Proof.
  intros Hp. unfold forget. rewrite Hp. simpl. rewrite decide_True by done.
  simpl. rewrite Hp. simpl. by rewrite decide_True.
Qed.

Lemma detach_frame id w :
  this (detach id w) = this w /\ log (detach id w) = log w /\
  timers (detach id w) = timers w.
Proof. unfold detach. by destruct (ws (this w)). Qed.

(** The message [handleResponse] rejects with when [success] is not truthy. *)
Lemma failure_message members :
  let message :=
    error_message (js_or (obj_get "error" members) (Some (JStr "Command failed"))) in
  (forall text, obj_get "error" members = Some (JStr text) -> text ≠ "" ->
                message = text) /\
  (obj_get "error" members = None \/ obj_get "error" members = Some (JStr "") ->
   message = "Command failed").
Proof.
  simpl. split.
  - intros text -> Hne. unfold js_or. simpl.
    destruct (String.eqb text "") eqn:He; [|done].
    by apply String.eqb_eq in He.
  - by intros [-> | ->].
Qed.

(** What a frame does when exactly one request is outstanding and the
    frame is not taken for an event: [handleMessage] logs it, then the
    response handler of the request processes it. *)
Lemma sole_request_frame s id data now w :
  sole_request s id w ->
  (forall members, JSON_parse data = Some (JObj members) ->
                   is_event members = false) ->
  (forall x, JSON_parse data = Some x -> exists members, x = JObj members) ->
  exists w1,
    step (SocketMessage s data now) w = handleResponse id data w1 /\
    sole_request s id w1 /\ timers w1 = timers w /\
    log w1 = log w ++ [match JSON_parse data with
                       | Some _ => Console "log" "IPC message:"
                       | None => Console "error" "Failed to parse message:"
                       end].
Proof.
  intros Hsole Hnot Hobj.
  destruct Hsole as (Hws & (k & Hk & Hl) & Hp).
  simpl. rewrite Hk, Hl. simpl.
  destruct (JSON_parse data) as [x|] eqn:Hx.
  - destruct (Hobj x eq_refl) as [members ->].
    rewrite (handleMessage_object _ _ _ _ Hx), (Hnot _ eq_refl).
    eexists. split; [done|]. split; [|done].
    split; [done|]. split; [|done]. exists k. done.
  - unfold handleMessage. rewrite Hx.
    eexists. split; [done|]. split; [|done].
    split; [done|]. split; [|done]. exists k. done.
Qed.

(** C3, as the code has it: a command response whose [success] is [false],
    arriving while exactly one request is outstanding, removes that
    request from the table and rejects it, once, with the response's error
    string when that string is not empty, and with "Command failed" when
    the error member is absent or the empty string. *)
Theorem failed_command_rejects_request s id data now members w :
  sole_request s id w ->
  JSON_parse data = Some (JObj members) ->
  is_event members = false ->
  obj_get "success" members = Some (JBool false) ->
  let w' := step (SocketMessage s data now) w in
  let message :=
    error_message (js_or (obj_get "error" members) (Some (JStr "Command failed"))) in
  log w' = log w ++ [Console "log" "IPC message:";
                     Console "log" "Received IPC response:";
                     Reject id message] /\
  pendingRequests (this w') = [] /\
  JsMap.get id (timers w') = None /\
  (forall text, obj_get "error" members = Some (JStr text) -> text ≠ "" ->
                message = text) /\
  (obj_get "error" members = None \/ obj_get "error" members = Some (JStr "") ->
   message = "Command failed").
Proof.
  intros Hsole Hparse Hcmd Hfail w' message.
  destruct (sole_request_frame s id data now w Hsole) as (w1 & Hstep & Hs1 & _ & Hl1).
  { intros m Hm. rewrite Hparse in Hm. by injection Hm as <-. }
  { intros x Hx. rewrite Hparse in Hx. injection Hx as <-. by eexists. }
  rewrite Hparse in Hl1.
  assert (Hw' : w' = out (Reject id message)
                       (forget id (detach id
                          (out (Console "log" "Received IPC response:") w1)))).
  { unfold w'. rewrite Hstep. unfold handleResponse. rewrite Hparse. simpl.
    by rewrite Hfail. }
  destruct Hs1 as (_ & _ & Hp1).
  set (w2 := detach id (out (Console "log" "Received IPC response:") w1)) in *.
  destruct (detach_frame id (out (Console "log" "Received IPC response:") w1))
    as (Hthis & Hlog & Htm). fold w2 in Hthis, Hlog, Htm.
  destruct (forget_sole id _ w2 ltac:(by rewrite Hthis))
    as (Hempty & Htm2 & Hlog2 & _).
  split; [|split; [|split; [|apply failure_message]]].
  - rewrite Hw'. simpl. rewrite Hlog2, Hlog. simpl. rewrite Hl1.
    by rewrite <- !app_assoc.
  - by rewrite Hw'.
  - rewrite Hw'. simpl. rewrite Htm2. apply get_delete_eq.
Qed.

(** C4, as the code has it: a frame that is not JSON, arriving while
    exactly one request is outstanding, removes that request from the
    table, clears its timer and resolves it, once, with the raw text of the
    frame; no rejection is made. *)
Theorem undecodable_frame_resolves_request s id data now w :
  sole_request s id w ->
  JSON_parse data = None ->
  let w' := step (SocketMessage s data now) w in
  log w' = log w ++ [Console "error" "Failed to parse message:";
                     Console "error" "Failed to parse response:";
                     Resolve id (Some (JStr data))] /\
  pendingRequests (this w') = [] /\
  JsMap.get id (timers w') = None.
Proof.
  intros Hsole Hparse w'.
  destruct (sole_request_frame s id data now w Hsole) as (w1 & Hstep & Hs1 & _ & Hl1).
  { intros m Hm. by rewrite Hparse in Hm. }
  { intros x Hx. by rewrite Hparse in Hx. }
  rewrite Hparse in Hl1.
  assert (Hw' : w' = out (Resolve id (Some (JStr data)))
                       (forget id (detach id
                          (out (Console "error" "Failed to parse response:") w1)))).
  { unfold w'. rewrite Hstep. unfold handleResponse. by rewrite Hparse. }
  destruct Hs1 as (_ & _ & Hp1).
  set (w2 := detach id (out (Console "error" "Failed to parse response:") w1)) in *.
  destruct (detach_frame id (out (Console "error" "Failed to parse response:") w1))
    as (Hthis & Hlog & Htm). fold w2 in Hthis, Hlog, Htm.
  destruct (forget_sole id _ w2 ltac:(by rewrite Hthis))
    as (Hempty & Htm2 & Hlog2 & _).
  split; [|split].
  - rewrite Hw'. simpl. rewrite Hlog2, Hlog. simpl. rewrite Hl1.
    by rewrite <- !app_assoc.
  - by rewrite Hw'.
  - rewrite Hw'. simpl. rewrite Htm2. apply get_delete_eq.
Qed.

(** C5, as the code has it: a decoded object is forwarded to the event
    dispatcher exactly when its [type] and its [data] are both truthy;
    otherwise, and in particular when either member is absent, it is
    logged as a response and no subscriber is called. *)
Theorem event_classification data now members w :
  JSON_parse data = Some (JObj members) ->
  (is_event members = true <->
   exists type payload,
     obj_get "type" members = Some type /\ truthy (Some type) = true /\
     obj_get "data" members = Some payload /\ truthy (Some payload) = true) /\
  (forall type payload,
     is_event members = true ->
     obj_get "type" members = Some type ->
     obj_get "data" members = Some payload ->
     handleMessage data now w = emitEvent type payload now w) /\
  (is_event members = false ->
   handleMessage data now w = out (Console "log" "IPC message:") w) /\
  (obj_get "type" members = None \/ obj_get "data" members = None ->
   is_event members = false).
Proof.
  intros Hparse. rewrite (handleMessage_object _ _ _ _ Hparse).
  unfold is_event. repeat split.
  - intros [Ht Hd]%andb_true_iff.
    destruct (obj_get "type" members) as [type|]; [|done].
    destruct (obj_get "data" members) as [payload|]; [|done].
    by exists type, payload.
  - intros (type & payload & -> & Ht & -> & Hd). by rewrite Ht, Hd.
  - intros type payload He Ht Hd. by rewrite He, Ht, Hd.
  - by intros ->.
  - intros [-> | ->]; [done|]. apply andb_false_r.
Qed.

(** ** Calls made by user callbacks *)

Lemma filter_rejects (f : effect -> bool) (entries : list (nat * PendingRequest)) :
  (forall id m, f (Reject id m) = false) ->
  List.filter f (map (fun entry : nat * PendingRequest =>
                        Reject (reject entry.2) "Connection closed") entries) = [].
Proof.
  intros Hf. induction entries as [|e entries IH]; simpl; [done|].
  by rewrite Hf.
Qed.

Lemma rejects_of_others id (entries : list (nat * PendingRequest)) :
  (forall entry, entry ∈ entries -> reject entry.2 ≠ id) ->
  List.filter (settles id)
    (map (fun entry : nat * PendingRequest =>
            Reject (reject entry.2) "Connection closed") entries) = [].
Proof.
  induction entries as [|e es IH]; simpl; intros Hent; [done|].
  assert (Hne : reject e.2 ≠ id) by (apply Hent; left).
  apply Nat.eqb_neq in Hne. rewrite Hne. apply IH.
  intros entry Hin. apply Hent. by right.
Qed.

Lemma disconnect_log w :
  log (disconnect w)
  = log w
    ++ match ws (this w) with Some s => [CloseSocket s] | None => [] end
    ++ map (fun entry : nat * PendingRequest =>
              Reject (reject entry.2) "Connection closed")
           (pendingRequests (this w)).
Proof.
  unfold disconnect, cleanupPendingRequests.
  destruct (ws (this w)) as [s|]; simpl.
  - match goal with |- log (fold_left _ ?es ?w0) = _ =>
      destruct (cleanup_loop es w0) as (_ & _ & _ & _ & _ & ->) end.
    simpl. by rewrite <- app_assoc.
  - match goal with |- log (fold_left _ ?es ?w0) = _ =>
      destruct (cleanup_loop es w0) as (_ & _ & _ & _ & _ & ->) end.
    done.
Qed.

Lemma disconnect_arrays w : arrays (disconnect w) = arrays w.
Proof.
  unfold disconnect, cleanupPendingRequests.
  destruct (ws (this w)) as [s|]; simpl;
    match goal with |- arrays (fold_left _ ?es ?w0) = _ =>
      destruct (cleanup_loop es w0) as (_ & _ & -> & _) end; done.
Qed.

(** A call of the API never calls a user callback and logs no error. *)
Lemma api_log c w :
  exists l, log (api c w).1 = log w ++ l /\ List.filter is_delivery l = [].
Proof.
  assert (Hsend : forall command,
             exists l, log (sendRequest command w).1 = log w ++ l /\
                       List.filter is_delivery l = []).
  { intros command. unfold sendRequest.
    destruct (ws (this w)) as [s|];
      [destruct (connected (this w)); [destruct (send_throws s _)|]|]; simpl.
    - exists [Console "log" "Sending IPC command:";
              Reject (messageId (this w)) not_open].
      by rewrite <- app_assoc.
    - exists [Console "log" "Sending IPC command:"; Send s command].
      by rewrite <- app_assoc.
    - exists []. by rewrite app_nil_r.
    - exists []. by rewrite app_nil_r. }
  destruct c; cbn [api fst];
    try (exists []; by rewrite app_nil_r); try apply Hsend.
  - unfold connect.
    destruct (connected (this w) && bool_decide (is_Some (ws (this w)))); simpl.
    + exists []. by rewrite app_nil_r.
    + destruct (valid_port _); by eexists.
  - rewrite disconnect_log. eexists. split; [done|].
    rewrite List.filter_app, filter_rejects by done.
    by destruct (ws (this w)).
  - unfold subscribe.
    destruct (JsMap.has eventType (eventSubscriptions (this w))); simpl;
      match goal with |- context [JsMap.get ?k ?m] =>
        destruct (JsMap.get k m) end; exists []; by rewrite app_nil_r.
  - unfold unsubscribe.
    destruct (JsMap.get eventType (eventSubscriptions (this w))) as [r|];
      [destruct (arrays w !! r) as [hs|];
       [destruct (indexOf handler hs)|]|]; exists []; by rewrite app_nil_r.
Qed.

(** A call other than [unsubscribe] leaves every existing handler array
    with the elements it has, possibly followed by new ones. *)
Lemma api_arrays c w r (hs l1 : list nat) :
  is_unsubscribe c = false ->
  arrays w !! r = Some l1 -> hs `prefix_of` l1 ->
  exists l2, arrays (api c w).1 !! r = Some l2 /\ hs `prefix_of` l2.
Proof.
  intros Hc Hr Hpre.
  assert (Hsend : forall command, arrays (sendRequest command w).1 = arrays w).
  { intros command. unfold sendRequest.
    destruct (ws (this w));
      [destruct (connected (this w)); [destruct (send_throws _ _)|]|]; done. }
  destruct c; cbn [api fst is_unsubscribe] in *; try discriminate;
    unfold queryMonitors, queryWorkspaces, queryWindows, queryFocused,
      runCommand;
    rewrite ?Hsend, ?disconnect_arrays; try (exists l1; done).
  - unfold connect.
    destruct (connected (this w) && bool_decide (is_Some (ws (this w))));
      [|destruct (valid_port _)]; exists l1; done.
  - unfold subscribe.
    set (w1 := if JsMap.has eventType (eventSubscriptions (this w)) then w else _).
    assert (Hr1 : arrays w1 !! r = Some l1).
    { unfold w1. destruct (JsMap.has _ _); [done|]. simpl.
      by apply lookup_app_l_Some. }
    destruct (JsMap.get eventType (eventSubscriptions (this w1))) as [r0|];
      [|exists l1; done].
    simpl. rewrite list_lookup_alter.
    destruct (decide (r0 = r)) as [->|]; [|exists l1; done].
    rewrite Hr1. simpl. eexists. split; [done|]. by apply prefix_app_r.
Qed.

Lemma run_calls_log cs w :
  exists l, log (run_calls cs w) = log w ++ l /\ List.filter is_delivery l = [].
Proof.
  revert w. induction cs as [|c cs IH]; intros w; simpl.
  - exists []. by rewrite app_nil_r.
  - destruct (api_log c w) as (l1 & Hl1 & Hf1).
    destruct (IH (api c w).1) as (l2 & Hl2 & Hf2).
    exists (l1 ++ l2). unfold run_calls in *. rewrite Hl2, Hl1, <- app_assoc.
    split; [done|]. by rewrite List.filter_app, Hf1, Hf2.
Qed.

Lemma run_calls_arrays cs w r (hs l1 : list nat) :
  (forall c, c ∈ cs -> is_unsubscribe c = false) ->
  arrays w !! r = Some l1 -> hs `prefix_of` l1 ->
  exists l2, arrays (run_calls cs w) !! r = Some l2 /\ hs `prefix_of` l2.
Proof.
  revert w l1. induction cs as [|c cs IH]; intros w l1 Hcs Hr Hpre; simpl.
  - by exists l1.
  - destruct (api_arrays c w r hs l1) as (l2 & Hr2 & Hpre2); [|done..|].
    { apply Hcs. left. }
    apply (IH _ l2); [|done..]. intros c' Hc'. apply Hcs. by right.
Qed.

(** One guarded call: the handler is called, the calls it makes show no
    delivery, and its exception, if any, is logged. *)
Lemma invoke_log tag h a w :
  exists l, log (invoke tag h a w) = log w ++ l /\
            List.filter is_delivery l = delivery tag a h.
Proof.
  unfold invoke, delivery.
  destruct (run_calls_log (calls (body h a)) (out (Invoke h a) w))
    as (l & Hl & Hf).
  destruct (throws (body h a)); simpl; rewrite Hl; simpl.
  - exists ([Invoke h a] ++ l ++ [Console "error" tag]).
    rewrite <- !app_assoc. split; [done|].
    simpl. by rewrite List.filter_app, Hf.
  - exists ([Invoke h a] ++ l).
    rewrite <- !app_assoc. split; [done|]. simpl. by rewrite Hf.
Qed.

Lemma invoke_arrays tag h a w r (hs l1 : list nat) :
  (forall c, c ∈ calls (body h a) -> is_unsubscribe c = false) ->
  arrays w !! r = Some l1 -> hs `prefix_of` l1 ->
  exists l2, arrays (invoke tag h a w) !! r = Some l2 /\ hs `prefix_of` l2.
Proof.
  intros Hc Hr Hpre. unfold invoke.
  destruct (run_calls_arrays (calls (body h a)) (out (Invoke h a) w) r hs l1)
    as (l2 & Hr2 & Hpre2); [done..|].
  exists l2. by destruct (throws (body h a)).
Qed.

(** Whatever the handlers do, every call [forEach] makes passes the same
    object. *)
Lemma forEach_live_args tag a r n k w :
  exists l, log (forEach_live n k r tag a w) = log w ++ l /\
            forall h a', Invoke h a' ∈ l -> a' = a.
Proof.
  revert k w. induction n as [|n IH]; intros k w; simpl.
  - exists []. rewrite app_nil_r. split; [done|].
    intros h a' Hin. by apply elem_of_nil in Hin.
  - destruct (arrays w !! r ≫= _) as [h|]; [|apply IH].
    destruct (invoke_log tag h a w) as (l1 & Hl1 & Hf1).
    destruct (IH (S k) (invoke tag h a w)) as (l2 & Hl2 & Hargs).
    exists (l1 ++ l2). rewrite Hl2, Hl1, <- app_assoc. split; [done|].
    intros h' a' [Hin|Hin]%elem_of_app; [|by eapply Hargs].
    assert (Hd : Invoke h' a' ∈ List.filter is_delivery l1).
    { apply list_elem_of_In, List.filter_In. split; [|done].
      by apply list_elem_of_In. }
    rewrite Hf1 in Hd. unfold delivery in Hd.
    apply elem_of_cons in Hd as [[= _ ->]|Hd]; [done|].
    destruct (throws (body h a)).
    + apply elem_of_cons in Hd as [[=]|Hd]. by apply elem_of_nil in Hd.
    + by apply elem_of_nil in Hd.
Qed.

(** When no handler unsubscribes, [forEach] goes through the array as it
    was when the loop started. *)
Lemma forEach_live_delivers tag a r (hs : list nat) :
  no_unsubscribe a hs ->
  forall n k w (l1 : list nat),
    n + k = length hs ->
    arrays w !! r = Some l1 -> hs `prefix_of` l1 ->
    exists l, log (forEach_live n k r tag a w) = log w ++ l /\
              List.filter is_delivery l = flat_map (delivery tag a) (drop k hs).
Proof.
  intros Hquiet. induction n as [|n IH]; intros k w l1 Hlen Hr Hpre; simpl.
  - exists []. rewrite app_nil_r. split; [done|].
    rewrite drop_ge by lia. done.
  - destruct (lookup_lt_is_Some_2 hs k) as [h Hh]; [lia|].
    assert (Hl1 : l1 !! k = Some h) by (by eapply prefix_lookup_Some).
    rewrite Hr. simpl. rewrite Hl1.
    destruct (invoke_log tag h a w) as (la & Hla & Hfa).
    destruct (invoke_arrays tag h a w r hs l1) as (l2 & Hr2 & Hpre2); [|done..|].
    { intros c Hc. eapply Hquiet; [|done]. by eapply list_elem_of_lookup_2. }
    destruct (IH (S k) (invoke tag h a w) l2) as (lb & Hlb & Hfb);
      [lia|done..|].
    exists (la ++ lb). rewrite Hlb, Hla, <- app_assoc. split; [done|].
    rewrite List.filter_app, Hfa, Hfb. by rewrite (drop_S _ _ _ Hh).
Qed.

Lemma emitEvent_subscribers kind data now w :
  emitEvent (JStr kind) data now w
  = match subscribers kind w, JsMap.get kind (eventSubscriptions (this w)) with
    | Some handlers, Some r =>
        forEach_live (length handlers) 0 r (handler_error kind)
          (EventArg (make_event (JStr kind) now data)) w
    | _, _ => w
    end.
Proof.
  unfold emitEvent, subscribers.
  destruct (JsMap.get kind (eventSubscriptions (this w))) as [r|]; simpl; [|done].
  destruct (arrays w !! r) as [hs|]; [|done].
  by destruct hs.
Qed.

(** The deliveries of one dispatch, when no handler of the kind
    unsubscribes while it runs: one guarded call per entry of the array,
    in the order of the array. *)
Lemma dispatch_deliveries kind data now w handlers :
  subscribers kind w = Some handlers ->
  no_unsubscribe (EventArg (make_event (JStr kind) now data)) handlers ->
  List.filter is_delivery (performed w (emitEvent (JStr kind) data now w))
  = flat_map (delivery (handler_error kind)
                (EventArg (make_event (JStr kind) now data))) handlers.
Proof.
  intros Hs Hquiet. rewrite emitEvent_subscribers, Hs.
  unfold subscribers in Hs.
  destruct (JsMap.get kind (eventSubscriptions (this w))) as [r|]; [|done].
  simpl in Hs.
  destruct (forEach_live_delivers (handler_error kind)
              (EventArg (make_event (JStr kind) now data)) r handlers Hquiet
              (length handlers) 0 w handlers) as (l & Hl & Hf); [lia|done..|].
  by rewrite (performed_app _ _ _ Hl).
Qed.


(** What the dispatch does when it is left alone: when no handler of the
    kind calls [unsubscribe] while the dispatch runs, every handler
    subscribed for the kind is called exactly once per entry, in
    registration order, with the event; a handler that throws has its
    exception logged, and the handlers after it are called all the same. *)
Theorem dispatch_calls_every_handler kind data now w handlers :
  subscribers kind w = Some handlers ->
  no_unsubscribe (EventArg (make_event (JStr kind) now data)) handlers ->
  List.filter is_delivery (performed w (emitEvent (JStr kind) data now w))
  = flat_map
      (fun h =>
         Invoke h (EventArg (make_event (JStr kind) now data))
         :: (if throws (body h (EventArg (make_event (JStr kind) now data)))
             then [Console "error" (handler_error kind)] else []))
      handlers.
Proof. apply dispatch_deliveries. Qed.

(** ** Subscriptions *)








(** C10: every call a dispatch makes passes the object
    [{ type, timestamp, ...data }]; a member of the payload is a member of
    that object with the same value, so a [type] or a [timestamp] of the
    payload replaces the kind tag or the time of capture, which remain
    only when the payload has no such member. *)
Theorem payload_members_override_event_members kind now members w h a :
  Invoke h a ∈ performed w (emitEvent kind (JObj members) now w) ->
  a = EventArg (make_event kind now (JObj members)) /\
  (forall k v, obj_get k members = Some v ->
               prop k (make_event kind now (JObj members)) = Some v) /\
  prop "type" (make_event kind now (JObj members))
  = Some (default kind (obj_get "type" members)) /\
  prop "timestamp" (make_event kind now (JObj members))
  = Some (default (JNum now) (obj_get "timestamp" members)).
Proof.
  intros Hin. split; [|repeat split].
  - unfold emitEvent in Hin.
    assert (Hw : Invoke h a ∈ performed w w -> False).
    { unfold performed. rewrite drop_all. apply not_elem_of_nil. }
    destruct kind as [| | |kind| |]; try (by destruct (Hw Hin)).
    destruct (JsMap.get kind _) as [r|]; [|by destruct (Hw Hin)].
    destruct (arrays w !! r) as [hs|]; [|by destruct (Hw Hin)].
    destruct (0 <? length hs)%nat; [|by destruct (Hw Hin)].
    destruct (forEach_live_args (handler_error kind)
                (EventArg (make_event (JStr kind) now (JObj members)))
                r (length hs) 0 w) as (l & Hl & Hargs).
    rewrite (performed_app _ _ _ Hl) in Hin. by apply Hargs in Hin.
  - intros k v Hk. unfold make_event, spread. simpl.
    by rewrite obj_get_spread, Hk.
  - unfold make_event, spread. simpl. rewrite obj_get_spread.
    by destruct (obj_get "type" members).
  - unfold make_event, spread. simpl. rewrite obj_get_spread.
    by destruct (obj_get "timestamp" members).
Qed.

(** ** From the methods to the runs

    A relation between worlds that is reflexive and transitive and holds
    across each primitive of the client holds across every delivery, also
    through the calls user callbacks make.  [allowed] restricts the
    response handlers that may run. *)

Section Lifting.

Variable R : World -> World -> Prop.
Variable allowed : nat -> Prop.

Hypothesis R_refl : forall w, R w w.
Hypothesis R_trans : forall w1 w2 w3, R w1 w2 -> R w2 w3 -> R w1 w3.
Hypothesis R_out : forall e w, passive e = true -> R w (out e w).
Hypothesis R_connected :
  forall b w, R w (with_this (with_connected b (this w)) w).
Hypothesis R_connectTimers : forall v w, R w (with_connectTimers v w).
Hypothesis R_readyState : forall g s w, R w (with_readyState g s w).
Hypothesis R_api : forall c w, R w (api c w).1.
Hypothesis R_cleanup : forall w, R w (cleanupPendingRequests w).
Hypothesis R_response :
  forall id data w, allowed id -> R w (handleResponse id data w).
Hypothesis R_timer :
  forall id cmd w,
    JsMap.get id (timers w) = Some cmd ->
    R w (requestTimeout id cmd (clearTimeout id w)).

Lemma lift_run_calls cs w : R w (run_calls cs w).
Proof.
  revert w. induction cs as [|c cs IH]; intros w; simpl; [done|].
  eapply R_trans; [apply R_api | apply IH].
Qed.

Lemma lift_invoke tag h a w : R w (invoke tag h a w).
Proof.
  unfold invoke.
  assert (H1 : R w (run_calls (calls (body h a)) (out (Invoke h a) w))).
  { eapply R_trans; [|apply lift_run_calls]. by apply R_out. }
  destruct (throws (body h a)); [|done].
  eapply R_trans; [exact H1 | by apply R_out].
Qed.

Lemma lift_forEach_observers tag hs a w : R w (forEach_observers tag hs a w).
Proof.
  revert w. induction hs as [|h hs IH]; intros w; simpl; [done|].
  eapply R_trans; [apply lift_invoke | apply IH].
Qed.

Lemma lift_forEach_live n k r tag a w : R w (forEach_live n k r tag a w).
Proof.
  revert k w. induction n as [|n IH]; intros k w; simpl; [done|].
  destruct (arrays w !! r ≫= _) as [h|]; [|apply IH].
  eapply R_trans; [apply lift_invoke | apply IH].
Qed.

Lemma lift_emitEvent type data now w : R w (emitEvent type data now w).
Proof.
  unfold emitEvent. destruct type; try done.
  destruct (JsMap.get s _) as [r|]; [|done].
  destruct (arrays w !! r) as [hs|]; [|done].
  destruct (0 <? length hs)%nat; [|done]. apply lift_forEach_live.
Qed.

Lemma lift_handleMessage data now w : R w (handleMessage data now w).
Proof.
  unfold handleMessage.
  destruct (JSON_parse data) as [message|]; [|by apply R_out].
  assert (He : R w (if truthy (prop "type" message) && truthy (prop "data" message)
                    then match prop "type" message, prop "data" message with
                         | Some type, Some payload => emitEvent type payload now w
                         | _, _ => w
                         end
                    else out (Console "log" "IPC message:") w)).
  { destruct (truthy _ && truthy _); [|by apply R_out].
    destruct (prop "type" message); [|done].
    destruct (prop "data" message); [|done]. apply lift_emitEvent. }
  destruct message; try done. by apply R_out.
Qed.

Lemma lift_socketMessage listeners data now w :
  (forall id, HandleResponse id ∈ listeners -> allowed id) ->
  R w (socketMessage listeners data now w).
Proof.
  revert w. induction listeners as [|l listeners IH]; intros w Hall; simpl; [done|].
  eapply R_trans; [|apply IH; intros id Hid; apply Hall; by right].
  destruct l as [|id]; [apply lift_handleMessage|].
  apply R_response, Hall. left.
Qed.

Lemma lift_step i w :
  (forall s data now k id,
     i = SocketMessage s data now -> sockets w !! s = Some k ->
     HandleResponse id ∈ message_listeners k -> allowed id) ->
  R w (step i w).
Proof.
  intros Hall.
  destruct i as [c|s|s data now|s message|s|handle|s|message]; simpl.
  - apply R_api.
  - destruct (sockets w !! s); [|done].
    eapply R_trans; [apply (R_readyState (fun _ => OPEN) s)|].
    unfold socketOpen.
    eapply R_trans; [|by apply R_out].
    eapply R_trans; [|apply lift_forEach_observers].
    eapply R_trans; [|apply R_connected]. by apply R_out.
  - destruct (sockets w !! s) as [k|] eqn:Hk; [|done].
    apply lift_socketMessage. intros id Hid. by eapply Hall.
  - destruct (sockets w !! s); [|done].
    eapply R_trans; [apply (R_readyState (fun _ => CLOSING) s)|].
    unfold socketError.
    eapply R_trans; [|by apply R_out].
    eapply R_trans; [|apply lift_forEach_observers]. by apply R_out.
  - destruct (sockets w !! s); [|done].
    eapply R_trans; [apply (R_readyState (fun _ => CLOSED) s)|].
    unfold socketClose.
    eapply R_trans; [|apply R_cleanup].
    eapply R_trans; [|apply lift_forEach_observers].
    eapply R_trans; [|apply R_connected]. by apply R_out.
  - destruct (JsMap.get handle (timers w)) as [cmd|] eqn:Ht; [|done].
    by eapply R_timer.
  - destruct (bool_decide _); [|done]. unfold connectTimeout. simpl.
    eapply R_trans; [apply R_connectTimers|].
    destruct (connected (this w)); [done|].
    eapply R_trans; [apply lift_forEach_observers | by apply R_out].
  - by apply R_out.
Qed.

End Lifting.

(** ** The timer of a request *)

Lemma get_delete_Some {K V} `{EqDecision K} (k k' : K) (m : list (K * V)) v :
  JsMap.get k' (JsMap.delete k m) = Some v -> JsMap.get k' m = Some v.
Proof.
  destruct (decide (k = k')) as [->|Hne].
  - by rewrite get_delete_eq.
  - by rewrite get_delete_ne.
Qed.

Lemma cleanup_timers w id cmd :
  JsMap.get id (timers (cleanupPendingRequests w)) = Some cmd ->
  JsMap.get id (timers w) = Some cmd.
Proof.
  unfold cleanupPendingRequests. simpl.
  destruct (cleanup_loop (pendingRequests (this w)) w)
    as (_ & _ & _ & _ & -> & _).
  generalize (timers w) as t.
  induction (pendingRequests (this w)) as [|e es IH]; intros t; simpl; [done|].
  intros Hg. eapply get_delete_Some, IH, Hg.
Qed.

Lemma cleanup_this w :
  options (this (cleanupPendingRequests w)) = options (this w) /\
  messageId (this (cleanupPendingRequests w)) = messageId (this w) /\
  ws (this (cleanupPendingRequests w)) = ws (this w) /\
  connected (this (cleanupPendingRequests w)) = connected (this w) /\
  sockets (cleanupPendingRequests w) = sockets w.
Proof.
  unfold cleanupPendingRequests. simpl.
  destruct (cleanup_loop (pendingRequests (this w)) w)
    as (-> & -> & _). done.
Qed.

Lemma timer_frame_refl id w : timer_frame id w w.
Proof. by repeat split. Qed.

Lemma timer_frame_trans id w1 w2 w3 :
  timer_frame id w1 w2 -> timer_frame id w2 w3 -> timer_frame id w1 w3.
Proof.
  intros (Ho1 & Hm1 & Ht1) (Ho2 & Hm2 & Ht2). split; [congruence|].
  split; [lia|]. intros Hid cmd Hc. apply Ht1; [done|]. apply Ht2; [lia|done].
Qed.

Lemma timer_frame_cleanup id w : timer_frame id w (cleanupPendingRequests w).
Proof.
  destruct (cleanup_this w) as (Ho & Hm & _).
  split; [done|]. split; [lia|]. intros _ cmd. apply cleanup_timers.
Qed.

Lemma timer_frame_api id c w : timer_frame id w (api c w).1.
Proof.
  assert (Hsend : forall command, timer_frame id w (sendRequest command w).1).
  { intros command. unfold sendRequest.
    destruct (ws (this w)) as [s|];
      [destruct (connected (this w)); [destruct (send_throws s _)|]|];
      try apply timer_frame_refl;
      (simpl; split; [done|]; split; [simpl; lia|];
       simpl; intros Hid cmd; rewrite get_set_ne by lia; done). }
  destruct c; cbn [api fst]; try apply Hsend; try (by repeat split).
  - unfold connect.
    destruct (connected (this w) && bool_decide (is_Some (ws (this w))));
      [|destruct (valid_port _)]; by repeat split.
  - unfold disconnect.
    eapply timer_frame_trans; [|apply timer_frame_cleanup].
    destruct (ws (this w)); by repeat split.
  - unfold subscribe.
    destruct (JsMap.has eventType (eventSubscriptions (this w))); simpl;
      match goal with |- context [JsMap.get ?k ?m] =>
        destruct (JsMap.get k m) end; by repeat split.
  - unfold unsubscribe.
    destruct (JsMap.get eventType (eventSubscriptions (this w))) as [r|];
      [destruct (arrays w !! r) as [hs|];
       [destruct (indexOf handler hs)|]|]; by repeat split.
Qed.

Lemma timer_frame_detach id id' w : timer_frame id w (detach id' w).
Proof. unfold detach. destruct (ws (this w)); by repeat split. Qed.

Lemma timer_frame_forget id id' w : timer_frame id w (forget id' w).
Proof.
  unfold forget. destruct (JsMap.get id' (pendingRequests (this w))) as [p|];
    [|apply timer_frame_refl].
  split; [done|]. split; [done|]. simpl. intros _ cmd. apply get_delete_Some.
Qed.

Lemma timer_frame_out id e w : timer_frame id w (out e w).
Proof. by repeat split. Qed.

Lemma timer_frame_response id id' data w :
  timer_frame id w (handleResponse id' data w).
Proof.
  assert (Hcatch : forall w0, timer_frame id w0 (handleResponse_catch id' data w0)).
  { intros w0. unfold handleResponse_catch.
    eapply timer_frame_trans; [|apply timer_frame_out].
    eapply timer_frame_trans; [|apply timer_frame_forget].
    eapply timer_frame_trans; [|apply timer_frame_detach].
    apply timer_frame_out. }
  unfold handleResponse. destruct (JSON_parse data) as [response|]; [|apply Hcatch].
  assert (H2 : timer_frame id w
                 (forget id' (detach id'
                    (out (Console "log" "Received IPC response:") w)))).
  { eapply timer_frame_trans; [|apply timer_frame_forget].
    eapply timer_frame_trans; [|apply timer_frame_detach].
    apply timer_frame_out. }
  destruct (member "success" (Some response)) as [success|].
  - destruct (truthy success);
      (eapply timer_frame_trans; [exact H2 | apply timer_frame_out]).
  - eapply timer_frame_trans; [exact H2 | apply Hcatch].
Qed.

Lemma timer_frame_timer id id' cmd w :
  timer_frame id w (requestTimeout id' cmd (clearTimeout id' w)).
Proof.
  unfold requestTimeout.
  eapply timer_frame_trans; [|apply timer_frame_out].
  assert (H1 : timer_frame id w (detach id' (clearTimeout id' w))).
  { eapply timer_frame_trans; [|apply timer_frame_detach].
    split; [done|]. split; [done|]. simpl. intros _ c. apply get_delete_Some. }
  eapply timer_frame_trans; [exact H1|]. by repeat split.
Qed.

Lemma timer_frame_step id i w : timer_frame id w (step i w).
Proof.
  apply (lift_step (timer_frame id) (fun _ => True)).
  - apply timer_frame_refl.
  - apply timer_frame_trans.
  - intros e w0 _. apply timer_frame_out.
  - by repeat split.
  - by repeat split.
  - by repeat split.
  - apply timer_frame_api.
  - apply timer_frame_cleanup.
  - intros id' data w0 _. apply timer_frame_response.
  - intros id' cmd w0 _. apply timer_frame_timer.
  - done.
Qed.

Lemma timer_frame_run id inputs w : timer_frame id w (run inputs w).
Proof.
  revert w. induction inputs as [|i inputs IH]; intros w; simpl.
  - apply timer_frame_refl.
  - eapply timer_frame_trans; [apply timer_frame_step | apply IH].
Qed.

(** C8: a request arms a timer that remembers its command text.  Whatever
    is delivered afterwards, when that timer is still armed and fires, the
    entry of the request is removed from the table and the request is
    rejected with "Request timeout after <timeout>ms: <command>". *)
Theorem request_timer_rejects_with_command c cmd w w1 id inputs :
  request_command c = Some cmd ->
  api c w = (w1, AwaitsResponse id) ->
  is_Some (JsMap.get id (timers (run inputs w1))) ->
  let w2 := run inputs w1 in
  let w' := step (RequestTimer id) w2 in
  JsMap.get id (pendingRequests (this w')) = None /\
  JsMap.get id (timers w') = None /\
  log w'
  = log w2 ++ [Reject id ("Request timeout after "
                          +:+ pretty (opt_timeout (options (this w)))
                          +:+ "ms: " +:+ cmd)].
Proof.
  intros Hc Hapi [cmd' Harmed] w2 w'.
  rewrite (api_request _ _ _ Hc) in Hapi.
  apply sendRequest_registers in Hapi as (_ & Hm & Ho & Ht & _).
  destruct (timer_frame_run id inputs w1) as (Ho2 & _ & Hkeep).
  assert (cmd' = cmd) as ->.
  { apply Hkeep in Harmed; [congruence|lia]. }
  unfold w', w2. cbn [step]. rewrite Harmed.
  unfold requestTimeout, detach, clearTimeout. cbn [this with_timers].
  destruct (ws (this (run inputs w1))); cbn; rewrite !get_delete_eq, Ho2, Ho;
    done.
Qed.

(** ** What holds between two deliveries *)

Lemma elem_of_set {K V} `{EqDecision K} (k : K) (v : V) m entry :
  entry ∈ JsMap.set k v m -> entry = (k, v) \/ entry ∈ m.
Proof.
  induction m as [|[k' v'] m IH]; simpl.
  - intros ->%list_elem_of_singleton. by left.
  - destruct (decide (k' = k)) as [->|Hne].
    + intros [->|Hin]%elem_of_cons; [by left|]. right. by right.
    + intros [->|Hin]%elem_of_cons; [right; left|].
      destruct (IH Hin) as [->|Hm]; [by left|]. right. by right.
Qed.

Lemma elem_of_delete {K V} `{EqDecision K} (k : K) (m : list (K * V)) entry :
  entry ∈ JsMap.delete k m -> entry ∈ m /\ entry.1 ≠ k.
Proof.
  induction m as [|[k' v'] m IH]; simpl.
  - by intros ?%elem_of_nil.
  - destruct (decide (k' = k)) as [->|Hne].
    + intros Hin. destruct (IH Hin). split; [by right|done].
    + intros [->|Hin]%elem_of_cons; [split; [left|done]|].
      destruct (IH Hin). split; [by right|done].
Qed.

Lemma keys_delete {K V} `{EqDecision K} (k : K) (m : list (K * V)) :
  NoDup m.*1 -> NoDup (JsMap.delete k m).*1.
Proof.
  induction m as [|[k' v'] m IH]; simpl; [done|].
  intros [Hnot Hnd]%list.NoDup_cons. destruct (decide (k' = k)); [by apply IH|].
  simpl. apply list.NoDup_cons. split; [|by apply IH].
  intros (entry & Hk & Hin)%list_elem_of_fmap.
  apply elem_of_delete in Hin as [Hin _]. apply Hnot.
  apply list_elem_of_fmap. by exists entry.
Qed.

Lemma get_None_keys {K V} `{EqDecision K} (k : K) (m : list (K * V)) :
  k ∉ m.*1 -> JsMap.get k m = None.
Proof.
  induction m as [|[k' v'] m IH]; simpl; [done|].
  intros [Hne Hnot]%not_elem_of_cons. rewrite decide_False by done. by apply IH.
Qed.

Lemma get_Some_elem {K V} `{EqDecision K} (k : K) (v : V) m :
  JsMap.get k m = Some v -> (k, v) ∈ m.
Proof.
  induction m as [|[k' v'] m IH]; simpl; [done|].
  destruct (decide (k' = k)) as [->|].
  - intros [= ->]. left.
  - intros Hm. right. by apply IH.
Qed.

Lemma set_fresh {K V} `{EqDecision K} (k : K) (v : V) m :
  JsMap.get k m = None -> JsMap.set k v m = m ++ [(k, v)].
Proof.
  induction m as [|[k' v'] m IH]; simpl; [done|].
  destruct (decide (k' = k)); [done|]. intros Hm. by rewrite IH.
Qed.

Lemma elem_of_remove_first x y l : y ∈ remove_first x l -> y ∈ l.
Proof.
  induction l as [|z l IH]; simpl; [done|].
  destruct (decide (z = x)); [by right|].
  intros [->|Hin]%elem_of_cons; [left|right; by apply IH].
Qed.

Lemma NoDup_remove_first x l :
  NoDup l -> NoDup (remove_first x l) /\ x ∉ remove_first x l.
Proof.
  induction l as [|z l IH]; simpl; [by split; [|apply not_elem_of_nil]|].
  intros [Hnot Hnd]%list.NoDup_cons. destruct (decide (z = x)) as [->|Hne]; [done|].
  destruct (IH Hnd) as [Hnd' Hx]. split.
  - apply list.NoDup_cons. split; [|done].
    intros Hin. by apply Hnot, (elem_of_remove_first x).
  - by apply not_elem_of_cons.
Qed.

Lemma elem_of_remove_listener x y l : y ∈ remove_listener x l -> y ∈ l.
Proof.
  unfold remove_listener. rewrite elem_of_reverse.
  intros Hin%elem_of_remove_first. by apply elem_of_reverse.
Qed.

Lemma NoDup_remove_listener x l :
  NoDup l -> NoDup (remove_listener x l) /\ x ∉ remove_listener x l.
Proof.
  intros Hnd. unfold remove_listener.
  destruct (NoDup_remove_first x (reverse l)) as [Hnd' Hx];
    [by rewrite reverse_Permutation|].
  split; [by rewrite reverse_Permutation|]. by rewrite elem_of_reverse.
Qed.

Lemma coherent_ext w w' : same_core w w' -> coherent w -> coherent w'.
Proof.
  intros (Hm & Hp & Hs & Ht) [(Hnd & Hent & Harm) Hl].
  split; [split; [|split]|].
  - by rewrite Hp.
  - rewrite Hp, Hm. apply Hent.
  - rewrite Hp, Ht. apply Harm.
  - intros s k. rewrite Hs, Hm. apply Hl.
Qed.

Lemma consistent_ext w w' :
  same_core w w' -> ws (this w') = ws (this w) ->
  connected (this w') = connected (this w) ->
  consistent w -> consistent w'.
Proof.
  intros Hsame Hws Hc (Hcoh & Hplace & Hlive).
  split; [by eapply coherent_ext|].
  destruct Hsame as (Hm & Hp & Hs & Ht).
  split.
  - intros s k id. rewrite Hs, Ht, Hws. apply Hplace.
  - rewrite Hp, Hc, Hws. apply Hlive.
Qed.

Lemma closed_ext w w' :
  same_core w w' -> connected (this w') = connected (this w) ->
  closed w -> closed w'.
Proof.
  intros Hsame Hc [Hcoh Hcl]. split; [by eapply coherent_ext|congruence].
Qed.

(** A change of state of a socket leaves its listeners where they are. *)
Lemma readyState_lookup g s w s' k' :
  sockets (with_readyState g s w) !! s' = Some k' ->
  exists k, sockets w !! s' = Some k /\
            message_listeners k' = message_listeners k.
Proof.
  unfold with_readyState. simpl. rewrite list_lookup_alter.
  destruct (decide (s = s')) as [->|]; [|by exists k'].
  destruct (sockets w !! s') as [k|]; [|done]. simpl.
  intros [= <-]. by exists k.
Qed.

Lemma coherent_readyState g s w : coherent w -> coherent (with_readyState g s w).
Proof.
  intros [Ht Hl]. split; [done|]. intros s' k' Hk.
  destruct (readyState_lookup _ _ _ _ _ Hk) as (k & Hk0 & ->).
  exact (Hl _ _ Hk0).
Qed.

Lemma consistent_readyState g s w :
  consistent w -> consistent (with_readyState g s w).
Proof.
  intros (Hcoh & Hplace & Hlive). split; [by apply coherent_readyState|].
  split; [|done]. intros s' k' id Hk.
  destruct (readyState_lookup _ _ _ _ _ Hk) as (k & Hk0 & ->).
  by apply (Hplace _ _ _ Hk0).
Qed.

Lemma closed_readyState g s w : closed w -> closed (with_readyState g s w).
Proof. intros [Hcoh Hc]. split; [by apply coherent_readyState|done]. Qed.

Lemma consistent_coherent w : consistent w -> coherent w.
Proof. by intros [? _]. Qed.

(** [cleanupPendingRequests] restores the invariant. *)
Lemma cleanup_consistent w : coherent w -> consistent (cleanupPendingRequests w).
Proof.
  intros [(Hnd & Hent & Harm) Hl].
  destruct (cleanup_this w) as (_ & Hm & _ & _ & Hs).
  assert (Hnone : forall id, JsMap.get id (timers (cleanupPendingRequests w)) = None).
  { intros id.
    destruct (JsMap.get id (timers (cleanupPendingRequests w))) as [cmd|] eqn:Hg;
      [|done].
    pose proof (cleanup_timers _ _ _ Hg) as Hold.
    destruct (Harm _ _ Hold) as [p Hp]. apply get_Some_elem in Hp.
    destruct (Hent _ Hp) as [Hshape _]. simpl in Hshape.
    assert (Hc : JsMap.get id (timers (cleanupPendingRequests w)) = None).
    { unfold cleanupPendingRequests. simpl.
      destruct (cleanup_loop (pendingRequests (this w)) w)
        as (_ & _ & _ & _ & -> & _).
      pose proof (timers_cleared _ (timers w) (id, p) Hp) as Hc.
      simpl in Hc. by rewrite Hshape in Hc. }
    congruence. }
  split; [split; [split; [|split]|]|split].
  - simpl. apply NoDup_nil_2.
  - simpl. by intros entry ?%elem_of_nil.
  - intros id cmd Hg. by rewrite Hnone in Hg.
  - intros s k. rewrite Hs, Hm. apply Hl.
  - intros s k id _ _ [cmd Hg]. by rewrite Hnone in Hg.
  - by simpl.
Qed.

Lemma detach_coherent id w : coherent w -> coherent (detach id w).
Proof.
  intros [Ht Hl]. unfold detach. destruct (ws (this w)) as [s|]; [|done].
  split; [done|]. intros s' k'. unfold off. simpl.
  rewrite list_lookup_alter. destruct (decide (s = s')) as [->|]; [|apply Hl].
  destruct (sockets w !! s') as [k|] eqn:Hk; [|done]. simpl.
  intros [= <-]. simpl. destruct (Hl _ _ Hk) as [Hnd Hids].
  split; [by apply NoDup_remove_listener|].
  intros id' Hin%elem_of_remove_listener. by apply Hids.
Qed.

Lemma detach_listeners id w s k :
  sockets (detach id w) !! s = Some k ->
  exists k0, sockets w !! s = Some k0 /\
             forall l, l ∈ message_listeners k -> l ∈ message_listeners k0.
Proof.
  unfold detach. destruct (ws (this w)) as [s0|]; [|by exists k].
  unfold off. simpl. rewrite list_lookup_alter.
  destruct (decide (s0 = s)) as [->|]; [|by exists k].
  destruct (sockets w !! s) as [k0|]; [|done]. simpl. intros [= <-].
  exists k0. split; [done|]. simpl. intros l. apply elem_of_remove_listener.
Qed.

Lemma detach_consistent id w : consistent w -> consistent (detach id w).
Proof.
  intros (Hcoh & Hplace & Hlive). split; [by apply detach_coherent|].
  destruct (detach_frame id w) as (Hthis & _ & Htm). split.
  - intros s k id' Hk Hin Harmed. rewrite Hthis.
    destruct (detach_listeners _ _ _ _ Hk) as (k0 & Hk0 & Hsub).
    rewrite Htm in Harmed. eapply Hplace; [done| by apply Hsub | done].
  - by rewrite Hthis.
Qed.

Lemma forget_coherent id w : coherent w -> coherent (forget id w).
Proof.
  intros [(Hnd & Hent & Harm) Hl]. unfold forget.
  destruct (JsMap.get id (pendingRequests (this w))) as [p|] eqn:Hp; [|done].
  pose proof (get_Some_elem _ _ _ Hp) as Hin.
  destruct (Hent _ Hin) as [Hshape _]. simpl in Hshape.
  split; [split; [|split]|done]; simpl.
  - by apply keys_delete.
  - intros entry [Hin' _]%elem_of_delete. by apply Hent.
  - intros id' cmd Hg. rewrite Hshape in Hg. simpl in Hg.
    assert (id ≠ id') by (intros ->; by rewrite get_delete_eq in Hg).
    rewrite get_delete_ne by done. eapply Harm, get_delete_Some, Hg.
Qed.

Lemma forget_consistent id w : consistent w -> consistent (forget id w).
Proof.
  intros (Hcoh & Hplace & Hlive). split; [by apply forget_coherent|].
  unfold forget.
  destruct (JsMap.get id (pendingRequests (this w))) as [p|] eqn:Hp; [|done].
  split; simpl.
  - intros s k id' Hk Hin [cmd Hg]. eapply Hplace; [done..|].
    eexists. eapply get_delete_Some, Hg.
  - intros Hne. apply Hlive. intros Hnil. by rewrite Hnil in Hne.
Qed.

Lemma out_same_core e w : same_core w (out e w).
Proof. by repeat split. Qed.

Lemma out_consistent e w : consistent w -> consistent (out e w).
Proof. apply consistent_ext; [apply out_same_core|done..]. Qed.

Lemma out_closed e w : closed w -> closed (out e w).
Proof. apply closed_ext; [apply out_same_core|done]. Qed.

Lemma response_consistent id data w :
  consistent w -> consistent (handleResponse id data w).
Proof.
  intros Hw.
  assert (Hcatch : forall w0, consistent w0 ->
                              consistent (handleResponse_catch id data w0)).
  { intros w0 H0. unfold handleResponse_catch.
    by apply out_consistent, forget_consistent, detach_consistent, out_consistent. }
  unfold handleResponse. destruct (JSON_parse data) as [response|]; [|by apply Hcatch].
  assert (H2 : consistent (forget id (detach id
                  (out (Console "log" "Received IPC response:") w)))).
  { by apply forget_consistent, detach_consistent, out_consistent. }
  destruct (member "success" (Some response)) as [success|]; [|by apply Hcatch].
  destruct (truthy success); by apply out_consistent.
Qed.

Lemma timer_consistent id cmd w :
  consistent w -> consistent (requestTimeout id cmd (clearTimeout id w)).
Proof.
  intros ([(Hnd & Hent & Harm) Hl] & Hplace & Hlive).
  unfold requestTimeout. apply out_consistent.
  assert (H1 : consistent (detach id (clearTimeout id w))).
  { apply detach_consistent. split; [split; [split; [|split]|]|split]; simpl;
      try done.
    - intros id' c Hg. eapply Harm, get_delete_Some, Hg.
    - intros s k id' Hk Hin [c Hg]. eapply Hplace; [done..|].
      eexists. eapply get_delete_Some, Hg. }
  destruct H1 as ([(Hnd1 & Hent1 & Harm1) Hl1] & Hplace1 & Hlive1).
  destruct (detach_frame id (clearTimeout id w)) as (Hthis & _ & Htm).
  split; [split; [split; [|split]|]|split]; simpl.
  - by apply keys_delete.
  - intros entry [Hin' _]%elem_of_delete. by apply Hent1.
  - intros id' c Hg.
    assert (id ≠ id').
    { intros ->. rewrite Htm in Hg. simpl in Hg. by rewrite get_delete_eq in Hg. }
    rewrite get_delete_ne by done. by eapply Harm1.
  - done.
  - done.
  - intros Hne. apply Hlive1. intros Hnil. by rewrite Hnil in Hne.
Qed.

Lemma subscribe_same_core kind h w :
  same_core w (subscribe kind h w) /\
  ws (this (subscribe kind h w)) = ws (this w) /\
  connected (this (subscribe kind h w)) = connected (this w).
Proof.
  unfold subscribe.
  destruct (JsMap.has kind (eventSubscriptions (this w))); simpl;
    match goal with |- context [JsMap.get ?k ?m] =>
      destruct (JsMap.get k m) end; by repeat split.
Qed.

Lemma unsubscribe_same_core kind h w :
  same_core w (unsubscribe kind h w) /\
  ws (this (unsubscribe kind h w)) = ws (this w) /\
  connected (this (unsubscribe kind h w)) = connected (this w).
Proof.
  unfold unsubscribe.
  destruct (JsMap.get kind (eventSubscriptions (this w))) as [r|];
    [destruct (arrays w !! r) as [hs|]; [destruct (indexOf h hs)|]|];
    by repeat split.
Qed.

Lemma connect_coherent w : coherent w -> coherent (connect w).1.
Proof.
  intros [Ht Hl]. unfold connect.
  destruct (connected (this w) && bool_decide (is_Some (ws (this w)))); [done|].
  destruct (valid_port _); [|by split].
  split; [done|]. intros s k. simpl. intros Hk.
  apply lookup_app_Some in Hk as [Hk|[_ Hk]]; [exact (Hl _ _ Hk)|].
  apply list_lookup_singleton_Some in Hk as [_ <-]. simpl.
  split; [apply NoDup_singleton|].
  intros id Hin. apply list_elem_of_singleton in Hin. discriminate.
Qed.

Lemma connect_consistent w : consistent w -> consistent (connect w).1.
Proof.
  intros Hw. pose proof (connect_coherent w (consistent_coherent w Hw)) as Hcoh.
  pose proof Hw as ([(Hnd & Hent & Harm) Hl] & Hplace & Hlive).
  unfold connect in *.
  destruct (connected (this w) && bool_decide (is_Some (ws (this w)))) eqn:Hguard;
    [done|].
  destruct (valid_port _); [|by apply out_consistent].
  assert (Hempty : pendingRequests (this w) = []).
  { destruct (pendingRequests (this w)) as [|e es] eqn:Hp; [done|].
    destruct Hlive as [Hc Hs]; [done|]. rewrite Hc in Hguard. simpl in Hguard.
    by rewrite bool_decide_true in Hguard. }
  split; [done|]. simpl. split.
  - intros s k id _ _ [cmd Hg]. destruct (Harm _ _ Hg) as [p Hp].
    by rewrite Hempty in Hp.
  - by rewrite Hempty.
Qed.

Lemma connect_closed w : closed w -> closed (connect w).1.
Proof.
  intros [Hcoh Hc]. split; [by apply connect_coherent|].
  unfold connect. rewrite Hc. simpl. by destruct (valid_port _).
Qed.

Lemma disconnect_consistent w : coherent w -> consistent (disconnect w).
Proof.
  intros Hcoh. unfold disconnect. apply cleanup_consistent.
  destruct (ws (this w)) as [s|]; [|done]. unfold ws_close.
  eapply coherent_ext; [|apply coherent_readyState, Hcoh]. by repeat split.
Qed.

Lemma disconnect_closed w : closed w -> closed (disconnect w).
Proof.
  intros [Hcoh Hc]. split; [by apply consistent_coherent, disconnect_consistent|].
  unfold disconnect. destruct (ws (this w)) as [s|] eqn:Hws.
  - match goal with |- connected (this (cleanupPendingRequests ?w0)) = _ =>
      by destruct (cleanup_this w0) as (_ & _ & _ & -> & _) end.
  - by destruct (cleanup_this w) as (_ & _ & _ & -> & _).
Qed.

Lemma sendRequest_coherent command w :
  coherent w -> coherent (sendRequest command w).1.
Proof.
  intros [(Hnd & Hent & Harm) Hl]. unfold sendRequest.
  destruct (ws (this w)) as [s|]; [|done].
  destruct (connected (this w)); [|done].
  match goal with |- context [send_throws s ?w5] =>
    assert (H5 : coherent w5);
    [|destruct (send_throws s w5);
      (eapply coherent_ext; [apply out_same_core|exact H5])] end.
  simpl.
  set (m := messageId (this w)).
  assert (Hfresh : JsMap.get m (pendingRequests (this w)) = None).
  { apply get_None_keys. intros (entry & Hk & Hin)%list_elem_of_fmap.
    destruct (Hent _ Hin) as [_ Hlt]. unfold m in Hk. lia. }
  split; [split; [|split]|]; simpl.
  - rewrite (set_fresh _ _ _ Hfresh), fmap_app. apply list.NoDup_app.
    split; [done|]. split; [|apply NoDup_singleton].
    intros k Hk ->%list_elem_of_singleton.
    apply list_elem_of_fmap in Hk as (entry & Hk & Hin).
    destruct (Hent _ Hin) as [_ Hlt]. unfold m in Hk. simpl in Hk. lia.
  - intros entry [->|Hin]%elem_of_set; simpl; [split; [done|lia]|].
    destruct (Hent _ Hin). split; [done|]. fold m. lia.
  - intros id cmd Hg. destruct (decide (m = id)) as [<-|Hne].
    + rewrite get_set_eq. by eexists.
    + rewrite get_set_ne in Hg by done. rewrite get_set_ne by done.
      by eapply Harm.
  - intros s' k'. unfold on. simpl. rewrite list_lookup_alter.
    destruct (decide (s = s')) as [->|].
    + destruct (sockets w !! s') as [k|] eqn:Hk; [|done]. simpl.
      intros [= <-]. simpl. destruct (Hl _ _ Hk) as [Hndk Hids]. split.
      * apply list.NoDup_app. split; [done|]. split; [|apply NoDup_singleton].
        intros l Hin ->%list_elem_of_singleton. apply Hids in Hin. fold m in Hin. lia.
      * intros id [Hin|Hin]%elem_of_app.
        -- apply Hids in Hin. lia.
        -- apply list_elem_of_singleton in Hin. injection Hin as ->. fold m. lia.
    + intros Hk. destruct (Hl _ _ Hk) as [Hndk Hids]. split; [done|].
      intros id Hin. apply Hids in Hin. lia.
Qed.

Lemma sendRequest_consistent command w :
  consistent w -> consistent (sendRequest command w).1.
Proof.
  intros Hw.
  pose proof (sendRequest_coherent command w (consistent_coherent w Hw)) as Hcoh.
  pose proof Hw as ([(Hnd & Hent & Harm) Hl] & Hplace & Hlive).
  unfold sendRequest in *.
  destruct (ws (this w)) as [s|] eqn:Hws; [|done].
  destruct (connected (this w)) eqn:Hc; [|done].
  match goal with |- context [send_throws s ?w5] =>
    assert (H5 : consistent w5);
    [|destruct (send_throws s w5); by apply out_consistent] end.
  assert (Hcoh5 : coherent
            (out (Console "log" "Sending IPC command:")
               (on s (HandleResponse (messageId (this w)))
                  (with_this
                     (with_pendingRequests
                        (JsMap.set (messageId (this w))
                           {| resolve := messageId (this w);
                              reject := messageId (this w);
                              timeout := messageId (this w) |}
                           (pendingRequests (this w)))
                        (with_messageId (S (messageId (this w))) (this w)))
                     (with_timers
                        (JsMap.set (messageId (this w)) command (timers w))
                        (with_this
                           (with_messageId (S (messageId (this w))) (this w))
                           w)))))).
  { destruct (send_throws s _);
      (eapply coherent_ext; [|exact Hcoh]); by repeat split. }
  split; [exact Hcoh5|]. simpl. split; [|by rewrite Hws, Hc].
  intros s' k' id. unfold on. simpl. rewrite list_lookup_alter, Hws.
  destruct (decide (s = s')) as [->|Hne]; [done|].
  intros Hk Hin [cmd Hg]. exfalso. apply Hne.
  destruct (Hl _ _ Hk) as [_ Hids]. pose proof (Hids _ Hin) as Hlt.
  rewrite get_set_ne in Hg by lia.
  assert (Some s = Some s') as [= ->]; [|done].
  eapply Hplace; [done..|by eexists].
Qed.

Lemma sendRequest_closed command w : closed w -> closed (sendRequest command w).1.
Proof.
  intros [Hcoh Hc]. unfold sendRequest. rewrite Hc.
  by destruct (ws (this w)).
Qed.

Lemma consistent_api c w : consistent w -> consistent (api c w).1.
Proof.
  intros Hw. destruct c; cbn [api fst];
    try (by apply sendRequest_consistent);
    try (by eapply consistent_ext; [| | |exact Hw]; repeat split).
  - by apply connect_consistent.
  - by apply disconnect_consistent, consistent_coherent.
  - destruct (subscribe_same_core eventType handler w) as (? & ? & ?).
    by eapply consistent_ext.
  - destruct (unsubscribe_same_core eventType handler w) as (? & ? & ?).
    by eapply consistent_ext.
Qed.

Lemma closed_api c w : closed w -> closed (api c w).1.
Proof.
  intros Hw. destruct c; cbn [api fst];
    try (by apply sendRequest_closed);
    try (by eapply closed_ext; [| |exact Hw]; repeat split).
  - by apply connect_closed.
  - by apply disconnect_closed.
  - destruct (subscribe_same_core eventType handler w) as (? & ? & ?).
    by eapply closed_ext.
  - destruct (unsubscribe_same_core eventType handler w) as (? & ? & ?).
    by eapply closed_ext.
Qed.

Lemma preserves_refl P w : preserves P w w.
Proof. by intros ?. Qed.

Lemma preserves_trans P w1 w2 w3 :
  preserves P w1 w2 -> preserves P w2 w3 -> preserves P w1 w3.
Proof. intros H1 H2 ?. by apply H2, H1. Qed.

Lemma observers_consistent tag hs a w :
  consistent w -> consistent (forEach_observers tag hs a w).
Proof.
  apply (lift_forEach_observers (preserves consistent)).
  - apply preserves_refl.
  - apply preserves_trans.
  - intros e w0 _ H0. by apply out_consistent.
  - intros c w0 H0. by apply consistent_api.
Qed.

Lemma observers_closed tag hs a w :
  closed w -> closed (forEach_observers tag hs a w).
Proof.
  apply (lift_forEach_observers (preserves closed)).
  - apply preserves_refl.
  - apply preserves_trans.
  - intros e w0 _ H0. by apply out_closed.
  - intros c w0 H0. by apply closed_api.
Qed.

Lemma socketMessage_consistent listeners data now w :
  consistent w -> consistent (socketMessage listeners data now w).
Proof.
  apply (lift_socketMessage (preserves consistent) (fun _ => True)).
  - apply preserves_refl.
  - apply preserves_trans.
  - intros e w0 _ H0. by apply out_consistent.
  - intros c w0 H0. by apply consistent_api.
  - intros id d w0 _ H0. by apply response_consistent.
  - done.
Qed.

(** Every delivery keeps the invariant. *)
Lemma consistent_step i w : consistent w -> consistent (step i w).
Proof.
  intros Hw.
  destruct i as [c|s|s data now|s message|s|handle|s|message]; simpl.
  - by apply consistent_api.
  - destruct (sockets w !! s); [|done]. unfold socketOpen.
    apply out_consistent, observers_consistent.
    destruct (consistent_readyState (fun _ => OPEN) s w Hw)
      as (Hcoh & Hplace & Hlive).
    split; [by eapply coherent_ext; [|exact Hcoh]|]. split; [done|].
    simpl. intros Hne. split; [done|]. by apply Hlive.
  - destruct (sockets w !! s); [|done]. by apply socketMessage_consistent.
  - destruct (sockets w !! s); [|done]. unfold socketError.
    by apply out_consistent, observers_consistent, out_consistent,
      consistent_readyState.
  - destruct (sockets w !! s); [|done]. unfold socketClose.
    apply cleanup_consistent. eapply proj1, observers_closed.
    split; [|done].
    eapply coherent_ext;
      [|exact (coherent_readyState (fun _ => CLOSED) s w
                 (consistent_coherent _ Hw))].
    by repeat split.
  - destruct (JsMap.get handle (timers w)); [|done]. by apply timer_consistent.
  - destruct (bool_decide _); [|done]. unfold connectTimeout. simpl.
    assert (H1 : consistent
                   (with_connectTimers
                      (filter (fun t => t ≠ s) (connectTimers w)) w)).
    { by eapply consistent_ext; [| | |exact Hw]; repeat split. }
    destruct (connected (this w)); [done|].
    by apply out_consistent, observers_consistent.
  - by apply out_consistent.
Qed.

Lemma consistent_run inputs w : consistent w -> consistent (run inputs w).
Proof.
  revert w. induction inputs as [|i inputs IH]; intros w Hw; simpl; [done|].
  by apply IH, consistent_step.
Qed.

Lemma consistent_new given_port given_timeout given_autoConnect env_disable :
  consistent (WmClient_new given_port given_timeout given_autoConnect env_disable).
Proof.
  unfold WmClient_new.
  match goal with |- consistent (if _ then (connect ?w0).1 else _) =>
    assert (H0 : consistent w0) end.
  { split; [split; [split; [|split]|]|split]; simpl.
    - apply NoDup_nil_2.
    - by intros entry ?%elem_of_nil.
    - done.
    - by intros s k.
    - by intros s k id.
    - done. }
  match goal with |- consistent (if ?b then _ else _) => destruct b end;
    [by apply connect_consistent | done].
Qed.

(** ** A retired request is never called back *)

Lemma retired_ext id w w' :
  same_core w w' -> retired id w -> retired id w'.
Proof.
  intros (Hm & Hp & Hs & Ht) (Hl & Harm & Hent).
  split; [|split].
  - intros s k. rewrite Hs. apply Hl.
  - by rewrite Ht.
  - rewrite Hp. apply Hent.
Qed.

Lemma silent_refl id w : silent id w w.
Proof.
  split; [done|]. intros _ Hr. split; [done|].
  exists []. by rewrite app_nil_r.
Qed.

Lemma silent_trans id w1 w2 w3 :
  silent id w1 w2 -> silent id w2 w3 -> silent id w1 w3.
Proof.
  intros [Hm1 H1] [Hm2 H2]. split; [lia|]. intros Hid Hr.
  destruct (H1 Hid Hr) as (Hr2 & l1 & Hl1 & Hf1).
  destruct (H2 ltac:(lia) Hr2) as (Hr3 & l2 & Hl2 & Hf2).
  split; [done|]. exists (l1 ++ l2). rewrite Hl2, Hl1, <- app_assoc.
  split; [done|]. by rewrite List.filter_app, Hf1, Hf2.
Qed.

(** A step that keeps the core and performs the effects [l]. *)
Lemma silent_same_core id w w' l :
  same_core w w' -> log w' = log w ++ l -> List.filter (settles id) l = [] ->
  silent id w w'.
Proof.
  intros Hsame Hl Hf. split; [destruct Hsame as (-> & _); done|].
  intros _ Hr. split; [by eapply retired_ext|]. by exists l.
Qed.

Lemma silent_out id e w : passive e = true -> silent id w (out e w).
Proof.
  intros He. apply (silent_same_core id w (out e w) [e]);
    [apply out_same_core | done | by destruct e].
Qed.

Lemma cleanup_timers_None w id :
  JsMap.get id (timers w) = None ->
  JsMap.get id (timers (cleanupPendingRequests w)) = None.
Proof.
  intros Hn.
  destruct (JsMap.get id (timers (cleanupPendingRequests w))) as [cmd|] eqn:Hg;
    [|done].
  apply cleanup_timers in Hg. congruence.
Qed.

Lemma silent_cleanup id w : silent id w (cleanupPendingRequests w).
Proof.
  destruct (cleanup_this w) as (_ & Hm & _ & _ & Hs).
  split; [lia|]. intros Hid (Hl & Harm & Hent). split.
  - split; [|split].
    + intros s k. rewrite Hs. apply Hl.
    + by apply cleanup_timers_None.
    + simpl. by intros entry ?%elem_of_nil.
  - unfold cleanupPendingRequests. simpl.
    destruct (cleanup_loop (pendingRequests (this w)) w)
      as (_ & _ & _ & _ & _ & ->).
    eexists. split; [done|]. by apply rejects_of_others.
Qed.

Lemma silent_sendRequest id command w : silent id w (sendRequest command w).1.
Proof.
  unfold sendRequest.
  destruct (ws (this w)) as [s|];
    [destruct (connected (this w)); [destruct (send_throws s _)|]|];
    try apply silent_refl.
  1,2: simpl; split; [simpl; lia|]; simpl; intros Hid (Hl & Harm & Hent);
    (split; [split; [|split]|]; simpl).
  1,5: intros s' k'; unfold on; simpl; rewrite list_lookup_alter;
    (destruct (decide (s = s')) as [->|]; [|apply Hl]);
    (destruct (sockets w !! s') as [k|] eqn:Hk; [|done]); simpl;
    intros [= <-]; simpl; intros [Hin|Hin]%elem_of_app;
    [by eapply Hl|apply list_elem_of_singleton in Hin; injection Hin as ->; lia].
  1,4: rewrite get_set_ne by lia; done.
  1,3: intros entry [->|Hin]%elem_of_set; simpl; [lia|]; by apply Hent.
  - exists [Console "log" "Sending IPC command:";
            Reject (messageId (this w)) not_open].
    rewrite <- app_assoc. split; [done|]. simpl.
    assert (Hne : Nat.eqb (messageId (this w)) id = false)
      by (apply Nat.eqb_neq; lia).
    by rewrite Hne.
  - exists [Console "log" "Sending IPC command:"; Send s command].
    by rewrite <- app_assoc.
Qed.

Lemma silent_readyState id g s w : silent id w (with_readyState g s w).
Proof.
  split; [done|]. intros Hid (Hl & Harm & Hent). split.
  - split; [|split]; [|done..]. intros s' k' Hk.
    destruct (readyState_lookup _ _ _ _ _ Hk) as (k & Hk0 & ->).
    by eapply Hl.
  - exists []. by rewrite app_nil_r.
Qed.

Lemma silent_api id c w : silent id w (api c w).1.
Proof.
  destruct c; cbn [api fst]; try apply silent_sendRequest;
    try (by apply (silent_same_core id w _ []);
           [repeat split | rewrite app_nil_r | ]).
  - unfold connect.
    destruct (connected (this w) && bool_decide (is_Some (ws (this w))));
      [apply silent_refl|].
    destruct (valid_port _); [|by apply silent_out].
    simpl. split; [done|]. simpl. intros Hid (Hl & Harm & Hent).
    split; [split; [|split]|]; simpl; [|done..|by eexists].
    intros s k Hk.
    apply lookup_app_Some in Hk as [Hk|[_ Hk]]; [by eapply Hl|].
    apply list_lookup_singleton_Some in Hk as [_ <-]. simpl.
    intros Hin. apply list_elem_of_singleton in Hin. discriminate.
  - unfold disconnect. eapply silent_trans; [|apply silent_cleanup].
    destruct (ws (this w)) as [s|]; [|apply silent_refl]. unfold ws_close.
    eapply silent_trans; [apply (silent_readyState id closing s w)|].
    by apply (silent_same_core id _ _ [CloseSocket s]); [repeat split| | ].
  - destruct (subscribe_same_core eventType handler w) as (Hsame & _).
    destruct (api_log (Subscribe eventType handler) w) as (l & Hl & _).
    assert (l = []) as ->.
    { unfold subscribe in Hl. cbn [api fst] in Hl. unfold subscribe in Hl.
      destruct (JsMap.has eventType (eventSubscriptions (this w))); simpl in Hl;
        match type of Hl with context [JsMap.get ?k ?m] =>
          destruct (JsMap.get k m) end; simpl in Hl;
        by apply (app_inv_head (log w)); rewrite app_nil_r. }
    by apply (silent_same_core id w _ []).
  - destruct (unsubscribe_same_core eventType handler w) as (Hsame & _).
    assert (Hl : log (unsubscribe eventType handler w) = log w ++ []).
    { rewrite app_nil_r. unfold unsubscribe.
      destruct (JsMap.get eventType (eventSubscriptions (this w))) as [r|];
        [destruct (arrays w !! r) as [hs|];
         [destruct (indexOf handler hs)|]|]; done. }
    by apply (silent_same_core id w _ []).
Qed.

Lemma silent_detach id id' w : silent id w (detach id' w).
Proof.
  destruct (detach_frame id' w) as (Hthis & Hlog & Htm).
  split; [by rewrite Hthis|]. intros Hid (Hl & Harm & Hent). split.
  - split; [|split].
    + intros s k Hk Hin.
      destruct (detach_listeners _ _ _ _ Hk) as (k0 & Hk0 & Hsub).
      eapply Hl; [done|]. by apply Hsub.
    + by rewrite Htm.
    + by rewrite Hthis.
  - exists []. by rewrite app_nil_r.
Qed.

Lemma silent_forget id id' w : silent id w (forget id' w).
Proof.
  unfold forget. destruct (JsMap.get id' (pendingRequests (this w))) as [p|];
    [|apply silent_refl].
  split; [done|]. simpl. intros Hid (Hl & Harm & Hent). split.
  - split; [|split]; simpl; [done| |].
    + by apply get_delete_None.
    + intros entry [Hin _]%elem_of_delete. by apply Hent.
  - exists []. by rewrite app_nil_r.
Qed.

Lemma silent_settle id e w :
  settles id e = false -> silent id w (out e w).
Proof.
  intros He. apply (silent_same_core id w (out e w) [e]);
    [apply out_same_core | done | by simpl; rewrite He].
Qed.

Lemma silent_response id id' data w :
  id' ≠ id -> silent id w (handleResponse id' data w).
Proof.
  intros Hne. apply Nat.eqb_neq in Hne.
  assert (Hcatch : forall w0, silent id w0 (handleResponse_catch id' data w0)).
  { intros w0. unfold handleResponse_catch.
    eapply silent_trans; [|by apply silent_settle].
    eapply silent_trans; [|apply silent_forget].
    eapply silent_trans; [|apply silent_detach].
    by apply silent_out. }
  unfold handleResponse. destruct (JSON_parse data) as [response|]; [|apply Hcatch].
  assert (H2 : silent id w
                 (forget id' (detach id'
                    (out (Console "log" "Received IPC response:") w)))).
  { eapply silent_trans; [|apply silent_forget].
    eapply silent_trans; [|apply silent_detach].
    by apply silent_out. }
  destruct (member "success" (Some response)) as [success|].
  - destruct (truthy success);
      (eapply silent_trans; [exact H2 | by apply silent_settle]).
  - eapply silent_trans; [exact H2 | apply Hcatch].
Qed.

Lemma silent_timer id id' cmd w :
  JsMap.get id' (timers w) = Some cmd ->
  silent id w (requestTimeout id' cmd (clearTimeout id' w)).
Proof.
  intros Harmed. destruct (decide (id' = id)) as [->|Hne].
  - split.
    + unfold requestTimeout, detach. simpl.
      by destruct (ws (this w)).
    + intros _ (_ & Hnone & _). congruence.
  - unfold requestTimeout.
    eapply silent_trans; [|apply silent_settle; simpl; by apply Nat.eqb_neq].
    assert (H1 : silent id w (detach id' (clearTimeout id' w))).
    { eapply silent_trans; [|apply silent_detach].
      split; [done|]. intros _ (Hl & Hn & Hent). split.
      - split; [done|]. split; [|done]. simpl. by apply get_delete_None.
      - exists []. by rewrite app_nil_r. }
    eapply silent_trans; [exact H1|].
    split; [done|]. simpl. intros _ (Hl & Hn & Hent). split.
    + split; [done|]. split; [done|]. simpl.
      intros entry [Hin _]%elem_of_delete. by apply Hent.
    + exists []. by rewrite app_nil_r.
Qed.

Lemma silent_step id i w : silent id w (step i w).
Proof.
  split; [by destruct (timer_frame_step id i w) as (_ & ? & _)|].
  intros Hid Hr.
  apply (lift_step (silent id) (fun id' => id' ≠ id)); try done.
  - apply silent_refl.
  - apply silent_trans.
  - intros e w0. apply silent_out.
  - intros b w0. by apply (silent_same_core id w0 _ []);
      [repeat split | rewrite app_nil_r | ].
  - intros v w0. by apply (silent_same_core id w0 _ []);
      [repeat split | rewrite app_nil_r | ].
  - intros g s w0. apply silent_readyState.
  - intros c w0. apply silent_api.
  - intros w0. apply silent_cleanup.
  - intros id' data w0. apply silent_response.
  - intros id' cmd w0. apply silent_timer.
  - intros s data now k id' _ Hk Hin ->. destruct Hr as (Hl & _).
    by eapply Hl.
Qed.

Lemma silent_run id inputs w : silent id w (run inputs w).
Proof.
  revert w. induction inputs as [|i inputs IH]; intros w; simpl.
  - apply silent_refl.
  - eapply silent_trans; [apply silent_step | apply IH].
Qed.

(** After its timer has fired, a request is retired. *)
Lemma timer_retires id cmd w :
  consistent w -> JsMap.get id (timers w) = Some cmd ->
  id < messageId (this (step (RequestTimer id) w)) /\
  retired id (step (RequestTimer id) w).
Proof.
  intros ([(Hnd & Hent & Harm) Hl] & Hplace & Hlive) Harmed.
  simpl. rewrite Harmed. unfold requestTimeout.
  destruct (detach_frame id (clearTimeout id w)) as (Hthis & _ & Htm).
  split.
  - simpl. rewrite Hthis. simpl.
    destruct (Harm _ _ Harmed) as [p Hp]. apply get_Some_elem in Hp.
    by destruct (Hent _ Hp).
  - split; [|split]; simpl.
    + intros s k Hk Hin. unfold detach in Hk. simpl in Hk.
      destruct (ws (this w)) as [s0|] eqn:Hws.
      * unfold off in Hk. simpl in Hk. rewrite list_lookup_alter in Hk.
        destruct (decide (s0 = s)) as [->|Hne].
        -- destruct (sockets w !! s) as [k0|] eqn:Hk0; [|done].
           simpl in Hk. injection Hk as <-. simpl in Hin.
           destruct (Hl _ _ Hk0) as [Hndk _].
           by destruct (NoDup_remove_listener (HandleResponse id) _ Hndk).
        -- apply Hne. assert (Some s0 = Some s) as [= ->]; [|done].
           eapply Hplace; [done..|by eexists].
      * assert (None = Some s) as [=]. eapply Hplace; [done..|by eexists].
    + rewrite Htm. simpl. apply get_delete_eq.
    + rewrite Hthis. simpl. intros entry [Hin Hne]%elem_of_delete.
      destruct (Hent _ Hin) as [-> _]. done.
Qed.

(** The timeout is final: from a new client, after any deliveries, once
    the timer of a request has fired, no later delivery calls a callback of
    that request - no late response frame, no disconnect, no socket
    event. *)
Theorem timed_out_request_is_never_called_again
  given_port given_timeout given_autoConnect env_disable inputs id later :
  let w := run inputs
             (WmClient_new given_port given_timeout given_autoConnect env_disable) in
  is_Some (JsMap.get id (timers w)) ->
  let w' := step (RequestTimer id) w in
  List.filter (settles id) (performed w' (run later w')) = [].
Proof.
  intros w [cmd Harmed] w'.
  assert (Hw : consistent w) by apply consistent_run, consistent_new.
  destruct (timer_retires id cmd w Hw Harmed) as [Hid Hr].
  destruct (silent_run id later w') as [_ Hs].
  destruct (Hs Hid Hr) as (_ & l & Hl & Hf).
  by rewrite (performed_app _ _ _ Hl).
Qed.

(** After its response handler has run while its timer was armed, a
    request is retired. *)
Lemma response_retires id data w :
  consistent w -> is_Some (JsMap.get id (timers w)) ->
  id < messageId (this (handleResponse id data w)) /\
  retired id (handleResponse id data w).
Proof.
  intros Hw Harmed.
  assert (Hcore : forall e w0,
             consistent w0 -> is_Some (JsMap.get id (timers w0)) ->
             id < messageId (this (forget id (detach id (out e w0)))) /\
             retired id (forget id (detach id (out e w0)))).
  { intros e w0 H0 [cmd Hcmd].
    pose proof H0 as ([(Hnd & Hent & Harm) Hl] & Hplace & Hlive).
    destruct (Harm _ _ Hcmd) as [p Hp].
    pose proof (get_Some_elem _ _ _ Hp) as Hin.
    destruct (Hent _ Hin) as [Hshape Hlt]. simpl in Hshape, Hlt.
    destruct (detach_frame id (out e w0)) as (Hthis & _ & Htm).
    unfold forget. rewrite Hthis. simpl. rewrite Hp. simpl. rewrite Hthis.
    split; [done|]. split; [|split]; simpl.
    - intros s k Hk Hin'. unfold detach in Hk. simpl in Hk.
      destruct (ws (this w0)) as [s0|] eqn:Hws.
      + unfold off in Hk. simpl in Hk. rewrite list_lookup_alter in Hk.
        destruct (decide (s0 = s)) as [->|Hne].
        * destruct (sockets w0 !! s) as [k0|] eqn:Hk0; [|done].
          simpl in Hk. injection Hk as <-. simpl in Hin'.
          destruct (Hl _ _ Hk0) as [Hndk _].
          by destruct (NoDup_remove_listener (HandleResponse id) _ Hndk).
        * apply Hne. assert (Some s0 = Some s) as [= ->]; [|done].
          eapply Hplace; [done..|by eexists].
      + assert (None = Some s) as [=]. eapply Hplace; [done..|by eexists].
    - rewrite Htm, Hshape. simpl. apply get_delete_eq.
    - intros entry [Hin' Hne]%elem_of_delete.
      destruct (Hent _ Hin') as [-> _]. done. }
  assert (Hcatch : forall w0,
             silent id w0
               (forget id (detach id
                  (out (Console "error" "Failed to parse response:") w0)))).
  { intros w0. eapply silent_trans; [|apply silent_forget].
    eapply silent_trans; [|apply silent_detach]. by apply silent_out. }
  unfold handleResponse, handleResponse_catch.
  destruct (JSON_parse data) as [response|].
  - destruct (Hcore (Console "log" "Received IPC response:") w Hw Harmed)
      as [Hid Hr].
    destruct (member "success" (Some response)) as [success|].
    + destruct (truthy success); (split; [done|]);
        (eapply retired_ext; [apply out_same_core|done]).
    + destruct (Hcatch (forget id (detach id
                  (out (Console "log" "Received IPC response:") w))))
        as [Hm Hs].
      destruct (Hs Hid Hr) as (Hr' & _).
      split; [simpl in *; lia|].
      eapply retired_ext; [apply out_same_core|exact Hr'].
  - destruct (Hcore (Console "error" "Failed to parse response:") w Hw Harmed)
      as [Hid Hr].
    split; [done|]. eapply retired_ext; [apply out_same_core|done].
Qed.

Lemma handleMessage_logs data now w :
  is_event_frame data = false ->
  exists e, handleMessage data now w = out e w /\ passive e = true.
Proof.
  unfold is_event_frame, handleMessage.
  destruct (JSON_parse data) as [[| | | | |members]|]; try (by eexists).
  unfold is_event. simpl. intros ->. by eexists.
Qed.

(** A response is final as well: from a new client, after any deliveries,
    when exactly one request is outstanding with its timer armed and a frame
    that is not an event reaches the socket, the request is completed by
    that frame and no later delivery calls a callback of it. *)
Theorem answered_request_is_never_called_again
  given_port given_timeout given_autoConnect env_disable inputs s id data now
  later :
  let w := run inputs
             (WmClient_new given_port given_timeout given_autoConnect env_disable) in
  sole_request s id w ->
  is_Some (JsMap.get id (timers w)) ->
  is_event_frame data = false ->
  let w' := step (SocketMessage s data now) w in
  List.filter (settles id) (performed w' (run later w')) = [].
Proof.
  intros w (Hws & (k & Hk & Hl) & Hp) Harmed Hframe w'.
  assert (Hw : consistent w) by apply consistent_run, consistent_new.
  destruct (handleMessage_logs data now w Hframe) as (e & He & _).
  assert (Hw' : w' = handleResponse id data (out e w)).
  { unfold w'. simpl. rewrite Hk, Hl. simpl. by rewrite He. }
  destruct (response_retires id data (out e w)) as [Hid Hr];
    [by apply out_consistent | done |].
  rewrite <- Hw' in Hid, Hr.
  destruct (silent_run id later w') as [_ Hs].
  destruct (Hs Hid Hr) as (_ & l & Hlog & Hf).
  by rewrite (performed_app _ _ _ Hlog).
Qed.

(** ** The timers follow the table *)

Lemma coherent_api c w : coherent w -> coherent (api c w).1.
Proof.
  intros Hw. destruct c; cbn [api fst];
    try (by apply sendRequest_coherent);
    try (by eapply coherent_ext; [|exact Hw]; repeat split).
  - by apply connect_coherent.
  - by apply consistent_coherent, disconnect_consistent.
  - destruct (subscribe_same_core eventType handler w) as (? & _).
    by eapply coherent_ext.
  - destruct (unsubscribe_same_core eventType handler w) as (? & _).
    by eapply coherent_ext.
Qed.

Lemma tidy_ext w w' :
  messageId (this w') = messageId (this w) ->
  pendingRequests (this w') = pendingRequests (this w) ->
  timers w' = timers w -> log w' = log w -> tidy w -> tidy w'.
Proof.
  intros Hmid Hpend Htm Hlog [Hp Hf]. split.
  - intros id. rewrite Hpend, Htm. apply Hp.
  - intros id. rewrite Hmid, Hlog. apply Hf.
Qed.

Lemma tidy_out e w : passive e = true -> tidy w -> tidy (out e w).
Proof.
  intros He [Hp Hf].
  assert (Hs : forall id, settles id e = false) by (intros id; by destruct e).
  split; simpl; [done|].
  intros id Hid. by rewrite List.filter_app, (Hf id Hid); simpl; rewrite Hs.
Qed.

Lemma tidy_from_ext m0 w w' :
  same_core w w' -> log w' = log w -> tidy_from m0 w -> tidy_from m0 w'.
Proof.
  intros Hsame Hlog (Hcoh & Ht & Hm).
  split; [by eapply coherent_ext|].
  destruct Hsame as (Hmid & Hpend & _ & Htm).
  split; [by eapply tidy_ext|by rewrite Hmid].
Qed.

Lemma tidy_from_out m0 e w :
  passive e = true -> tidy_from m0 w -> tidy_from m0 (out e w).
Proof.
  intros He (Hcoh & Ht & Hm).
  split; [by eapply coherent_ext; [apply out_same_core|]|].
  split; [by apply tidy_out|done].
Qed.

Lemma tidy_from_readyState m0 g s w :
  tidy_from m0 w -> tidy_from m0 (with_readyState g s w).
Proof.
  intros (Hcoh & Ht & Hm). split; [by apply coherent_readyState|].
  split; [exact Ht|exact Hm].
Qed.

Lemma tidy_from_cleanup m0 w :
  tidy_from m0 w -> tidy_from m0 (cleanupPendingRequests w).
Proof.
  intros (Hcoh & [Hp Hf] & Hm).
  split; [by apply consistent_coherent, cleanup_consistent|].
  destruct (cleanup_this w) as (_ & Hmid & _).
  split; [split|lia].
  - simpl. by intros id [? ?].
  - intros id Hid. unfold cleanupPendingRequests. simpl.
    destruct (cleanup_loop (pendingRequests (this w)) w)
      as (_ & _ & _ & _ & _ & ->).
    rewrite Hmid in Hid. rewrite List.filter_app, (Hf id Hid). simpl.
    destruct Hcoh as [(_ & Hent & _) _]. apply rejects_of_others.
    intros entry Hin. destruct (Hent _ Hin) as [-> Hlt]. simpl. lia.
Qed.

Lemma tidy_from_sendRequest m0 command w :
  tidy_from m0 w -> tidy_from m0 (sendRequest command w).1.
Proof.
  intros Hw. pose proof Hw as (Hcoh & [Hp Hf] & Hm).
  pose proof (sendRequest_coherent command w Hcoh) as Hcoh'.
  unfold sendRequest in *.
  destruct (ws (this w)) as [s|]; [|done].
  destruct (connected (this w)); [|done].
  destruct (send_throws s _); (split; [done|]); simpl;
    (split; [split|lia]); simpl.
  1,3: intros id Hid;
    (destruct (decide (messageId (this w) = id)) as [<-|Hne];
     [rewrite get_set_eq; by eexists|]);
    rewrite get_set_ne in Hid by done; rewrite get_set_ne by done;
    by apply Hp.
  - intros id Hid. rewrite <- app_assoc, List.filter_app. simpl.
    assert (Hne : Nat.eqb (messageId (this w)) id = false)
      by (apply Nat.eqb_neq; lia).
    rewrite Hne, app_nil_r. apply Hf. lia.
  - intros id Hid. rewrite <- app_assoc, List.filter_app. simpl.
    rewrite app_nil_r. apply Hf. lia.
Qed.

Lemma tidy_from_api m0 c w : tidy_from m0 w -> tidy_from m0 (api c w).1.
Proof.
  intros Hw. destruct c; cbn [api fst];
    try (by apply tidy_from_sendRequest);
    try (by eapply tidy_from_ext; [| |exact Hw]; repeat split).
  - split; [by apply connect_coherent, Hw|]. destruct Hw as (_ & Ht & Hm).
    unfold connect.
    destruct (connected (this w) && bool_decide (is_Some (ws (this w))));
      [done|].
    destruct (valid_port _); (split; [|done]); cbn [fst].
    + eapply tidy_ext; [..|apply (tidy_out (Console "log"
        ("Connecting to GlazeWM IPC on port "
         +:+ pretty (port (options (this w))) +:+ "...")) w eq_refl Ht)]; done.
    + by apply tidy_out.
  - unfold disconnect. apply tidy_from_cleanup.
    destruct (ws (this w)) as [s|]; [|done]. unfold ws_close.
    eapply tidy_from_ext;
      [| |apply (tidy_from_out m0 (CloseSocket s) _ eq_refl
                   (tidy_from_readyState m0 closing s w Hw))];
      by repeat split.
  - destruct (subscribe_same_core eventType handler w) as (Hsame & _).
    eapply tidy_from_ext; [exact Hsame| |exact Hw].
    unfold subscribe.
    destruct (JsMap.has eventType (eventSubscriptions (this w))); simpl;
      match goal with |- context [JsMap.get ?k ?m] =>
        destruct (JsMap.get k m) end; done.
  - destruct (unsubscribe_same_core eventType handler w) as (Hsame & _).
    eapply tidy_from_ext; [exact Hsame| |exact Hw].
    unfold unsubscribe.
    destruct (JsMap.get eventType (eventSubscriptions (this w))) as [r|];
      [destruct (arrays w !! r) as [hs|];
       [destruct (indexOf handler hs)|]|]; done.
Qed.

Lemma tidy_from_detach m0 id w : tidy_from m0 w -> tidy_from m0 (detach id w).
Proof.
  intros (Hcoh & Ht & Hm). destruct (detach_frame id w) as (Hthis & Hlog & Htm).
  split; [by apply detach_coherent|].
  split; [by eapply tidy_ext; [| | | |exact Ht]; rewrite ?Hthis|by rewrite Hthis].
Qed.

Lemma forget_absent id w :
  JsMap.get id (pendingRequests (this (forget id w))) = None.
Proof.
  unfold forget.
  destruct (JsMap.get id (pendingRequests (this w))) as [p|] eqn:Hp; [|done].
  simpl. apply get_delete_eq.
Qed.

Lemma tidy_from_forget m0 id w : tidy_from m0 w -> tidy_from m0 (forget id w).
Proof.
  intros (Hcoh & [Hp Hf] & Hm). split; [by apply forget_coherent|].
  destruct Hcoh as [(_ & Hent & _) _]. unfold forget.
  destruct (JsMap.get id (pendingRequests (this w))) as [p|] eqn:Hget; [|done].
  destruct (Hent _ (get_Some_elem _ _ _ Hget)) as [Hshape _]. simpl in Hshape.
  split; [split|done]; simpl; [|done].
  intros id' Hid'.
  assert (Hne : id ≠ id').
  { intros ->. rewrite get_delete_eq in Hid'. by destruct Hid'. }
  rewrite get_delete_ne in Hid' by done.
  rewrite Hshape. simpl. rewrite get_delete_ne by done. by apply Hp.
Qed.

(** Calling back a request that was issued leaves the identifiers not yet
    issued as they are. *)
Lemma tidy_from_settle m0 id e w :
  (forall id', id' ≠ id -> settles id' e = false) ->
  id < messageId (this w) ->
  tidy_from m0 w -> tidy_from m0 (out e w).
Proof.
  intros He Hlt (Hcoh & [Hp Hf] & Hm).
  split; [by eapply coherent_ext; [apply out_same_core|]|].
  split; [split|done]; simpl; [done|].
  intros id' Hid'.
  rewrite List.filter_app, (Hf id' Hid'); simpl. rewrite He; [done|lia].
Qed.

Lemma settles_other_resolve id id' v :
  id' ≠ id -> settles id' (Resolve id v) = false.
Proof. intros Hne. simpl. apply Nat.eqb_neq. congruence. Qed.

Lemma settles_other_reject id id' text :
  id' ≠ id -> settles id' (Reject id text) = false.
Proof. intros Hne. simpl. apply Nat.eqb_neq. congruence. Qed.

Lemma forget_messageId id w :
  messageId (this (forget id w)) = messageId (this w).
Proof.
  unfold forget. by destruct (JsMap.get id (pendingRequests (this w))).
Qed.

Lemma tidy_from_response m0 id data w :
  id < m0 -> tidy_from m0 w -> tidy_from m0 (handleResponse id data w).
Proof.
  intros Hid Hw.
  assert (Hsettled : forall e w0,
            (forall id', id' ≠ id -> settles id' e = false) ->
            tidy_from m0 w0 ->
            tidy_from m0 (out e (forget id (detach id w0)))).
  { intros e w0 He H0.
    pose proof (tidy_from_forget m0 id _ (tidy_from_detach m0 id _ H0)) as H1.
    eapply tidy_from_settle; [exact He| |exact H1].
    destruct H1 as (_ & _ & Hm). lia. }
  assert (Hcatch : forall w0, tidy_from m0 w0 ->
                              tidy_from m0 (handleResponse_catch id data w0)).
  { intros w0 H0. unfold handleResponse_catch.
    apply Hsettled; [intros id'; apply settles_other_resolve|].
    by apply tidy_from_out. }
  unfold handleResponse.
  destruct (JSON_parse data) as [response|]; [|by apply Hcatch].
  pose proof (tidy_from_out m0 (Console "log" "Received IPC response:") w
                eq_refl Hw) as H1.
  destruct (member "success" (Some response)) as [success|].
  - destruct (truthy success); apply Hsettled; try done; intros id'.
    + apply settles_other_resolve.
    + apply settles_other_reject.
  - by apply Hcatch, tidy_from_forget, tidy_from_detach.
Qed.

(** The timer callback, once its timer is cleared, does what the response
    handler does before it calls back. *)
Lemma timer_as_forget id cmd p w :
  JsMap.get id (pendingRequests (this w)) = Some p -> timeout p = id ->
  exists text,
    requestTimeout id cmd (clearTimeout id w)
    = out (Reject id text) (forget id (detach id w)).
Proof.
  intros Hp Hshape.
  exists ("Request timeout after " +:+ pretty (opt_timeout (options (this w)))
          +:+ "ms: " +:+ cmd).
  unfold requestTimeout, detach. cbn [clearTimeout with_timers this ws].
  destruct (ws (this w)) as [s|]; unfold forget; simpl;
    rewrite Hp, Hshape; reflexivity.
Qed.

Lemma tidy_from_timer m0 id cmd w :
  JsMap.get id (timers w) = Some cmd ->
  tidy_from m0 w -> tidy_from m0 (requestTimeout id cmd (clearTimeout id w)).
Proof.
  intros Harmed Hw. pose proof Hw as ([(_ & Hent & Harm) _] & _ & _).
  destruct (Harm _ _ Harmed) as [p Hp].
  destruct (Hent _ (get_Some_elem _ _ _ Hp)) as [Hshape Hlt]. simpl in Hshape, Hlt.
  destruct (timer_as_forget id cmd p w Hp) as [text ->]; [by rewrite Hshape|].
  eapply tidy_from_settle.
  - intros id'. apply settles_other_reject.
  - rewrite forget_messageId. by destruct (detach_frame id w) as (-> & _).
  - by apply tidy_from_forget, tidy_from_detach.
Qed.

(** Every delivery keeps [coherent] and [tidy]. *)
Lemma tidy_step i w : coherent w /\ tidy w -> coherent (step i w) /\ tidy (step i w).
Proof.
  intros [Hcoh Ht].
  assert (H : tidy_from (messageId (this w)) (step i w)).
  { apply (lift_step (preserves (tidy_from (messageId (this w))))
                     (fun id => id < messageId (this w))).
    - apply preserves_refl.
    - apply preserves_trans.
    - intros e w0 He H0. by apply tidy_from_out.
    - intros b w0 H0. by eapply tidy_from_ext; [| |exact H0]; repeat split.
    - intros v w0 H0. by eapply tidy_from_ext; [| |exact H0]; repeat split.
    - intros g s w0 H0. by apply tidy_from_readyState.
    - intros c w0 H0. by apply tidy_from_api.
    - intros w0 H0. by apply tidy_from_cleanup.
    - intros id data w0 Hid H0. by apply tidy_from_response.
    - intros id cmd w0 Harmed H0. by apply tidy_from_timer.
    - intros s data now k id _ Hk Hin. destruct Hcoh as [_ Hl].
      by apply (Hl _ _ Hk).
    - split; [done|]. split; [done|lia]. }
  destruct H as (? & ? & _). by split.
Qed.

Lemma tidy_run inputs w :
  coherent w /\ tidy w -> coherent (run inputs w) /\ tidy (run inputs w).
Proof.
  revert w. induction inputs as [|i inputs IH]; intros w Hw; simpl; [done|].
  by apply IH, tidy_step.
Qed.

Lemma tidy_new given_port given_timeout given_autoConnect env_disable :
  let w := WmClient_new given_port given_timeout given_autoConnect env_disable in
  coherent w /\ tidy w.
Proof.
  split; [apply consistent_coherent, consistent_new|].
  unfold WmClient_new.
  match goal with |- tidy (if _ then (connect ?w0).1 else _) =>
    assert (H0 : tidy_from 0 w0) end.
  { split; [split; [split; [|split]|]|split; [split|]]; simpl; try done.
    - apply NoDup_nil_2.
    - by intros entry ?%elem_of_nil. }
  match goal with |- tidy (if ?b then _ else _) => destruct b end.
  - by destruct (tidy_from_api 0 Connect _ H0) as (_ & ? & _).
  - by destruct H0 as (_ & ? & _).
Qed.

Lemma forget_log id w : log (forget id w) = log w.
Proof.
  unfold forget. by destruct (JsMap.get id (pendingRequests (this w))).
Qed.

(** ** The table, the timers and the listeners *)

(** Requests are pending only while the client is connected and holds a
    socket: from a new client, after any deliveries, a table that is not
    empty means [isConnected()] is true. *)
Theorem requests_are_pending_only_while_connected
  given_port given_timeout given_autoConnect env_disable inputs :
  let w := run inputs
             (WmClient_new given_port given_timeout given_autoConnect env_disable) in
  pendingRequests (this w) ≠ [] ->
  isConnected w = true /\ is_Some (ws (this w)).
Proof.
  intros w Hne.
  destruct (consistent_run inputs _
              (consistent_new given_port given_timeout given_autoConnect
                 env_disable)) as (_ & _ & Hlive).
  by apply Hlive.
Qed.

(** The table and the request timers go together: from a new client, after
    any deliveries, the keys of the table are distinct, each is an
    identifier already issued, and a request timer is armed exactly for the
    requests that are in the table. *)
Theorem request_timers_match_the_table
  given_port given_timeout given_autoConnect env_disable inputs :
  let w := run inputs
             (WmClient_new given_port given_timeout given_autoConnect env_disable) in
  NoDup (pendingRequests (this w)).*1 /\
  (forall id, is_Some (JsMap.get id (timers w)) <->
              is_Some (JsMap.get id (pendingRequests (this w)))) /\
  (forall id, is_Some (JsMap.get id (pendingRequests (this w))) ->
              id < messageId (this w)).
Proof.
  intros w.
  destruct (tidy_run inputs _
              (tidy_new given_port given_timeout given_autoConnect env_disable))
    as [[(Hnd & Hent & Harm) _] [Hp _]].
  fold w in Hnd, Hent, Harm, Hp.
  split; [done|]. split.
  - intros id. split.
    + intros [cmd Hcmd]. by eapply Harm.
    + apply Hp.
  - intros id [p Hid]. by destruct (Hent _ (get_Some_elem _ _ _ Hid)) as [_ ?].
Qed.

(** A request that is accepted takes an identifier that is new: from a new
    client, after any deliveries, the identifier handed out is the value of
    the counter, which then moves on by one; no entry, no timer and no
    response handler exists for it yet, and no callback has ever been
    called for it.  Accepting the request hands one frame, the command
    text, to the socket the client holds, and arms the timer with that
    text. *)
Theorem accepted_request_takes_a_new_identifier
  given_port given_timeout given_autoConnect env_disable inputs c w1 id :
  let w := run inputs
             (WmClient_new given_port given_timeout given_autoConnect env_disable) in
  api c w = (w1, AwaitsResponse id) ->
  id = messageId (this w) /\ messageId (this w1) = S id /\
  JsMap.get id (pendingRequests (this w)) = None /\
  JsMap.get id (timers w) = None /\
  (forall s k, sockets w !! s = Some k ->
               HandleResponse id ∉ message_listeners k) /\
  List.filter (settles id) (log w) = [] /\
  exists s cmd,
    ws (this w) = Some s /\ request_command c = Some cmd /\
    log w1 = log w ++ [Console "log" "Sending IPC command:"; Send s cmd] /\
    JsMap.get id (timers w1) = Some cmd.
Proof.
  intros w Hc.
  destruct (tidy_run inputs _
              (tidy_new given_port given_timeout given_autoConnect env_disable))
    as [[(Hnd & Hent & Harm) Hl] [_ Hf]].
  fold w in Hnd, Hent, Harm, Hl, Hf.
  assert (Hcmd : exists cmd, request_command c = Some cmd).
  { destruct c; simpl in Hc; try discriminate; try (by eexists).
    unfold connect in Hc.
    destruct (connected (this w) && bool_decide (is_Some (ws (this w))));
      [done|by destruct (valid_port _)]. }
  destruct Hcmd as [cmd Hcmd]. rewrite (api_request _ _ _ Hcmd) in Hc.
  destruct (sendRequest_registers _ _ _ _ Hc)
    as (-> & Hnext & _ & Htimer & _ & Hlog).
  assert (Hfresh : JsMap.get (messageId (this w)) (pendingRequests (this w)) = None).
  { destruct (JsMap.get (messageId (this w)) (pendingRequests (this w)))
      as [p|] eqn:Hp; [|done].
    destruct (Hent _ (get_Some_elem _ _ _ Hp)) as [_ Hlt]. simpl in Hlt. lia. }
  split; [done|]. split; [done|]. split; [done|]. split; [|split; [|split]].
  - destruct (JsMap.get (messageId (this w)) (timers w)) as [t|] eqn:Ht; [|done].
    destruct (Harm _ _ Ht) as [p Hp]. by rewrite Hfresh in Hp.
  - intros s k Hk Hin. destruct (Hl _ _ Hk) as [_ Hids].
    specialize (Hids _ Hin). lia.
  - by apply Hf.
  - unfold sendRequest in Hc.
    destruct (ws (this w)) as [s|] eqn:Hws; [|done].
    by exists s, cmd.
Qed.

(** *** Every frame reaches every response handler *)

Lemma socket_held_ext w w' :
  ws (this w') = ws (this w) -> length (sockets w') = length (sockets w) ->
  socket_held w -> socket_held w'.
Proof.
  intros Hws Hlen Hh s Hs. rewrite Hws in Hs.
  apply lookup_lt_is_Some. rewrite Hlen. apply lookup_lt_is_Some. by apply Hh.
Qed.

Lemma attached_ext w w' :
  pendingRequests (this w') = pendingRequests (this w) ->
  ws (this w') = ws (this w) -> sockets w' = sockets w ->
  attached w -> attached w'.
Proof. intros Hp Hws Hs Ha id. rewrite Hp, Hws, Hs. apply Ha. Qed.

Lemma linked_ext w w' :
  same_core w w' -> ws (this w') = ws (this w) ->
  connected (this w') = connected (this w) -> linked w -> linked w'.
Proof.
  intros Hsame Hws Hc (Hcons & Hheld & Hatt).
  pose proof Hsame as (_ & Hp & Hs & _).
  split; [by eapply consistent_ext|]. split.
  - eapply socket_held_ext; [done| |done]. by rewrite Hs.
  - by eapply attached_ext.
Qed.

Lemma linked_out e w : linked w -> linked (out e w).
Proof. apply linked_ext; [apply out_same_core|done..]. Qed.

Lemma elem_of_remove_first_ne x y l : y ≠ x -> y ∈ l -> y ∈ remove_first x l.
Proof.
  intros Hne. induction l as [|z l IH]; simpl; [done|].
  intros [->|Hin]%elem_of_cons.
  - rewrite decide_False by done. left.
  - destruct (decide (z = x)); [done|]. right. by apply IH.
Qed.

Lemma elem_of_remove_listener_ne x y l :
  y ≠ x -> y ∈ l -> y ∈ remove_listener x l.
Proof.
  intros Hne Hin. unfold remove_listener. rewrite elem_of_reverse.
  apply elem_of_remove_first_ne; [done|]. by apply elem_of_reverse.
Qed.

Lemma detach_keeps id id' w s k :
  id' ≠ id -> sockets w !! s = Some k ->
  HandleResponse id' ∈ message_listeners k ->
  exists k', sockets (detach id w) !! s = Some k' /\
             HandleResponse id' ∈ message_listeners k'.
Proof.
  intros Hne Hk Hin. unfold detach.
  destruct (ws (this w)) as [s0|]; [|by exists k].
  unfold off. simpl. rewrite list_lookup_alter.
  destruct (decide (s0 = s)) as [->|]; [|by exists k].
  rewrite Hk. simpl. eexists. split; [done|]. simpl.
  apply elem_of_remove_listener_ne; [congruence|done].
Qed.

Lemma detach_length id w : length (sockets (detach id w)) = length (sockets w).
Proof.
  unfold detach. destruct (ws (this w)); [|done].
  unfold off. simpl. apply length_alter.
Qed.

Lemma delete_absent {K V} `{EqDecision K} (k : K) (m : list (K * V)) :
  JsMap.get k m = None -> JsMap.delete k m = m.
Proof.
  induction m as [|[k' v] m IH]; simpl; [done|].
  destruct (decide (k' = k)); [done|]. intros Hm. by rewrite IH.
Qed.

Lemma forget_frame id w :
  pendingRequests (this (forget id w))
  = JsMap.delete id (pendingRequests (this w)) /\
  ws (this (forget id w)) = ws (this w) /\
  sockets (forget id w) = sockets w.
Proof.
  unfold forget.
  destruct (JsMap.get id (pendingRequests (this w))) as [p|] eqn:Hp; [done|].
  by rewrite delete_absent.
Qed.

Lemma attached_forget_detach id w :
  attached w -> attached (forget id (detach id w)).
Proof.
  intros Ha id' Hid'.
  destruct (forget_frame id (detach id w)) as (Hp & Hws & Hs).
  destruct (detach_frame id w) as (Hthis & _ & _).
  rewrite Hp, Hthis in Hid'. rewrite Hws, Hs, Hthis.
  assert (Hne : id ≠ id').
  { intros ->. rewrite get_delete_eq in Hid'. by destruct Hid'. }
  rewrite get_delete_ne in Hid' by done.
  destruct (Ha id' Hid') as (s & k & Hws0 & Hk & Hin).
  destruct (detach_keeps id id' w s k) as (k' & Hk' & Hin'); [done..|].
  by exists s, k'.
Qed.

Lemma linked_forget_detach id w : linked w -> linked (forget id (detach id w)).
Proof.
  intros (Hcons & Hheld & Hatt).
  split; [by apply forget_consistent, detach_consistent|].
  split; [|by apply attached_forget_detach].
  destruct (forget_frame id (detach id w)) as (_ & Hws & Hs).
  destruct (detach_frame id w) as (Hthis & _ & _).
  eapply socket_held_ext; [| |exact Hheld].
  - by rewrite Hws, Hthis.
  - by rewrite Hs, detach_length.
Qed.

Lemma linked_response id data w : linked w -> linked (handleResponse id data w).
Proof.
  intros Hw.
  assert (Hcatch : forall w0, linked w0 ->
                              linked (handleResponse_catch id data w0)).
  { intros w0 H0. unfold handleResponse_catch.
    by apply linked_out, linked_forget_detach, linked_out. }
  unfold handleResponse.
  destruct (JSON_parse data) as [response|]; [|by apply Hcatch].
  assert (H2 : linked (forget id (detach id
                  (out (Console "log" "Received IPC response:") w)))).
  { by apply linked_forget_detach, linked_out. }
  destruct (member "success" (Some response)) as [success|]; [|by apply Hcatch].
  destruct (truthy success); by apply linked_out.
Qed.

Lemma linked_timer id cmd w :
  JsMap.get id (timers w) = Some cmd ->
  linked w -> linked (requestTimeout id cmd (clearTimeout id w)).
Proof.
  intros Harmed Hw. pose proof Hw as (([(_ & Hent & Harm) _] & _ & _) & _ & _).
  destruct (Harm _ _ Harmed) as [p Hp].
  destruct (Hent _ (get_Some_elem _ _ _ Hp)) as [Hshape _]. simpl in Hshape.
  destruct (timer_as_forget id cmd p w Hp) as [text ->]; [by rewrite Hshape|].
  by apply linked_out, linked_forget_detach.
Qed.

Lemma disconnect_ws w : ws (this (disconnect w)) = None.
Proof.
  unfold disconnect.
  match goal with |- ws (this (cleanupPendingRequests ?w1)) = _ =>
    destruct (cleanup_this w1) as (_ & _ & -> & _) end.
  by destruct (ws (this w)) eqn:Hws.
Qed.

Lemma socket_held_sendRequest command w :
  socket_held w -> socket_held (sendRequest command w).1.
Proof.
  intros Hh. unfold sendRequest.
  destruct (ws (this w)) as [s|] eqn:Hws; [|done].
  destruct (connected (this w)); [|done].
  destruct (send_throws s _);
    (eapply socket_held_ext; [| |exact Hh]; simpl; [by rewrite Hws|]);
    apply length_alter.
Qed.

Lemma socket_held_readyState g s w :
  socket_held w -> socket_held (with_readyState g s w).
Proof.
  intros Hh. apply (socket_held_ext w); [done| |exact Hh].
  unfold with_readyState. simpl. apply length_alter.
Qed.

Lemma attached_readyState g s w : attached w -> attached (with_readyState g s w).
Proof.
  intros Ha id Hid. destruct (Ha id Hid) as (s0 & k & Hws & Hk & Hin).
  exists s0. unfold with_readyState. simpl. rewrite list_lookup_alter.
  destruct (decide (s = s0)) as [->|].
  - rewrite Hk. simpl. eexists. split; [done|]. split; [done|]. done.
  - by exists k.
Qed.

Lemma linked_readyState g s w : linked w -> linked (with_readyState g s w).
Proof.
  intros (Hcons & Hheld & Hatt). split; [by apply consistent_readyState|].
  split; [by apply socket_held_readyState|by apply attached_readyState].
Qed.

Lemma socket_held_api c w : socket_held w -> socket_held (api c w).1.
Proof.
  intros Hh.
  destruct c; cbn [api fst]; try (by apply socket_held_sendRequest);
    try (by eapply socket_held_ext; [| |exact Hh]).
  - unfold connect.
    destruct (connected (this w) && bool_decide (is_Some (ws (this w))));
      [done|].
    destruct (valid_port _); [|by eapply socket_held_ext; [| |exact Hh]].
    intros s Hs. simpl in Hs. injection Hs as <-. simpl.
    apply lookup_lt_is_Some. rewrite length_app. simpl. lia.
  - intros s Hs. by rewrite disconnect_ws in Hs.
  - destruct (subscribe_same_core eventType handler w)
      as ((_ & _ & Hs & _) & Hws & _).
    eapply socket_held_ext; [done| |done]. by rewrite Hs.
  - destruct (unsubscribe_same_core eventType handler w)
      as ((_ & _ & Hs & _) & Hws & _).
    eapply socket_held_ext; [done| |done]. by rewrite Hs.
Qed.

Lemma attached_sendRequest command w :
  socket_held w -> attached w -> attached (sendRequest command w).1.
Proof.
  intros Hheld Hatt. unfold sendRequest.
  destruct (ws (this w)) as [s|] eqn:Hws; [|done].
  destruct (Hheld s Hws) as [k0 Hk0].
  destruct (connected (this w)); [|done].
  match goal with |- context [send_throws s ?w5] =>
    assert (H5 : attached w5);
    [|destruct (send_throws s w5); by eapply attached_ext; [| | |exact H5]]
  end.
  intros id' Hid'. simpl in Hid'. simpl. rewrite Hws.
  unfold on. simpl.
  destruct (decide (messageId (this w) = id')) as [<-|Hne].
  - eexists s, _. split; [done|]. split.
    + rewrite list_lookup_alter_eq, Hk0. done.
    + simpl. apply elem_of_app. right. left.
  - rewrite get_set_ne in Hid' by done.
    destruct (Hatt id' Hid') as (s1 & k & Hws1 & Hk & Hin).
    rewrite Hws in Hws1. injection Hws1 as <-.
    eexists s, _. split; [done|]. split.
    + rewrite list_lookup_alter_eq, Hk. done.
    + simpl. apply elem_of_app. by left.
Qed.

Lemma linked_api c w : linked w -> linked (api c w).1.
Proof.
  intros Hw. pose proof Hw as (Hcons & Hheld & Hatt).
  split; [by apply consistent_api|]. split; [by apply socket_held_api|].
  destruct c; cbn [api fst];
    try (by apply attached_sendRequest);
    try (by eapply attached_ext; [| | |exact Hatt]).
  - unfold connect.
    destruct (connected (this w) && bool_decide (is_Some (ws (this w))))
      eqn:Hg; [done|].
    assert (Hempty : pendingRequests (this w) = []).
    { destruct (pendingRequests (this w)) as [|e es] eqn:Hp; [done|].
      destruct Hcons as (_ & _ & Hlive). rewrite Hp in Hlive.
      destruct Hlive as [Hc Hs]; [done|].
      by rewrite Hc, bool_decide_eq_true_2 in Hg. }
    destruct (valid_port _);
      intros id Hid; simpl in Hid; rewrite Hempty in Hid; by destruct Hid.
  - intros id Hid. unfold disconnect, cleanupPendingRequests in Hid.
    simpl in Hid. by destruct Hid.
  - destruct (subscribe_same_core eventType handler w)
      as ((_ & Hp & Hs & _) & Hws & _).
    by eapply attached_ext.
  - destruct (unsubscribe_same_core eventType handler w)
      as ((_ & Hp & Hs & _) & Hws & _).
    by eapply attached_ext.
Qed.

Lemma linked_observers tag hs a w :
  linked w -> linked (forEach_observers tag hs a w).
Proof.
  apply (lift_forEach_observers (preserves linked)).
  - apply preserves_refl.
  - apply preserves_trans.
  - intros e w0 _ H0. by apply linked_out.
  - intros c w0 H0. by apply linked_api.
Qed.

Lemma socket_held_observers tag hs a w :
  socket_held w -> socket_held (forEach_observers tag hs a w).
Proof.
  apply (lift_forEach_observers (preserves socket_held)).
  - apply preserves_refl.
  - apply preserves_trans.
  - intros e w0 _ H0. by eapply socket_held_ext; [| |exact H0].
  - intros c w0 H0. by apply socket_held_api.
Qed.

Lemma linked_socketMessage listeners data now w :
  linked w -> linked (socketMessage listeners data now w).
Proof.
  apply (lift_socketMessage (preserves linked) (fun _ => True)).
  - apply preserves_refl.
  - apply preserves_trans.
  - intros e w0 _ H0. by apply linked_out.
  - intros c w0 H0. by apply linked_api.
  - intros id d w0 _ H0. by apply linked_response.
  - done.
Qed.

(** Every delivery keeps [linked]. *)
Lemma linked_step i w : linked w -> linked (step i w).
Proof.
  intros Hw. pose proof Hw as (Hcons & Hheld & Hatt).
  pose proof (consistent_step i w Hcons) as Hcons'.
  destruct i as [c|s|s data now|s message|s|handle|s|message]; simpl in *.
  - by apply linked_api.
  - destruct (sockets w !! s); [|done]. unfold socketOpen.
    apply linked_out, linked_observers.
    destruct (linked_readyState (fun _ => OPEN) s w Hw)
      as (Hcons0 & Hheld0 & Hatt0).
    split; [|split].
    + destruct Hcons0 as (Hcoh & Hplace & Hlive).
      split; [by eapply coherent_ext; [|exact Hcoh]|]. split; [done|].
      simpl. intros Hne. split; [done|]. by apply Hlive.
    + by eapply socket_held_ext; [| |exact Hheld0].
    + by eapply attached_ext; [| | |exact Hatt0].
  - destruct (sockets w !! s); [|done]. by apply linked_socketMessage.
  - destruct (sockets w !! s); [|done]. unfold socketError.
    by apply linked_out, linked_observers, linked_out, linked_readyState.
  - destruct (sockets w !! s); [|done]. unfold socketClose in *.
    split; [done|]. split.
    + match goal with |- socket_held (cleanupPendingRequests ?w3) =>
        destruct (cleanup_this w3) as (_ & _ & Hws & _ & Hs);
        eapply (socket_held_ext w3); [done|by rewrite Hs|] end.
      apply socket_held_observers.
      by eapply socket_held_ext;
        [| |exact (socket_held_readyState (fun _ => CLOSED) s w Hheld)].
    + intros id Hid. unfold cleanupPendingRequests in Hid. simpl in Hid.
      by destruct Hid.
  - destruct (JsMap.get handle (timers w)) eqn:Ht; [|done].
    by apply linked_timer.
  - destruct (bool_decide _); [|done]. unfold connectTimeout in *. simpl in *.
    assert (H1 : linked (with_connectTimers
                           (filter (fun t => t ≠ s) (connectTimers w)) w)).
    { by eapply linked_ext; [| | |exact Hw]; repeat split. }
    destruct (connected (this w)); [done|].
    by apply linked_out, linked_observers.
  - by apply linked_out.
Qed.

Lemma linked_run inputs w : linked w -> linked (run inputs w).
Proof.
  revert w. induction inputs as [|i inputs IH]; intros w Hw; simpl; [done|].
  by apply IH, linked_step.
Qed.

Lemma linked_new given_port given_timeout given_autoConnect env_disable :
  linked (WmClient_new given_port given_timeout given_autoConnect env_disable).
Proof.
  split; [apply consistent_new|].
  unfold WmClient_new.
  match goal with |- context [if ?b then _ else _] => destruct b end.
  - unfold connect. simpl. destruct (valid_port _); split.
    + intros s Hs. simpl in Hs. injection Hs as <-. by eexists.
    + by intros id [? ?].
    + by intros s Hs.
    + by intros id [? ?].
  - split.
    + by intros s Hs.
    + by intros id [? ?].
Qed.

Lemma settles_outcome id id' data :
  settles id' (outcome id data) = Nat.eqb id id'.
Proof.
  unfold outcome. destruct (JSON_parse data) as [response|]; [|done].
  destruct (member "success" (Some response)) as [success|]; [|done].
  by destruct (truthy success).
Qed.

(** One run of the response handler: the entry of its request leaves the
    table, and the last thing it does is to call one callback of the
    request. *)
Lemma handleResponse_outcome id data w :
  pendingRequests (this (handleResponse id data w))
  = JsMap.delete id (pendingRequests (this w)) /\
  exists l, log (handleResponse id data w) = log w ++ l ++ [outcome id data] /\
            forall id', List.filter (settles id') l = [].
Proof.
  assert (Hcore : forall e0 w0,
            pendingRequests (this (forget id (detach id (out e0 w0))))
            = JsMap.delete id (pendingRequests (this w0)) /\
            log (forget id (detach id (out e0 w0))) = log w0 ++ [e0]).
  { intros e0 w0.
    destruct (forget_frame id (detach id (out e0 w0))) as (-> & _ & _).
    rewrite forget_log.
    by destruct (detach_frame id (out e0 w0)) as (-> & -> & _). }
  unfold outcome, handleResponse, handleResponse_catch.
  destruct (JSON_parse data) as [response|].
  - destruct (Hcore (Console "log" "Received IPC response:") w) as [Hp Hl].
    destruct (member "success" (Some response)) as [success|].
    + destruct (truthy success); (split; [done|]);
        exists [Console "log" "Received IPC response:"];
        rewrite log_out, Hl, <- app_assoc; done.
    + match goal with |- context [out (Console "error" ?t) ?w2] =>
        destruct (Hcore (Console "error" t) w2) as [Hp2 Hl2] end.
      split.
      * cbn [out this]. rewrite Hp2, Hp. apply delete_absent, get_delete_eq.
      * exists [Console "log" "Received IPC response:";
                Console "error" "Failed to parse response:"].
        rewrite log_out, Hl2, Hl, <- !app_assoc. done.
  - destruct (Hcore (Console "error" "Failed to parse response:") w) as [Hp Hl].
    split; [done|].
    exists [Console "error" "Failed to parse response:"].
    rewrite log_out, Hl, <- app_assoc. done.
Qed.

Lemma get_all_None {K V} `{EqDecision K} (m : list (K * V)) :
  (forall k, JsMap.get k m = None) -> m = [].
Proof.
  destruct m as [|[k v] m]; [done|]. intros Hm. specialize (Hm k).
  simpl in Hm. by rewrite decide_True in Hm.
Qed.

(** One frame that is not an event, given to a list of listeners: every
    response handler of the list runs, whatever request it belongs to. *)
Lemma socketMessage_outcomes listeners data now w :
  is_event_frame data = false -> NoDup listeners ->
  let w' := socketMessage listeners data now w in
  (forall id, HandleResponse id ∈ listeners \/
              JsMap.get id (pendingRequests (this w)) = None ->
              JsMap.get id (pendingRequests (this w')) = None) /\
  exists l, log w' = log w ++ l /\
            forall id, List.filter (settles id) l
                       = if bool_decide (HandleResponse id ∈ listeners)
                         then [outcome id data] else [].
Proof.
  intros Hframe. unfold socketMessage. revert w.
  induction listeners as [|x listeners IH]; intros w Hnd; cbn [fold_left].
  - split; [by intros id [?%elem_of_nil|?]|].
    exists []. rewrite app_nil_r. split; [done|]. intros id.
    rewrite bool_decide_eq_false_2; [done|]. apply not_elem_of_nil.
  - apply list.NoDup_cons in Hnd as [Hx Hnd].
    destruct x as [|id0].
    + destruct (handleMessage_logs data now w Hframe) as (e & -> & He).
      destruct (IH (out e w) Hnd) as (Hp & l & Hl & Hf).
      split.
      * intros id [Hin|Hid]; apply Hp; [|by right].
        apply elem_of_cons in Hin as [?|Hin]; [done|by left].
      * exists (e :: l). rewrite Hl. simpl.
        rewrite <- app_assoc. split; [done|]. intros id. simpl.
        assert (Hs : settles id e = false) by (by destruct e).
        rewrite Hs, Hf.
        destruct (decide (HandleResponse id ∈ listeners)) as [Hin|Hout].
        -- rewrite (bool_decide_eq_true_2 (HandleResponse id ∈ listeners)) by done.
           by rewrite bool_decide_eq_true_2 by by right.
        -- rewrite (bool_decide_eq_false_2 (HandleResponse id ∈ listeners)) by done.
           rewrite bool_decide_eq_false_2; [done|].
           intros [?|?]%elem_of_cons; done.
    + destruct (handleResponse_outcome id0 data w) as (Hp0 & l0 & Hl0 & Hf0).
      destruct (IH (handleResponse id0 data w) Hnd) as (Hp & l & Hl & Hf).
      split.
      * intros id [Hin|Hid]; apply Hp.
        -- apply elem_of_cons in Hin as [[= ->]|Hin]; [|by left].
           right. rewrite Hp0. apply get_delete_eq.
        -- right. rewrite Hp0. by apply get_delete_None.
      * exists (l0 ++ [outcome id0 data] ++ l).
        rewrite Hl, Hl0, <- !app_assoc. split; [done|]. intros id.
        rewrite !List.filter_app, Hf0, Hf. simpl. rewrite settles_outcome.
        destruct (decide (id0 = id)) as [->|Hne].
        -- rewrite Nat.eqb_refl.
           rewrite (bool_decide_eq_false_2 (HandleResponse id ∈ listeners)) by done.
           by rewrite bool_decide_eq_true_2 by left.
        -- apply Nat.eqb_neq in Hne as Hneb. rewrite Hneb. simpl.
           destruct (decide (HandleResponse id ∈ listeners)) as [Hin|Hout].
           ++ rewrite (bool_decide_eq_true_2 (HandleResponse id ∈ listeners))
                by done.
              by rewrite bool_decide_eq_true_2 by by right.
           ++ rewrite (bool_decide_eq_false_2 (HandleResponse id ∈ listeners))
                by done.
              rewrite bool_decide_eq_false_2; [done|].
              intros [[= ?]|?]%elem_of_cons; done.
Qed.

(** A frame is given to every response handler of the socket, and a
    response handler does not look for an identifier in the frame.  So,
    from a new client and after any deliveries, a frame that is not an
    event and arrives on the socket the client holds completes every
    request that is pending: each has one of its callbacks called, once,
    with what this frame decodes to; afterwards the table is empty and no
    request timer is armed. *)
Theorem frame_completes_every_pending_request
  given_port given_timeout given_autoConnect env_disable inputs s data now :
  let w := run inputs
             (WmClient_new given_port given_timeout given_autoConnect env_disable) in
  ws (this w) = Some s ->
  is_event_frame data = false ->
  let w' := step (SocketMessage s data now) w in
  (forall id, is_Some (JsMap.get id (pendingRequests (this w))) ->
              List.filter (settles id) (performed w w') = [outcome id data]) /\
  pendingRequests (this w') = [] /\
  (forall id, JsMap.get id (timers w') = None).
Proof.
  intros w Hws Hframe w'.
  assert (Hw : linked w) by apply linked_run, linked_new.
  pose proof Hw as (Hcons & Hheld & Hatt).
  pose proof (consistent_step (SocketMessage s data now) w Hcons)
    as ([(_ & _ & Harm) _] & _ & _).
  fold w' in Harm.
  destruct (Hheld s Hws) as [k Hk].
  pose proof Hcons as ([_ Hl] & _ & _). destruct (Hl _ _ Hk) as [Hnd _].
  assert (Hw' : w' = socketMessage (message_listeners k) data now w).
  { unfold w'. simpl. by rewrite Hk. }
  destruct (socketMessage_outcomes (message_listeners k) data now w Hframe Hnd)
    as (Hp & l & Hlog & Hf).
  rewrite <- Hw' in Hp, Hlog.
  assert (Hin : forall id, is_Some (JsMap.get id (pendingRequests (this w))) ->
                           HandleResponse id ∈ message_listeners k).
  { intros id Hid. destruct (Hatt id Hid) as (s1 & k1 & Hws1 & Hk1 & Hin).
    rewrite Hws in Hws1. injection Hws1 as <-.
    rewrite Hk in Hk1. by injection Hk1 as <-. }
  assert (Hempty : pendingRequests (this w') = []).
  { apply get_all_None. intros id. apply Hp.
    destruct (JsMap.get id (pendingRequests (this w))) as [p|] eqn:Hid;
      [left; apply Hin; by eexists|by right]. }
  split; [|split; [done|]].
  - intros id Hid. rewrite (performed_app _ _ _ Hlog), Hf.
    by rewrite bool_decide_eq_true_2 by by apply Hin.
  - intros id. destruct (JsMap.get id (timers w')) as [cmd|] eqn:Hcmd; [|done].
    destruct (Harm _ _ Hcmd) as [p Hp']. by rewrite Hempty in Hp'.
Qed.

(** ** An accepted request is completed once *)

Lemma undisturbed_refl id w : undisturbed id w w.
Proof. split; [done|]. by intros _ Hu. Qed.

Lemma undisturbed_trans id w1 w2 w3 :
  undisturbed id w1 w2 -> undisturbed id w2 w3 -> undisturbed id w1 w3.
Proof.
  intros [Hm1 H1] [Hm2 H2]. split; [lia|].
  intros Hid Hu. apply H2; [lia|]. by apply H1.
Qed.

(** The entry of the request has left the table. *)
Lemma undisturbed_gone id w w' :
  messageId (this w) <= messageId (this w') ->
  JsMap.get id (pendingRequests (this w')) = None -> undisturbed id w w'.
Proof.
  intros Hm Hn. split; [done|]. intros _ _ [p Hp]. congruence.
Qed.

(** The table gains no entry for the request and the log no call of its
    callbacks. *)
Lemma undisturbed_quiet id w w' l :
  messageId (this w) <= messageId (this w') ->
  (id < messageId (this w) ->
   is_Some (JsMap.get id (pendingRequests (this w'))) ->
   is_Some (JsMap.get id (pendingRequests (this w)))) ->
  log w' = log w ++ l ->
  (id < messageId (this w) -> List.filter (settles id) l = []) ->
  undisturbed id w w'.
Proof.
  intros Hm Hp Hl Hf. split; [done|]. intros Hid Hu Hin.
  rewrite Hl, List.filter_app, (Hf Hid), (Hu (Hp Hid Hin)). done.
Qed.

Lemma undisturbed_same id w w' :
  messageId (this w') = messageId (this w) ->
  pendingRequests (this w') = pendingRequests (this w) ->
  log w' = log w -> undisturbed id w w'.
Proof.
  intros Hm Hp Hl. apply (undisturbed_quiet id w w' []);
    [lia | by rewrite Hp | by rewrite app_nil_r | done].
Qed.

(** The callbacks of the request [id'] are called last, and its entry
    leaves the table. *)
Lemma undisturbed_settle id id' w w' l e :
  messageId (this w) <= messageId (this w') ->
  pendingRequests (this w') = JsMap.delete id' (pendingRequests (this w)) ->
  log w' = log w ++ l ++ [e] ->
  List.filter (settles id) l = [] -> settles id e = Nat.eqb id' id ->
  undisturbed id w w'.
Proof.
  intros Hm Hp Hl Hf He. destruct (decide (id' = id)) as [->|Hne].
  - apply undisturbed_gone; [done|]. rewrite Hp. apply get_delete_eq.
  - apply (undisturbed_quiet id w w' (l ++ [e])); [done| |done|].
    + intros _. by rewrite Hp, get_delete_ne.
    + intros _. rewrite List.filter_app, Hf. simpl. rewrite He.
      apply Nat.eqb_neq in Hne. by rewrite Hne.
Qed.

Lemma undisturbed_sendRequest id command w :
  undisturbed id w (sendRequest command w).1.
Proof.
  unfold sendRequest.
  destruct (ws (this w)) as [s|];
    [destruct (connected (this w)); [destruct (send_throws s _)|]|];
    try apply undisturbed_refl.
  - apply (undisturbed_quiet id w _
             [Console "log" "Sending IPC command:";
              Reject (messageId (this w)) not_open]); simpl.
    + lia.
    + intros Hid. rewrite get_set_ne by lia. done.
    + by rewrite <- app_assoc.
    + intros Hid.
      assert (Hne : Nat.eqb (messageId (this w)) id = false)
        by (apply Nat.eqb_neq; lia).
      by rewrite Hne.
  - apply (undisturbed_quiet id w _
             [Console "log" "Sending IPC command:"; Send s command]); simpl.
    + lia.
    + intros Hid. rewrite get_set_ne by lia. done.
    + by rewrite <- app_assoc.
    + done.
Qed.

Lemma undisturbed_cleanup id w : undisturbed id w (cleanupPendingRequests w).
Proof.
  destruct (cleanup_this w) as (_ & Hm & _).
  apply undisturbed_gone; [lia|done].
Qed.

Lemma undisturbed_api id c w : undisturbed id w (api c w).1.
Proof.
  destruct c; cbn [api fst];
    try (by apply undisturbed_sendRequest);
    try (by apply undisturbed_same).
  - unfold connect.
    destruct (connected (this w) && bool_decide (is_Some (ws (this w))));
      [apply undisturbed_refl|].
    destruct (valid_port _); cbn [fst];
      by eapply (undisturbed_quiet id w _ [_]).
  - destruct (timer_frame_api id Disconnect w) as (_ & Hm & _).
    by apply undisturbed_gone.
  - destruct (subscribe_same_core eventType handler w) as ((Hm & Hp & _) & _).
    apply undisturbed_same; [done..|].
    unfold subscribe.
    destruct (JsMap.has eventType (eventSubscriptions (this w))); simpl;
      match goal with |- context [JsMap.get ?k ?m] =>
        destruct (JsMap.get k m) end; done.
  - destruct (unsubscribe_same_core eventType handler w) as ((Hm & Hp & _) & _).
    apply undisturbed_same; [done..|].
    unfold unsubscribe.
    destruct (JsMap.get eventType (eventSubscriptions (this w))) as [r|];
      [destruct (arrays w !! r) as [hs|];
       [destruct (indexOf handler hs)|]|]; done.
Qed.

Lemma undisturbed_response id id' data w :
  undisturbed id w (handleResponse id' data w).
Proof.
  destruct (timer_frame_response id id' data w) as (_ & Hm & _).
  destruct (handleResponse_outcome id' data w) as (Hp & l & Hl & Hf).
  eapply undisturbed_settle; [done..|apply settles_outcome].
Qed.

Lemma undisturbed_timer id id' cmd w :
  undisturbed id w (requestTimeout id' cmd (clearTimeout id' w)).
Proof.
  apply (undisturbed_settle id id' w _ []
           (Reject id'
              ("Request timeout after "
               +:+ pretty (opt_timeout (options (this w))) +:+ "ms: " +:+ cmd))).
  - unfold requestTimeout, detach. cbn [clearTimeout with_timers this ws].
    by destruct (ws (this w)).
  - unfold requestTimeout, detach. cbn [clearTimeout with_timers this ws].
    by destruct (ws (this w)).
  - unfold requestTimeout, detach. cbn [clearTimeout with_timers this ws].
    destruct (ws (this w)); reflexivity.
  - done.
  - done.
Qed.

(** No delivery calls a callback of a request while the request stays in
    the table. *)
Lemma undisturbed_step id i w : undisturbed id w (step i w).
Proof.
  apply (lift_step (undisturbed id) (fun _ => True)).
  - apply undisturbed_refl.
  - apply undisturbed_trans.
  - intros e w0 He. apply (undisturbed_quiet id w0 _ [e]); try done.
    intros _. by destruct e.
  - intros b w0. by apply undisturbed_same.
  - intros v w0. by apply undisturbed_same.
  - intros g s w0. by apply undisturbed_same.
  - intros c w0. apply undisturbed_api.
  - intros w0. apply undisturbed_cleanup.
  - intros id' data w0 _. apply undisturbed_response.
  - intros id' cmd w0 _. apply undisturbed_timer.
  - done.
Qed.

Lemma undisturbed_run id inputs w : undisturbed id w (run inputs w).
Proof.
  revert w. induction inputs as [|i inputs IH]; intros w; simpl.
  - apply undisturbed_refl.
  - eapply undisturbed_trans; [apply undisturbed_step | apply IH].
Qed.

(** A call that hands out the identifier [id] is one of the five that
    issue a request. *)
Lemma accepted_command c w w1 id :
  api c w = (w1, AwaitsResponse id) ->
  exists cmd, request_command c = Some cmd.
Proof.
  intros Hc. destruct c; simpl in Hc; try discriminate; try (by eexists).
  unfold connect in Hc.
  destruct (connected (this w) && bool_decide (is_Some (ws (this w))));
    [done|by destruct (valid_port _)].
Qed.

(** From a new client, after any deliveries, once a request is accepted
    and whatever is delivered next, the client is consistent, the timers
    follow the table, and the request has not been called back if it is
    still in the table. *)
Lemma accepted_request_runs
  given_port given_timeout given_autoConnect env_disable inputs c w1 id later :
  api c (run inputs
           (WmClient_new given_port given_timeout given_autoConnect env_disable))
  = (w1, AwaitsResponse id) ->
  consistent (run later w1) /\ tidy (run later w1) /\
  unsettled id (run later w1).
Proof.
  set (w := run inputs _). intros Hc.
  assert (Hw : consistent w) by apply consistent_run, consistent_new.
  destruct (tidy_run inputs _
              (tidy_new given_port given_timeout given_autoConnect env_disable))
    as [Hcoh Ht].
  fold w in Hcoh, Ht.
  assert (Hw1 : w1 = step (Api c) w) by (simpl; by rewrite Hc).
  split; [rewrite Hw1; by apply consistent_run, consistent_step|].
  split.
  { rewrite Hw1. by apply tidy_run, tidy_step. }
  destruct (accepted_command _ _ _ _ Hc) as [cmd Hcmd].
  rewrite (api_request _ _ _ Hcmd) in Hc.
  destruct (sendRequest_registers _ _ _ _ Hc)
    as (Hid & Hnext & _ & _ & _ & Hlog).
  destruct (undisturbed_run id later w1) as [_ Hu]. apply Hu; [lia|].
  intros _. rewrite Hlog, !List.filter_app.
  destruct Ht as [_ Hf]. rewrite (Hf id) by lia.
  by destruct (ws (this w)).
Qed.

(** From a new client, after any deliveries, a request that has been
    accepted - its frame was handed to the socket - and is still in the
    table, whatever has been delivered since, has had none of its callbacks
    called, and its timer is armed. *)
Theorem accepted_request_is_not_called_while_pending
  given_port given_timeout given_autoConnect env_disable inputs c w1 id later :
  let w := run inputs
             (WmClient_new given_port given_timeout given_autoConnect env_disable) in
  api c w = (w1, AwaitsResponse id) ->
  let w' := run later w1 in
  is_Some (JsMap.get id (pendingRequests (this w'))) ->
  List.filter (settles id) (log w') = [] /\ is_Some (JsMap.get id (timers w')).
Proof.
  intros w Hc w' Hin.
  destruct (accepted_request_runs _ _ _ _ _ _ _ _ later Hc)
    as (_ & [Hp _] & Hu).
  split; [by apply Hu|by apply Hp].
Qed.

(** A timeout completes an accepted request exactly once: from a new
    client, after any deliveries, when a request has been accepted and,
    whatever has been delivered since, its timer is still armed and fires,
    the whole history - before, at and after the timer - holds one call of
    a callback of that request, the rejection made by the timer. *)
Theorem timed_out_request_is_called_once
  given_port given_timeout given_autoConnect env_disable inputs c w1 id
  middle later :
  let w := run inputs
             (WmClient_new given_port given_timeout given_autoConnect env_disable) in
  api c w = (w1, AwaitsResponse id) ->
  let w2 := run middle w1 in
  is_Some (JsMap.get id (timers w2)) ->
  exists text,
    List.filter (settles id) (log (run later (step (RequestTimer id) w2)))
    = [Reject id text].
Proof.
  intros w Hc w2 [cmd Harmed].
  destruct (accepted_request_runs _ _ _ _ _ _ _ _ middle Hc)
    as (Hw2 & _ & Hu).
  fold w2 in Hw2, Hu.
  pose proof Hw2 as ([(_ & Hent & Harm) _] & _ & _).
  destruct (Harm _ _ Harmed) as [p Hget].
  destruct (Hent _ (get_Some_elem _ _ _ Hget)) as [Hshape _]. simpl in Hshape.
  pose proof (Hu (ex_intro _ p Hget)) as Hbefore.
  destruct (timer_retires id cmd w2 Hw2 Harmed) as [Hid Hr].
  destruct (silent_run id later (step (RequestTimer id) w2)) as [_ Hs].
  destruct (Hs Hid Hr) as (_ & l & Hl & Hf).
  destruct (timer_as_forget id cmd p w2 Hget) as [text Htimer];
    [by rewrite Hshape|].
  exists text. rewrite Hl. simpl. rewrite Harmed, Htimer. simpl.
  rewrite forget_log. destruct (detach_frame id w2) as (_ & -> & _).
  rewrite !List.filter_app, Hbefore, Hf. simpl. by rewrite Nat.eqb_refl.
Qed.

(** A response completes an accepted request exactly once as well: from a
    new client, after any deliveries, when a request has been accepted and,
    whatever has been delivered since, it is the one request outstanding
    with its timer armed and a frame that is not an event reaches the
    socket, the whole history holds one call of a callback of that request:
    the one its response handler ends with. *)
Theorem answered_request_is_called_once
  given_port given_timeout given_autoConnect env_disable inputs c w1 id
  middle s data now later :
  let w := run inputs
             (WmClient_new given_port given_timeout given_autoConnect env_disable) in
  api c w = (w1, AwaitsResponse id) ->
  let w2 := run middle w1 in
  sole_request s id w2 ->
  is_Some (JsMap.get id (timers w2)) ->
  is_event_frame data = false ->
  List.filter (settles id) (log (run later (step (SocketMessage s data now) w2)))
  = [outcome id data].
Proof.
  intros w Hc w2 (Hws & (k & Hk & Hl) & Hp) Harmed Hframe.
  destruct (accepted_request_runs _ _ _ _ _ _ _ _ middle Hc)
    as (Hw2 & _ & Hu).
  fold w2 in Hw2, Hu.
  assert (Hbefore : List.filter (settles id) (log w2) = []).
  { apply Hu. rewrite Hp. simpl. rewrite decide_True by done. by eexists. }
  destruct (handleMessage_logs data now w2 Hframe) as (e0 & He0 & Hpassive).
  assert (Hw' : step (SocketMessage s data now) w2
                = handleResponse id data (out e0 w2)).
  { simpl. rewrite Hk, Hl. simpl. by rewrite He0. }
  destruct (response_retires id data (out e0 w2)) as [Hid Hr];
    [by apply out_consistent | done |].
  rewrite <- Hw' in Hid, Hr.
  destruct (silent_run id later (step (SocketMessage s data now) w2)) as [_ Hs].
  destruct (Hs Hid Hr) as (_ & l & Hlog & Hf).
  destruct (handleResponse_outcome id data (out e0 w2)) as (_ & l1 & Hl1 & Hf1).
  rewrite Hlog, Hw', Hl1. simpl.
  rewrite !List.filter_app, Hbefore, (Hf1 id), Hf. simpl.
  assert (Hs0 : settles id e0 = false) by (by destruct e0).
  by rewrite Hs0, settles_outcome, Nat.eqb_refl.
Qed.

(** ** The connection life cycle *)

(** No method of the client calls a user callback: the handlers given to
    [onConnect], [onDisconnect], [onError] and [subscribe] run only from
    the listeners of the socket and from the connection timer.  In
    particular [disconnect()] does not call the disconnect handlers
    itself. *)
Theorem no_method_calls_a_user_callback c w :
  exists l, log (api c w).1 = log w ++ l /\ forall h a, Invoke h a ∉ l.
Proof.
  destruct (api_log c w) as (l & Hl & Hf). exists l. split; [done|].
  intros h a Hin.
  assert (Hd : Invoke h a ∈ List.filter is_delivery l).
  { apply list_elem_of_In, List.filter_In. split; [|done].
    by apply list_elem_of_In. }
  rewrite Hf in Hd. by apply elem_of_nil in Hd.
Qed.

Lemma forEach_observers_log tag hs a w :
  exists l, log (forEach_observers tag hs a w) = log w ++ l /\
            List.filter is_delivery l = flat_map (delivery tag a) hs.
Proof.
  revert w. induction hs as [|h hs IH]; intros w; simpl.
  - exists []. by rewrite app_nil_r.
  - destruct (invoke_log tag h a w) as (l1 & Hl1 & Hf1).
    destruct (IH (invoke tag h a w)) as (l2 & Hl2 & Hf2).
    exists (l1 ++ l2). unfold forEach_observers in *.
    rewrite Hl2, Hl1, <- app_assoc. split; [done|].
    by rewrite List.filter_app, Hf1, Hf2.
Qed.

(** When a socket opens, every handler registered with [onConnect] is
    called once, without argument, in the order of registration; a handler
    that throws has its exception logged and the handlers after it are
    called all the same; the promise of [connect()] is resolved after the
    last of them. *)
Theorem open_calls_connect_handlers s w :
  is_Some (sockets w !! s) ->
  exists l,
    log (step (SocketOpen s) w)
    = log w ++ [Console "log" "Connected to GlazeWM IPC"] ++ l
        ++ [ConnectResolve s] /\
    List.filter is_delivery l
    = flat_map (delivery "Error in connect handler:" NoArg)
               (connectHandlers (this w)).
Proof.
  intros [k Hk]. simpl. rewrite Hk. unfold socketOpen.
  match goal with |- context [forEach_observers ?tag ?hs ?a ?w0] =>
    destruct (forEach_observers_log tag hs a w0) as (l & Hl & Hf) end.
  exists l. split; [|exact Hf]. rewrite log_out, Hl. simpl.
  by rewrite <- !app_assoc.
Qed.

(** When a socket reports an error with a message, every handler
    registered with [onError] is called once with the error, in the order
    of registration and whatever the earlier ones do, and then the promise
    of [connect()] is rejected with "Failed to connect to GlazeWM IPC: "
    followed by the message. *)
Theorem error_calls_error_handlers s message w :
  is_Some (sockets w !! s) -> message ≠ "" ->
  exists l,
    log (step (SocketError s message) w)
    = log w ++ [Console "error" "WebSocket error:"] ++ l
        ++ [ConnectReject s ("Failed to connect to GlazeWM IPC: " +:+ message)] /\
    List.filter is_delivery l
    = flat_map (delivery "Error in error handler:" (ErrorArg message))
               (errorHandlers (this w)).
Proof.
  intros [k Hk] _. simpl. rewrite Hk. unfold socketError.
  match goal with |- context [forEach_observers ?tag ?hs ?a ?w0] =>
    destruct (forEach_observers_log tag hs a w0) as (l & Hl & Hf) end.
  exists l. split; [|exact Hf]. rewrite log_out, Hl. simpl.
  by rewrite <- !app_assoc.
Qed.

(** When a socket closes - from a new client, after any deliveries - every
    handler registered with [onDisconnect] is called once, in the order of
    registration; and whatever these handlers do, afterwards the client is
    not connected, the table of pending requests is empty and no request
    timer is armed. *)
Theorem close_ends_the_connection
  given_port given_timeout given_autoConnect env_disable inputs s :
  let w := run inputs
             (WmClient_new given_port given_timeout given_autoConnect env_disable) in
  is_Some (sockets w !! s) ->
  let w' := step (SocketClose s) w in
  List.filter is_delivery (performed w w')
  = flat_map (delivery "Error in disconnect handler:" NoArg)
             (disconnectHandlers (this w)) /\
  connected (this w') = false /\
  pendingRequests (this w') = [] /\
  (forall id, JsMap.get id (timers w') = None).
Proof.
  intros w [k Hk] w'.
  assert (Hw : consistent w) by apply consistent_run, consistent_new.
  unfold w'. simpl. rewrite Hk. unfold socketClose.
  set (w0 := with_readyState (fun _ => CLOSED) s w).
  set (w2 := with_this
               (with_connected false
                  (this (out (Console "log" "WebSocket connection closed") w0)))
               (out (Console "log" "WebSocket connection closed") w0)).
  set (w3 := forEach_observers "Error in disconnect handler:"
               (disconnectHandlers (this w2)) NoArg w2).
  assert (H2 : closed w2).
  { split; [|done].
    eapply coherent_ext;
      [|exact (consistent_coherent w0 (consistent_readyState _ s w Hw))].
    by repeat split. }
  assert (H3 : closed w3) by (by apply observers_closed).
  destruct (forEach_observers_log "Error in disconnect handler:"
              (disconnectHandlers (this w2)) NoArg w2) as (l & Hl & Hf).
  fold w3 in Hl.
  pose proof (cleanup_consistent w3 (proj1 H3)) as ([(_ & _ & Harm) _] & _ & _).
  destruct (cleanup_this w3) as (_ & _ & _ & Hconn & _).
  split; [|split; [|split]].
  - unfold cleanupPendingRequests.
    destruct (cleanup_loop (pendingRequests (this w3)) w3)
      as (_ & _ & _ & _ & _ & Hlog).
    erewrite performed_app.
    2:{ simpl. rewrite Hlog, Hl. simpl. rewrite <- !app_assoc. reflexivity. }
    simpl. rewrite List.filter_app, Hf, filter_rejects by done.
    by rewrite app_nil_r.
  - rewrite Hconn. by destruct H3.
  - done.
  - intros id. destruct (JsMap.get id (timers (cleanupPendingRequests w3)))
      as [cmd|] eqn:Hcmd; [|done].
    by destruct (Harm _ _ Hcmd).
Qed.

(** The connection timer of a socket consults the client, not the socket,
    and nothing cancels it.  When it fires on a client that is connected it
    does nothing at all.  When it fires on a client that is not connected -
    also after the socket has already reported an error - every handler
    registered with [onError] is called once with the timeout error, and
    then the promise of [connect()] is rejected with that error. *)
Theorem connection_timer_reports_timeout s w :
  s ∈ connectTimers w ->
  let w' := step (ConnectTimer s) w in
  if connected (this w) then log w' = log w
  else
    exists l,
      log w' = log w ++ l ++ [ConnectReject s connection_timeout] /\
      List.filter is_delivery l
      = flat_map (delivery "Error in error handler:" (ErrorArg connection_timeout))
                 (errorHandlers (this w)).
Proof.
  intros Hs. simpl. rewrite bool_decide_eq_true_2 by done.
  unfold connectTimeout. simpl.
  destruct (connected (this w)); [done|].
  match goal with |- context [forEach_observers ?tag ?hs ?a ?w0] =>
    destruct (forEach_observers_log tag hs a w0) as (l & Hl & Hf) end.
  exists l. split; [|exact Hf]. rewrite log_out, Hl. simpl.
  by rewrite <- !app_assoc.
Qed.

(** [connect()] reuses nothing while the client is not connected.  With a
    port that a URL can carry (0 to 65535), called again before the socket
    has opened, it creates a second socket to the same port, still
    connecting, and arms a second connection timer; the client then holds
    the second socket, and the first one keeps its listeners and its timer.
    With any other port the constructor of the socket throws: the promise
    is rejected at once, and no socket is created, no timer is armed and the
    client holds the socket it held before. *)
Theorem connect_again_before_open_creates_second_socket w :
  connected (this w) = false ->
  let n := length (sockets w) in
  let k := {| url_port := port (options (this w)); readyState := CONNECTING;
              message_listeners := [HandleMessage] |} in
  let w1 := (connect w).1 in
  let w2 := (connect w1).1 in
  if valid_port (port (options (this w))) then
    (connect w).2 = AwaitsConnection n /\
    (connect w1).2 = AwaitsConnection (S n) /\
    ws (this w2) = Some (S n) /\
    sockets w2 = sockets w ++ [k; k] /\
    connectTimers w2 = connectTimers w ++ [n; S n]
  else
    (exists message, (connect w).2 = Rejected message) /\
    ws (this w1) = ws (this w) /\
    sockets w1 = sockets w /\
    connectTimers w1 = connectTimers w.
Proof.
  intros Hc. unfold connect. rewrite Hc. simpl.
  destruct (valid_port (port (options (this w)))) eqn:Hp; simpl.
  - rewrite Hc, Hp. simpl.
    rewrite length_app, Nat.add_1_r, <- !app_assoc. done.
  - split; [by eexists|done].
Qed.

(** [new WmClient(options)] applies the defaults - port 6123 and timeout
    10000 when the option is absent or 0 - and connects at once unless the
    option [autoConnect] is [false] or the environment variable is "true"
    or "1".  When it does not connect it performs no effect and holds no
    socket; when it does and the port is one a URL can carry (0 to 65535),
    it creates one socket to the port, still connecting, and arms its
    connection timer; when it does and the port is any other number, the
    constructor of the socket throws after the log line, and the client
    holds no socket and no timer.  In every case the client starts not
    connected, with no pending request. *)
Theorem constructor_connects_unless_disabled
  given_port given_timeout given_autoConnect env_disable :
  let w := WmClient_new given_port given_timeout given_autoConnect env_disable in
  let p := match given_port with
           | Some z => if Z.eqb z 0 then 6123%Z else z
           | None => 6123%Z
           end in
  let t := match given_timeout with
           | Some z => if Z.eqb z 0 then 10000%Z else z
           | None => 10000%Z
           end in
  let disabled :=
    bool_decide (given_autoConnect = Some false)
    || bool_decide (env_disable = Some "true")
    || bool_decide (env_disable = Some "1") in
  port (options (this w)) = p /\ opt_timeout (options (this w)) = t /\
  autoConnect (options (this w)) = negb disabled /\
  connected (this w) = false /\ pendingRequests (this w) = [] /\
  if disabled
  then log w = [] /\ ws (this w) = None /\ sockets w = [] /\ connectTimers w = []
  else
    log w = [Console "log"
               ("Connecting to GlazeWM IPC on port " +:+ pretty p +:+ "...")] /\
    if valid_port p then
      ws (this w) = Some 0 /\
      sockets w = [{| url_port := p; readyState := CONNECTING;
                      message_listeners := [HandleMessage] |}] /\
      connectTimers w = [0]
    else ws (this w) = None /\ sockets w = [] /\ connectTimers w = [].
Proof.
  unfold WmClient_new.
  assert (Henv : (match env_disable with
                  | Some e => String.eqb e "true" || String.eqb e "1"
                  | None => false
                  end)
                 = bool_decide (env_disable = Some "true")
                   || bool_decide (env_disable = Some "1")).
  { destruct env_disable as [e|]; [|done].
    destruct (String.eqb_spec e "true") as [->|Hne1]; [done|].
    destruct (String.eqb_spec e "1") as [->|Hne2]; [done|].
    rewrite !bool_decide_eq_false_2; [done|congruence..]. }
  rewrite Henv.
  destruct given_autoConnect as [[|]|];
    destruct (bool_decide (env_disable = Some "true"));
    destruct (bool_decide (env_disable = Some "1")); simpl; try done;
    unfold connect; simpl;
    match goal with |- context [valid_port ?p] => destruct (valid_port p) end;
    done.
Qed.

(** ** What a query hands back *)

(** [queryMonitors], [queryWorkspaces], [queryWindows] and [queryFocused]
    read one member of the value their request was resolved with.  When
    that value is [undefined] or [null] - a success frame without [data] -
    the read throws; otherwise the query hands back the member when it is
    truthy and the whole value when it is not.  So a query never hands back
    [undefined] or [null]. *)
Theorem query_hands_back_member_or_response k response :
  match unwrap k response with
  | Throw => response = None \/ response = Some JNull
  | Normal r =>
      exists v, response = Some v /\ v ≠ JNull /\
                r = (if truthy (prop k v) then prop k v else Some v) /\
                r ≠ None /\ r ≠ Some JNull
  end.
Proof.
  unfold unwrap, member, js_or.
  destruct response as [v|]; [|by left].
  assert (Hv : forall r, prop k v = r -> v ≠ JNull ->
             (if truthy r then r else Some v) ≠ None /\
             (if truthy r then r else Some v) ≠ Some JNull).
  { intros r _ Hne. destruct r as [[]|]; simpl; try done;
      repeat match goal with |- context [if ?b then _ else _] => destruct b end;
      split; congruence. }
  destruct v; try (by right);
    (eexists; split; [done|]; split; [done|]; split; [done|]; by apply Hv).
Qed.

(** ** [subscribeMany] *)

Lemma arrays_ok_ext w w' :
  eventSubscriptions (this w') = eventSubscriptions (this w) ->
  arrays w' = arrays w -> arrays_ok w -> arrays_ok w'.
Proof. intros He Ha Hok kind r. rewrite He, Ha. apply Hok. Qed.

Lemma sendRequest_subscriptions command w :
  eventSubscriptions (this (sendRequest command w).1)
  = eventSubscriptions (this w) /\
  arrays (sendRequest command w).1 = arrays w.
Proof.
  unfold sendRequest.
  destruct (ws (this w));
    [destruct (connected (this w)); [destruct (send_throws _ _)|]|]; done.
Qed.

Lemma disconnect_subscriptions w :
  eventSubscriptions (this (disconnect w)) = eventSubscriptions (this w).
Proof.
  unfold disconnect, cleanupPendingRequests.
  destruct (ws (this w)) as [s|]; simpl;
    match goal with |- context [fold_left ?f ?es ?w0] =>
      destruct (cleanup_loop es w0) as (-> & _) end; done.
Qed.

Lemma subscribe_arrays_ok kind h w : arrays_ok w -> arrays_ok (subscribe kind h w).
Proof.
  intros Hok. unfold subscribe, JsMap.has.
  destruct (JsMap.get kind (eventSubscriptions (this w))) as [r|] eqn:Hk.
  - rewrite Hk. intros kind' r' Hr'. simpl in *.
    apply lookup_lt_is_Some. rewrite length_alter.
    apply lookup_lt_is_Some. by eapply Hok.
  - simpl. rewrite get_set_eq. intros kind' r' Hr'. simpl in *.
    apply lookup_lt_is_Some. rewrite length_alter, length_app. simpl.
    destruct (decide (kind = kind')) as [->|Hne].
    + rewrite get_set_eq in Hr'. injection Hr' as <-. lia.
    + rewrite get_set_ne in Hr' by done.
      destruct (Hok _ _ Hr') as [hs Hhs]. apply lookup_lt_Some in Hhs. lia.
Qed.

Lemma arrays_ok_api c w : arrays_ok w -> arrays_ok (api c w).1.
Proof.
  intros Hok.
  assert (Hsend : forall command, arrays_ok (sendRequest command w).1).
  { intros command.
    destruct (sendRequest_subscriptions command w) as [He Ha].
    by eapply arrays_ok_ext. }
  destruct c; cbn [api fst]; try apply Hsend;
    try (by eapply arrays_ok_ext; [| |exact Hok]).
  - unfold connect.
    destruct (connected (this w) && bool_decide (is_Some (ws (this w))));
      [done|].
    destruct (valid_port _); by eapply arrays_ok_ext; [| |exact Hok].
  - eapply arrays_ok_ext; [apply disconnect_subscriptions
                          |apply disconnect_arrays|done].
  - by apply subscribe_arrays_ok.
  - unfold unsubscribe.
    destruct (JsMap.get eventType (eventSubscriptions (this w))) as [r|];
      [|done].
    destruct (arrays w !! r) as [hs|]; [|done].
    destruct (indexOf handler hs); [|done].
    intros kind' r' Hr'. simpl in *.
    apply lookup_lt_is_Some. rewrite length_insert.
    apply lookup_lt_is_Some. by eapply Hok.
  - by intros kind r Hr.
Qed.

Lemma subscribe_subscribes kind h w :
  arrays_ok w -> subscribed kind h (subscribe kind h w).
Proof.
  intros Hok. unfold subscribed, subscribers, subscribe, JsMap.has.
  destruct (JsMap.get kind (eventSubscriptions (this w))) as [r|] eqn:Hk.
  - rewrite Hk. simpl. rewrite Hk. simpl.
    destruct (Hok _ _ Hk) as [hs Hhs].
    exists (hs ++ [h]). rewrite list_lookup_alter_eq, Hhs. split; [done|].
    apply elem_of_app. right. left.
  - simpl. rewrite get_set_eq. simpl. rewrite get_set_eq. simpl.
    exists [h]. rewrite list_lookup_alter_eq, lookup_app_r, Nat.sub_diag by done.
    split; [done|]. left.
Qed.

(** A call other than [unsubscribe] and [unsubscribeAll] removes no
    subscription. *)
Lemma subscribed_api c kind h w :
  keeps_subscriptions c = true ->
  subscribed kind h w -> subscribed kind h (api c w).1.
Proof.
  intros Hc (hs & Hs & Hin). unfold subscribers in Hs.
  destruct (JsMap.get kind (eventSubscriptions (this w))) as [r|] eqn:Hk;
    [|done].
  simpl in Hs.
  assert (Hsame : forall w',
            eventSubscriptions (this w') = eventSubscriptions (this w) ->
            arrays w' = arrays w -> subscribed kind h w').
  { intros w' He Ha. exists hs. unfold subscribers. by rewrite He, Hk, Ha. }
  destruct c; cbn [api fst keeps_subscriptions] in *; try discriminate;
    try (by apply Hsame);
    try (unfold queryMonitors, queryWorkspaces, queryWindows, queryFocused,
           runCommand;
         match goal with |- subscribed _ _ (sendRequest ?cmd w).1 =>
           destruct (sendRequest_subscriptions cmd w) as [He Ha];
           by apply Hsame end).
  - unfold connect.
    destruct (connected (this w) && bool_decide (is_Some (ws (this w))));
      [by apply Hsame|].
    destruct (valid_port _); by apply Hsame.
  - apply Hsame; [apply disconnect_subscriptions|apply disconnect_arrays].
  - unfold subscribed, subscribers, subscribe, JsMap.has.
    destruct (JsMap.get eventType (eventSubscriptions (this w))) as [r0|] eqn:Hk0.
    + rewrite Hk0. simpl. rewrite Hk. simpl. rewrite list_lookup_alter.
      destruct (decide (r0 = r)) as [->|Hne].
      * rewrite Hs. simpl. eexists. split; [done|]. apply elem_of_app. by left.
      * by exists hs.
    + simpl. rewrite get_set_eq. simpl.
      assert (Hne : eventType ≠ kind) by (intros ->; congruence).
      rewrite get_set_ne, Hk by done. simpl. rewrite list_lookup_alter.
      apply lookup_lt_Some in Hs as Hlt.
      rewrite decide_False by lia.
      rewrite lookup_app_l by done. by exists hs.
Qed.

Lemma subscribed_run_calls cs kind h w :
  (forall c, c ∈ cs -> keeps_subscriptions c = true) ->
  subscribed kind h w -> subscribed kind h (run_calls cs w).
Proof.
  revert w. induction cs as [|c cs IH]; intros w Hcs Hw; simpl; [done|].
  apply IH; [intros c' Hc'; apply Hcs; by right|].
  apply subscribed_api; [apply Hcs; left|done].
Qed.

Lemma arrays_ok_run_calls cs w : arrays_ok w -> arrays_ok (run_calls cs w).
Proof.
  revert w. induction cs as [|c cs IH]; intros w Hw; simpl; [done|].
  by apply IH, arrays_ok_api.
Qed.

Lemma others_head (others : list (list call)) :
  (forall cs c, cs ∈ others -> c ∈ cs -> keeps_subscriptions c = true) ->
  (forall c, c ∈ hd [] others -> keeps_subscriptions c = true) /\
  (forall cs c, cs ∈ tail others -> c ∈ cs -> keeps_subscriptions c = true).
Proof.
  intros Ho. destruct others as [|cs0 others]; simpl.
  - split; [by intros c ?%elem_of_nil|by intros cs c ?%elem_of_nil].
  - split; [intros c Hc; by apply (Ho cs0); [left|]|].
    intros cs c Hcs Hc. apply (Ho cs); [by right|done].
Qed.

Lemma subscribeMany_keeps eventTypes handler others kind h w :
  (forall cs c, cs ∈ others -> c ∈ cs -> keeps_subscriptions c = true) ->
  arrays_ok w -> subscribed kind h w ->
  arrays_ok (subscribeMany eventTypes handler others w) /\
  subscribed kind h (subscribeMany eventTypes handler others w).
Proof.
  revert others w.
  induction eventTypes as [|t rest IH]; intros others w Ho Hok Hw; simpl;
    [done|].
  destruct (others_head others Ho) as [Hhd Htl].
  apply IH; [done| |].
  - by apply arrays_ok_run_calls, subscribe_arrays_ok.
  - apply subscribed_run_calls; [done|].
    by apply (subscribed_api (Subscribe t handler)).
Qed.

Lemma settle_subscriptions id w :
  eventSubscriptions (this (forget id (detach id w)))
  = eventSubscriptions (this w) /\
  arrays (forget id (detach id w)) = arrays w.
Proof.
  unfold forget, detach.
  destruct (ws (this w)) as [s|]; simpl;
    destruct (JsMap.get id (pendingRequests (this w))); done.
Qed.

Lemma arrays_ok_settle e id w :
  arrays_ok w -> arrays_ok (out e (forget id (detach id w))).
Proof.
  destruct (settle_subscriptions id w) as [He Ha].
  by apply arrays_ok_ext.
Qed.

Lemma arrays_ok_response id data w :
  arrays_ok w -> arrays_ok (handleResponse id data w).
Proof.
  intros Hw. unfold handleResponse, handleResponse_catch.
  destruct (JSON_parse data) as [response|].
  - assert (H1 : arrays_ok (out (Console "log" "Received IPC response:") w))
      by (by eapply arrays_ok_ext; [| |exact Hw]).
    destruct (member "success" (Some response)) as [success|].
    + destruct (truthy success); by apply arrays_ok_settle.
    + apply arrays_ok_settle.
      eapply arrays_ok_ext; [| |apply (arrays_ok_settle
        (Console "error" "Failed to parse response:") id _ H1)]; done.
  - apply arrays_ok_settle. by eapply arrays_ok_ext; [| |exact Hw].
Qed.

(** Every delivery keeps the subscription map within the heap. *)
Lemma arrays_ok_step i w : arrays_ok w -> arrays_ok (step i w).
Proof.
  apply (lift_step (preserves arrays_ok) (fun _ => True)).
  - apply preserves_refl.
  - apply preserves_trans.
  - intros e w0 _ H0. by eapply arrays_ok_ext; [| |exact H0].
  - intros b w0 H0. by eapply arrays_ok_ext; [| |exact H0].
  - intros v w0 H0. by eapply arrays_ok_ext; [| |exact H0].
  - intros g s w0 H0. by eapply arrays_ok_ext; [| |exact H0].
  - intros c w0 H0. by apply arrays_ok_api.
  - intros w0 H0. unfold cleanupPendingRequests.
    destruct (cleanup_loop (pendingRequests (this w0)) w0)
      as (Hthis & _ & Ha & _).
    eapply arrays_ok_ext; [| |exact H0]; simpl; [by rewrite Hthis|done].
  - intros id data w0 _ H0. by apply arrays_ok_response.
  - intros id cmd w0 _ H0. unfold requestTimeout.
    eapply arrays_ok_ext; [| |exact H0]; unfold detach, clearTimeout; simpl;
      by destruct (ws (this w0)).
  - done.
Qed.

Lemma arrays_ok_run inputs w : arrays_ok w -> arrays_ok (run inputs w).
Proof.
  revert w. induction inputs as [|i inputs IH]; intros w Hw; simpl; [done|].
  by apply IH, arrays_ok_step.
Qed.

Lemma arrays_ok_new given_port given_timeout given_autoConnect env_disable :
  arrays_ok (WmClient_new given_port given_timeout given_autoConnect env_disable).
Proof.
  unfold WmClient_new, connect.
  match goal with |- context [if ?b then _ else _] => destruct b end;
    [simpl; destruct (valid_port _)|]; by intros kind r Hr.
Qed.

Lemma subscribeMany_each eventTypes handler others w :
  (forall cs c, cs ∈ others -> c ∈ cs -> keeps_subscriptions c = true) ->
  arrays_ok w ->
  forall eventType, eventType ∈ eventTypes ->
    subscribed eventType handler (subscribeMany eventTypes handler others w).
Proof.
  revert others w.
  induction eventTypes as [|t rest IH]; intros others w Ho Hok eventType Hin;
    [by apply elem_of_nil in Hin|].
  simpl. destruct (others_head others Ho) as [Hhd Htl].
  assert (Hok' : arrays_ok (run_calls (hd [] others) (subscribe t handler w)))
    by (by apply arrays_ok_run_calls, subscribe_arrays_ok).
  apply elem_of_cons in Hin as [->|Hin]; [|by apply IH].
  apply subscribeMany_keeps; [done..|].
  apply subscribed_run_calls; [done|]. by apply subscribe_subscribes.
Qed.

(** [subscribeMany] subscribes the handler to every event type of the
    list: from a new client, after any deliveries, and whatever calls other
    code makes on the client while [subscribeMany] is suspended between two
    subscriptions, short of [unsubscribe] and [unsubscribeAll], the handler
    has an entry for each listed type once the loop is over. *)
Theorem subscribeMany_subscribes_to_every_type
  given_port given_timeout given_autoConnect env_disable inputs
  eventTypes handler others eventType :
  let w := run inputs
             (WmClient_new given_port given_timeout given_autoConnect env_disable) in
  (forall cs c, cs ∈ others -> c ∈ cs -> keeps_subscriptions c = true) ->
  eventType ∈ eventTypes ->
  subscribed eventType handler (subscribeMany eventTypes handler others w).
Proof.
  intros w Ho Hin. apply subscribeMany_each; [done| |done].
  apply arrays_ok_run, arrays_ok_new.
Qed.

(** ** [checkGlazeWMRunning] *)

Lemma prefix_spec needle hay :
  String.prefix needle hay = true <-> exists rest, hay = needle +:+ rest.
Proof.
  revert hay. induction needle as [|a needle IH]; intros hay.
  - split; [intros _; exists hay; reflexivity|by destruct hay].
  - destruct hay as [|c hay]; [split; [done|by intros [rest ?]]|].
    cbn [String.prefix]. destruct (ascii_dec a c) as [->|Hne].
    + rewrite IH. split.
      * intros [rest ->]. by exists rest.
      * intros [rest Hr]. injection Hr as ->. by exists rest.
    + split; [done|]. intros [rest Hr]. injection Hr as ? _. congruence.
Qed.

Lemma includes_spec needle hay :
  includes needle hay = true <->
  exists before rest, hay = before +:+ needle +:+ rest.
Proof.
  induction hay as [|c hay IH]; cbn [includes].
  - rewrite orb_false_r, prefix_spec. split.
    + intros [rest ->]. by exists "", rest.
    + intros (before & rest & Hh). destruct before; [by exists rest|done].
  - rewrite orb_true_iff, IH, prefix_spec. split.
    + intros [[rest ->]|(before & rest & ->)].
      * by exists "", rest.
      * by exists (String c before), rest.
    + intros (before & rest & Hh). destruct before as [|b before].
      * left. by exists rest.
      * right. injection Hh as -> ->. by exists before, rest.
Qed.

(** [checkGlazeWMRunning] answers "not running" only when [tasklist] could
    be run and "glazewm.exe" occurs nowhere in what it printed.  When the
    command cannot be run the answer is "running", with a warning on the
    console. *)
Theorem check_answers_running_when_it_cannot_tell execSync :
  ((checkGlazeWMRunning execSync).1 = false <->
   exists result, execSync = Some result /\
     forall before rest, result ≠ before +:+ "glazewm.exe" +:+ rest) /\
  ((checkGlazeWMRunning execSync).2 ≠ [] <-> execSync = None).
Proof.
  destruct execSync as [result|]; simpl.
  - split; [|split; [done|by intros [=]]].
    rewrite <- not_true_iff_false, includes_spec. split.
    + intros Hnot. exists result. split; [done|].
      intros before rest ->. apply Hnot. by exists before, rest.
    + intros (r & [= <-] & Hr) (before & rest & ->). by eapply Hr.
  - split; [|done]. split; [done|]. by intros (r & [=] & _).
Qed.

End Client.

(** * Concrete runs *)

(** C1: a response that arrives after [disconnect()].  The cleanup rejects
    request 0 but leaves its response handler on the socket; the frame then
    runs that handler, which finds no entry in the table and calls
    [resolve] all the same: the callbacks of the request are called
    twice. *)
Lemma late_response_after_disconnect :
  let w := run decode Scenario.quiet
             (Scenario.one_request ++ [Api Disconnect]) Scenario.fresh in
  let w' := step decode Scenario.quiet
              (SocketMessage 0 Scenario.success_frame 0) w in
  List.filter (settles 0) (log w) = [Reject 0 "Connection closed"] /\
  pendingRequests (this w) = [] /\
  List.filter (settles 0) (log w')
  = [Reject 0 "Connection closed"; Resolve 0 (Some (JNum 1))].
Proof. vm_compute. done. Qed.

(** The same within one delivery: request 0 is outstanding, an event frame
    arrives, and the subscriber disconnects the client while it handles the
    event.  The cleanup rejects the request; the response handler, still
    on the list of the emission, then rejects it again. *)
Lemma disconnect_inside_event_handler :
  let w := run decode Scenario.leaver
             (Scenario.live ++ [Api (Subscribe "focus_changed" 1);
                                Api QueryMonitors]) Scenario.fresh in
  let w' := step decode Scenario.leaver
              (SocketMessage 0 (Scenario.event_frame "{}") 7) w in
  List.filter (settles 0) (performed w w')
  = [Reject 0 "Connection closed"; Reject 0 "Command failed"].
Proof. vm_compute. done. Qed.

(** The same frame after the timeout of the request has fired calls
    nothing: the timer callback detached the handler. *)
Lemma late_response_after_timeout :
  let w := run decode Scenario.quiet
             (Scenario.one_request ++ [RequestTimer 0]) Scenario.fresh in
  let w' := step decode Scenario.quiet
              (SocketMessage 0 Scenario.success_frame 0) w in
  List.filter (settles 0) (log w')
  = [Reject 0 "Request timeout after 50ms: query monitors"].
Proof. vm_compute. done. Qed.

(** A request made on a socket that is still connecting.  [connect()] is
    called twice and the first socket opens: the client is connected and
    holds the second socket, which has not opened.  [send] throws, the
    promise of [queryMonitors()] is rejected with what was thrown, and the
    entry and the timer of request 0 stay behind: when the timer fires, the
    callback [reject] of the request is called a second time. *)
Lemma request_on_connecting_socket_is_rejected :
  let w := run decode Scenario.quiet
             [Api Connect; Api Connect; SocketOpen 0] Scenario.fresh in
  let w1 := (api QueryMonitors w).1 in
  (api QueryMonitors w).2 = Rejected not_open /\
  performed w w1
  = [Console "log" "Sending IPC command:"; Reject 0 not_open] /\
  JsMap.get 0 (timers w1) = Some "query monitors" /\
  List.filter (settles 0)
    (log (step decode Scenario.quiet (RequestTimer 0) w1))
  = [Reject 0 not_open;
     Reject 0 "Request timeout after 50ms: query monitors"].
Proof. vm_compute. done. Qed.

(** The two theorems on final completions, at request 0 of the scenario:
    whatever is delivered after its timeout, or after its response, none of
    its callbacks is called again. *)
Lemma timed_out_request_instance later :
  let w := run decode Scenario.quiet Scenario.one_request Scenario.fresh in
  let w' := step decode Scenario.quiet (RequestTimer 0) w in
  List.filter (settles 0) (performed w' (run decode Scenario.quiet later w')) = [].
Proof.
  apply (timed_out_request_is_never_called_again decode Scenario.quiet
           None (Some 50%Z) (Some false) None Scenario.one_request 0 later).
  by eexists.
Qed.

Lemma answered_request_instance later :
  let w := run decode Scenario.quiet Scenario.one_request Scenario.fresh in
  let w' := step decode Scenario.quiet
              (SocketMessage 0 Scenario.success_frame 0) w in
  List.filter (settles 0) (performed w' (run decode Scenario.quiet later w')) = [].
Proof.
  apply (answered_request_is_never_called_again decode Scenario.quiet
           None (Some 50%Z) (Some false) None Scenario.one_request 0 0
           Scenario.success_frame 0 later).
  - split; [reflexivity|]. split; [|reflexivity]. eexists. split; reflexivity.
  - by eexists.
  - reflexivity.
Qed.

(** C3: a failed response whose error string is empty.  The message of
    the rejection is "Command failed", not the error string of the
    response. *)
Lemma empty_error_string_gets_fallback :
  let w := run decode Scenario.quiet Scenario.one_request Scenario.fresh in
  let w' := step decode Scenario.quiet
              (SocketMessage 0 (Scenario.failure_frame "") 0) w in
  decode (Scenario.failure_frame "")
  = Some (JObj [("success", JBool false); ("error", JStr "")]) /\
  performed w w' = [Console "log" "IPC message:";
                    Console "log" "Received IPC response:";
                    Reject 0 "Command failed"] /\
  "Command failed" ≠ "".
Proof. vm_compute. done. Qed.

(** C4: a frame that is not JSON resolves the outstanding request with the
    text of the frame; the request is not rejected. *)
Lemma undecodable_frame_is_a_result :
  let w := run decode Scenario.quiet Scenario.one_request Scenario.fresh in
  let w' := step decode Scenario.quiet (SocketMessage 0 "not json" 0) w in
  decode "not json" = None /\
  List.filter (settles 0) (performed w w')
  = [Resolve 0 (Some (JStr "not json"))].
Proof. vm_compute. done. Qed.

(** C5: [{"type":"focus_changed","data":0}] has both members, and the
    subscribers of "focus_changed" are not called. *)
Lemma event_with_falsy_data_is_not_dispatched :
  let w := run decode Scenario.quiet Scenario.two_subscribers Scenario.fresh in
  let w' := step decode Scenario.quiet
              (SocketMessage 0 (Scenario.event_frame "0") 0) w in
  decode (Scenario.event_frame "0")
  = Some (JObj [("type", JStr "focus_changed"); ("data", JNum 0)]) /\
  subscribers "focus_changed" w = Some [1; 2] /\
  performed w w' = [Console "log" "IPC message:"].
Proof. vm_compute. done. Qed.

(** C6: a handler that listens once.  Handlers 1 and 2 are subscribed to
    "focus_changed" and handler 1 unsubscribes itself while it handles the
    event.  [unsubscribe] splices the array [forEach] is reading: handler 2
    moves to the index already visited, and the dispatch ends without
    calling it.  Handler 2, subscribed all along, misses the event. *)
Lemma handler_after_one_shot_is_skipped :
  let w := run decode Scenario.one_shot Scenario.two_subscribers Scenario.fresh in
  let w' := step decode Scenario.one_shot
              (SocketMessage 0 (Scenario.event_frame "{}") 7) w in
  subscribers "focus_changed" w = Some [1; 2] /\
  performed w w'
  = [Invoke 1 (EventArg (JObj [("type", JStr "focus_changed");
                               ("timestamp", JNum 7)]))] /\
  subscribers "focus_changed" w' = Some [2].
Proof. vm_compute. done. Qed.


(** ** The theorems at work *)

Lemma sole_request_after_query :
  sole_request 0 0
    (run decode Scenario.quiet Scenario.one_request Scenario.fresh).
Proof.
  split; [reflexivity|]. split; [|reflexivity].
  eexists. split; reflexivity.
Defined.

(** [{"success":false,"error":"no such window"}] rejects the request with
    "no such window". *)
Lemma failed_command_rejects_request_witness :
  let w := run decode Scenario.quiet Scenario.one_request Scenario.fresh in
  let w' := step decode Scenario.quiet
              (SocketMessage 0 (Scenario.failure_frame "no such window") 0) w in
  log w' = log w ++ [Console "log" "IPC message:";
                     Console "log" "Received IPC response:";
                     Reject 0 "no such window"] /\
  pendingRequests (this w') = [].
Proof.
  destruct (failed_command_rejects_request decode Scenario.quiet 0 0
              (Scenario.failure_frame "no such window") 0
              [("success", JBool false); ("error", JStr "no such window")]
              _ sole_request_after_query)
    as (Hlog & Hempty & _); [reflexivity..|].
  split; [exact Hlog | exact Hempty].
Defined.

Lemma undecodable_frame_resolves_request_witness :
  let w := run decode Scenario.quiet Scenario.one_request Scenario.fresh in
  let w' := step decode Scenario.quiet (SocketMessage 0 "not json" 0) w in
  log w' = log w ++ [Console "error" "Failed to parse message:";
                     Console "error" "Failed to parse response:";
                     Resolve 0 (Some (JStr "not json"))] /\
  pendingRequests (this w') = [] /\
  JsMap.get 0 (timers w') = None.
Proof.
  apply (undecodable_frame_resolves_request decode Scenario.quiet 0 0
           "not json" 0 _ sole_request_after_query).
  reflexivity.
Defined.

(** [{"type":"focus_changed","data":{}}] is an event. *)
Lemma event_classification_witness :
  let w := run decode Scenario.quiet Scenario.two_subscribers Scenario.fresh in
  handleMessage decode Scenario.quiet (Scenario.event_frame "{}") 7 w
  = emitEvent Scenario.quiet (JStr "focus_changed") (JObj []) 7 w.
Proof.
  intros w.
  destruct (event_classification decode Scenario.quiet
              (Scenario.event_frame "{}") 7
              [("type", JStr "focus_changed"); ("data", JObj [])] w)
    as (_ & Hevent & _); [reflexivity|].
  apply Hevent; reflexivity.
Defined.

(** Handler 1 throws; it is called, its exception is logged, and handler 2
    is called. *)
Lemma dispatch_calls_every_handler_witness :
  let w := run decode Scenario.faulty Scenario.two_subscribers Scenario.fresh in
  let event := EventArg (JObj [("type", JStr "focus_changed");
                               ("timestamp", JNum 7)]) in
  List.filter is_delivery
    (performed w (emitEvent Scenario.faulty (JStr "focus_changed") (JObj []) 7 w))
  = [Invoke 1 event;
     Console "error" "Error in event handler for focus_changed:";
     Invoke 2 event].
Proof.
  apply (dispatch_calls_every_handler Scenario.faulty "focus_changed" (JObj []) 7
           (run decode Scenario.faulty Scenario.two_subscribers Scenario.fresh)
           [1; 2]).
  - reflexivity.
  - intros h c _ Hc. simpl in Hc. by apply elem_of_nil in Hc.
Defined.



Lemma request_refused_when_not_connected_witness :
  api QueryMonitors Scenario.fresh
  = (Scenario.fresh, Rejected "Not connected to GlazeWM IPC").
Proof.
  apply request_refused_when_not_connected.
  - by eexists.
  - by left.
Defined.

(** The payload [{"type":5,"timestamp":6,"id":7}] of a "focus_changed"
    event reaches the subscribers with [type] 5 and [timestamp] 6. *)
Lemma payload_members_override_event_members_witness :
  let w := run decode Scenario.quiet Scenario.two_subscribers Scenario.fresh in
  let members := [("type", JNum 5); ("timestamp", JNum 6); ("id", JNum 7)] in
  let event := make_event (JStr "focus_changed") 99 (JObj members) in
  decode (Scenario.event_frame Scenario.payload_with_type)
  = Some (JObj [("type", JStr "focus_changed"); ("data", JObj members)]) /\
  prop "type" event = Some (JNum 5) /\
  prop "timestamp" event = Some (JNum 6) /\
  prop "id" event = Some (JNum 7).
Proof.
  intros w members event. split; [reflexivity|].
  destruct (payload_members_override_event_members Scenario.quiet
              (JStr "focus_changed") 99 members w 1 (EventArg event))
    as (_ & Hmember & Htype & Htime).
  - vm_compute. left.
  - split; [exact Htype|]. split; [exact Htime|]. by apply Hmember.
Defined.

(** [queryMonitors()] with a timeout of 50 ms and no response: the request
    is rejected with a message that names "query monitors". *)
Lemma request_timer_rejects_with_command_witness :
  let w := run decode Scenario.quiet Scenario.live Scenario.fresh in
  let w2 := run decode Scenario.quiet [Api (Subscribe "focus_changed" 1)]
              (api QueryMonitors w).1 in
  log (step decode Scenario.quiet (RequestTimer 0) w2)
  = log w2 ++ [Reject 0 "Request timeout after 50ms: query monitors"].
Proof.
  intros w w2.
  destruct (request_timer_rejects_with_command decode Scenario.quiet
              QueryMonitors "query monitors" w (api QueryMonitors w).1 0
              [Api (Subscribe "focus_changed" 1)])
    as (_ & _ & Hlog); [reflexivity | reflexivity | by eexists |].
  exact Hlog.
Defined.

(** ** The further properties at work *)

(** Two calls of [connect()] on a new client. *)
Lemma connect_again_before_open_creates_second_socket_witness :
  let w2 := (connect (connect Scenario.fresh).1).1 in
  ws (this w2) = Some 1 /\ length (sockets w2) = 2 /\ connectTimers w2 = [0; 1].
Proof.
  pose proof (connect_again_before_open_creates_second_socket
                Scenario.fresh eq_refl) as H.
  cbv zeta in H.
  change (valid_port (port (options (this Scenario.fresh)))) with true in H.
  destruct H as (_ & _ & Hws & Hs & Ht).
  split; [exact Hws|]. split; [|exact Ht].
  exact (f_equal length Hs).
Defined.

(** The socket opens: handler 1 throws, handler 2 is called all the same. *)
Lemma open_calls_connect_handlers_witness :
  let w := run decode Scenario.faulty Scenario.observed Scenario.fresh in
  exists l,
    log (step decode Scenario.faulty (SocketOpen 0) w)
    = log w ++ [Console "log" "Connected to GlazeWM IPC"] ++ l
        ++ [ConnectResolve 0] /\
    List.filter is_delivery l
    = [Invoke 1 NoArg; Console "error" "Error in connect handler:";
       Invoke 2 NoArg].
Proof.
  apply (open_calls_connect_handlers decode Scenario.faulty 0
           (run decode Scenario.faulty Scenario.observed Scenario.fresh)).
  vm_compute. by eexists.
Defined.

Lemma error_calls_error_handlers_witness :
  let w := run decode Scenario.quiet Scenario.observed Scenario.fresh in
  exists l,
    log (step decode Scenario.quiet (SocketError 0 "ECONNREFUSED") w)
    = log w ++ [Console "error" "WebSocket error:"] ++ l
        ++ [ConnectReject 0 "Failed to connect to GlazeWM IPC: ECONNREFUSED"] /\
    List.filter is_delivery l = [Invoke 3 (ErrorArg "ECONNREFUSED")].
Proof.
  apply (error_calls_error_handlers decode Scenario.quiet 0 "ECONNREFUSED"
           (run decode Scenario.quiet Scenario.observed Scenario.fresh)).
  - vm_compute. by eexists.
  - discriminate.
Defined.

(** The socket closes while request 0 is pending. *)
Lemma close_ends_the_connection_witness :
  let w := run decode Scenario.quiet
             (Scenario.observed ++ [SocketOpen 0; Api QueryMonitors]) Scenario.fresh in
  let w' := step decode Scenario.quiet (SocketClose 0) w in
  List.filter is_delivery (performed w w') = [Invoke 4 NoArg] /\
  connected (this w') = false /\
  pendingRequests (this w') = [] /\
  (forall id, JsMap.get id (timers w') = None).
Proof.
  apply (close_ends_the_connection decode Scenario.quiet
           None (Some 50%Z) (Some false) None
           (Scenario.observed ++ [SocketOpen 0; Api QueryMonitors]) 0).
  vm_compute. by eexists.
Defined.

(** The connection timer fires before the socket has opened. *)
Lemma connection_timer_reports_timeout_witness :
  let w := run decode Scenario.quiet Scenario.observed Scenario.fresh in
  exists l,
    log (step decode Scenario.quiet (ConnectTimer 0) w)
    = log w ++ l ++ [ConnectReject 0 connection_timeout] /\
    List.filter is_delivery l = [Invoke 3 (ErrorArg connection_timeout)].
Proof.
  apply (connection_timer_reports_timeout decode Scenario.quiet 0
           (run decode Scenario.quiet Scenario.observed Scenario.fresh)).
  vm_compute. left.
Defined.

Lemma requests_are_pending_only_while_connected_witness :
  let w := run decode Scenario.quiet Scenario.two_requests Scenario.fresh in
  isConnected w = true /\ is_Some (ws (this w)).
Proof.
  apply (requests_are_pending_only_while_connected decode Scenario.quiet
           None (Some 50%Z) (Some false) None Scenario.two_requests).
  vm_compute. discriminate.
Defined.

(** Request 1 is accepted while request 0 waits; the timer of request 0
    fires: request 1 is still pending and has not been called. *)
Lemma accepted_request_is_not_called_while_pending_witness :
  let w := run decode Scenario.quiet Scenario.one_request
             (WmClient_new None (Some 50%Z) (Some false) None) in
  let w' := run decode Scenario.quiet [RequestTimer 0]
              (api QueryWorkspaces w).1 in
  List.filter (settles 1) (log w') = [] /\ is_Some (JsMap.get 1 (timers w')).
Proof.
  assert (Hc : api QueryWorkspaces
                 (run decode Scenario.quiet Scenario.one_request
                    (WmClient_new None (Some 50%Z) (Some false) None))
               = ((api QueryWorkspaces
                     (run decode Scenario.quiet Scenario.one_request
                        (WmClient_new None (Some 50%Z) (Some false) None))).1,
                  AwaitsResponse 1))
    by (vm_compute; reflexivity).
  apply (accepted_request_is_not_called_while_pending decode Scenario.quiet
           None (Some 50%Z) (Some false) None Scenario.one_request
           QueryWorkspaces _ 1 [RequestTimer 0] Hc).
  vm_compute. by eexists.
Defined.

(** Request 0 is accepted and times out; its response comes late and the
    client disconnects: the rejection of the timer remains the only call. *)
Lemma timed_out_request_is_called_once_witness :
  let w := run decode Scenario.quiet Scenario.live
             (WmClient_new None (Some 50%Z) (Some false) None) in
  let w2 := run decode Scenario.quiet [Api QueryWorkspaces]
              (api QueryMonitors w).1 in
  exists text,
    List.filter (settles 0)
      (log (run decode Scenario.quiet
              [SocketMessage 0 Scenario.success_frame 0; Api Disconnect]
              (step decode Scenario.quiet (RequestTimer 0) w2)))
    = [Reject 0 text].
Proof.
  assert (Hc : api QueryMonitors
                 (run decode Scenario.quiet Scenario.live
                    (WmClient_new None (Some 50%Z) (Some false) None))
               = ((api QueryMonitors
                     (run decode Scenario.quiet Scenario.live
                        (WmClient_new None (Some 50%Z) (Some false) None))).1,
                  AwaitsResponse 0))
    by (vm_compute; reflexivity).
  apply (timed_out_request_is_called_once decode Scenario.quiet
           None (Some 50%Z) (Some false) None Scenario.live QueryMonitors _ 0
           [Api QueryWorkspaces]
           [SocketMessage 0 Scenario.success_frame 0; Api Disconnect] Hc).
  vm_compute. by eexists.
Defined.

(** Request 0 is accepted and answered; the same frame comes again, the
    timer is delivered and the client disconnects: one call remains. *)
Lemma answered_request_is_called_once_witness :
  let w := run decode Scenario.quiet Scenario.live
             (WmClient_new None (Some 50%Z) (Some false) None) in
  let w2 := run decode Scenario.quiet [Api IsConnected]
              (api QueryMonitors w).1 in
  List.filter (settles 0)
    (log (run decode Scenario.quiet
            [SocketMessage 0 Scenario.success_frame 0; RequestTimer 0;
             Api Disconnect]
            (step decode Scenario.quiet
               (SocketMessage 0 Scenario.success_frame 0) w2)))
  = [outcome decode 0 Scenario.success_frame].
Proof.
  assert (Hc : api QueryMonitors
                 (run decode Scenario.quiet Scenario.live
                    (WmClient_new None (Some 50%Z) (Some false) None))
               = ((api QueryMonitors
                     (run decode Scenario.quiet Scenario.live
                        (WmClient_new None (Some 50%Z) (Some false) None))).1,
                  AwaitsResponse 0))
    by (vm_compute; reflexivity).
  apply (answered_request_is_called_once decode Scenario.quiet
           None (Some 50%Z) (Some false) None Scenario.live QueryMonitors _ 0
           [Api IsConnected] 0 Scenario.success_frame 0
           [SocketMessage 0 Scenario.success_frame 0; RequestTimer 0;
            Api Disconnect] Hc).
  - vm_compute. split; [reflexivity|]. split; [|reflexivity].
    eexists. split; reflexivity.
  - vm_compute. by eexists.
  - vm_compute. reflexivity.
Defined.

(** One success frame while requests 0 and 1 are pending: both are
    resolved with its data. *)
Lemma frame_completes_every_pending_request_witness :
  let w := run decode Scenario.quiet Scenario.two_requests Scenario.fresh in
  let w' := step decode Scenario.quiet
              (SocketMessage 0 Scenario.success_frame 0) w in
  List.filter (settles 0) (performed w w') = [Resolve 0 (Some (JNum 1))] /\
  List.filter (settles 1) (performed w w') = [Resolve 1 (Some (JNum 1))] /\
  pendingRequests (this w') = [].
Proof.
  destruct (frame_completes_every_pending_request decode Scenario.quiet
              None (Some 50%Z) (Some false) None Scenario.two_requests 0
              Scenario.success_frame 0 eq_refl eq_refl)
    as (Hall & Hempty & _).
  split; [exact (Hall 0 (ex_intro _ _ eq_refl))|].
  split; [exact (Hall 1 (ex_intro _ _ eq_refl))|exact Hempty].
Defined.

(** The first request of a connection takes identifier 0. *)
Lemma accepted_request_takes_a_new_identifier_witness :
  let w := run decode Scenario.quiet Scenario.live Scenario.fresh in
  0 = messageId (this w) /\
  JsMap.get 0 (pendingRequests (this w)) = None /\
  List.filter (settles 0) (log w) = [].
Proof.
  assert (Hc : api QueryMonitors
                 (run decode Scenario.quiet Scenario.live
                    (WmClient_new None (Some 50%Z) (Some false) None))
               = ((api QueryMonitors
                     (run decode Scenario.quiet Scenario.live
                        (WmClient_new None (Some 50%Z) (Some false) None))).1,
                  AwaitsResponse 0))
    by (vm_compute; reflexivity).
  destruct (accepted_request_takes_a_new_identifier decode Scenario.quiet
              None (Some 50%Z) (Some false) None Scenario.live QueryMonitors
              _ 0 Hc)
    as (Hid & _ & Hfresh & _ & _ & Hnone & _).
  split; [exact Hid|]. split; [exact Hfresh|exact Hnone].
Defined.

(** [subscribeMany] over two event types, with a query and a subscription
    of another handler made meanwhile. *)
Lemma subscribeMany_subscribes_to_every_type_witness :
  subscribed "window_managed" 1
    (subscribeMany ["focus_changed"; "window_managed"] 1
       [[QueryMonitors; Subscribe "focus_changed" 2]]
       (run decode Scenario.quiet Scenario.live Scenario.fresh)).
Proof.
  apply (subscribeMany_subscribes_to_every_type decode Scenario.quiet
           None (Some 50%Z) (Some false) None Scenario.live
           ["focus_changed"; "window_managed"] 1
           [[QueryMonitors; Subscribe "focus_changed" 2]] "window_managed").
  - intros cs c Hcs Hc.
    apply elem_of_cons in Hcs as [->|Hcs]; [|by apply elem_of_nil in Hcs].
    apply elem_of_cons in Hc as [->|Hc]; [reflexivity|].
    apply elem_of_cons in Hc as [->|Hc]; [reflexivity|].
    by apply elem_of_nil in Hc.
  - right. left.
Defined.
